(** * ai-skills: installation and state tracking

    A shallow embedding of the installation core of the ai-skills
    scaffolder: the assistant registry and its path functions
    ([agents.ts]), frontmatter validation ([catalog.ts]), the lock store
    ([lock.ts]), the bridge-file writer ([bridge.ts]) and the installer
    ([installer.ts]), with the properties the specification states about
    them.

    Conventions of the embedding.
    - A JavaScript string is a Rocq [string]; a character is an [ascii],
      so character codes range over 0..255 and case mapping is the ASCII
      one.
    - [node:path] is the POSIX variant; [Path.join] follows Node's
      [normalizeString] segment by segment.
    - The file system is a finite map from resolved paths (lists of
      segments below the root) to nodes; an [async] function is a state
      transformer over it that returns or throws. *)

From stdpp Require Import base option list strings gmap pretty.
From Stdlib Require Import Ascii String.

Local Open Scope string_scope.
Local Open Scope list_scope.
Set Warnings "-register-all".

(** ** node:path (POSIX) *)

Module Path.

(** [s.split("/")]: always at least one segment. *)
Fixpoint split (s : string) : list string :=
  match s with
  | EmptyString => [""]
  | String c s' =>
      if Ascii.eqb c "/" then "" :: split s'
      else match split s' with
           | [] => [String c ""]
           | seg :: rest => String c seg :: rest
           end
  end.

(** [segs.join("/")]. *)
Fixpoint unsplit (segs : list string) : string :=
  match segs with
  | [] => ""
  | [seg] => seg
  | seg :: rest => seg +:+ "/" +:+ unsplit rest
  end.

(** One step of Node's [normalizeString]: [res] is the result so far, last
    segment first. Empty and ["."] segments are dropped; [".."] removes
    the last kept segment unless that is itself [".."] (or there is
    none), in which case it is kept only when the path may climb above
    its start. *)
Definition push_segment (allowAboveRoot : bool) (res : list string) (seg : string)
  : list string :=
  if String.eqb seg "" || String.eqb seg "." then res
  else if String.eqb seg ".." then
    match res with
    | last :: res' =>
        if String.eqb last ".." then (if allowAboveRoot then ".." :: res else res)
        else res'
    | [] => if allowAboveRoot then [".."] else []
    end
  else seg :: res.

Definition normalizeSegments (allowAboveRoot : bool) (segs : list string) : list string :=
  rev (fold_left (push_segment allowAboveRoot) segs []).

Definition normalizeString (path : string) (allowAboveRoot : bool) : string :=
  unsplit (normalizeSegments allowAboveRoot (split path)).

Definition isAbsolute (path : string) : bool :=
  match path with
  | String c _ => Ascii.eqb c "/"
  | EmptyString => false
  end.

Fixpoint endsWithSlash (path : string) : bool :=
  match path with
  | EmptyString => false
  | String c EmptyString => Ascii.eqb c "/"
  | String _ rest => endsWithSlash rest
  end.

(** [path.normalize]. *)
Definition normalize (path : string) : string :=
  if String.eqb path "" then "."
  else
    let isAbs := isAbsolute path in
    let trailingSeparator := endsWithSlash path in
    let p := normalizeString path (negb isAbs) in
    if String.eqb p "" then
      if isAbs then "/" else if trailingSeparator then "./" else "."
    else
      let p := if trailingSeparator then p +:+ "/" else p in
      if isAbs then "/" +:+ p else p.

(** [path.join(...args)]: the non-empty arguments, joined by ["/"] and
    normalized; ["."] when there is none. *)
Definition join (args : list string) : string :=
  match filter (λ a, a ≠ "") args with
  | [] => "."
  | nonempty => normalize (unsplit nonempty)
  end.

(** A resolved path: the segments below the root directory. *)
Abbreviation resolved := (list string).

(** What the operating system makes of a path string handed to a file
    operation: a relative path starts at the working directory. *)
Definition resolve (cwd : string) (path : string) : resolved :=
  normalizeSegments false
    (if isAbsolute path then split path else split cwd ++ split path).

(** The directory holding a resolved path ([path.dirname] of a joined
    path, once resolved). *)
Definition parent (p : resolved) : resolved := removelast p.

(** The segments two resolved paths start with in common. *)
Fixpoint common (from to : resolved) : resolved :=
  match from, to with
  | a :: from', b :: to' => if String.eqb a b then a :: common from' to' else []
  | _, _ => []
  end.

(** [path.relative(from, to)]: both are resolved; the result climbs out
    of what is left of [from] after the common part and goes down what
    is left of [to]. *)
Definition relative (cwd from to : string) : string :=
  let from := resolve cwd from in
  let to := resolve cwd to in
  let shared := List.length (common from to) in
  unsplit (replicate (List.length from - shared) ".." ++ drop shared to).

End Path.

(** ** types.ts *)

Inductive ContentType := skills | agents | commands | rules | prompts.

Inductive InstallScope := project | global.

Inductive InstallMethod := symlink | copy.

#[global] Instance ContentType_eq_dec : EqDecision ContentType.
Proof. solve_decision. Defined.
#[global] Instance InstallScope_eq_dec : EqDecision InstallScope.
Proof. solve_decision. Defined.
#[global] Instance InstallMethod_eq_dec : EqDecision InstallMethod.
Proof. solve_decision. Defined.

(** The string a content type is at run time. *)
Definition ContentType_str (t : ContentType) : string :=
  match t with
  | skills => "skills"
  | agents => "agents"
  | commands => "commands"
  | rules => "rules"
  | prompts => "prompts"
  end.

Definition InstallScope_str (s : InstallScope) : string :=
  match s with project => "project" | global => "global" end.

Definition InstallMethod_str (m : InstallMethod) : string :=
  match m with symlink => "symlink" | copy => "copy" end.

(** [AssistantConfig]. [detectInstalled] is a probe of the machine and
    plays no part in path resolution; it is left out. *)
Record AssistantConfig := {
  a_name : string;
  a_id : string;
  a_description : string;
  a_paths : ContentType → option string;
  a_globalPaths : ContentType → option string;
  a_fileExtension : option string;
  a_isUniversal : option bool;
  a_contextFile : option string;
}.

(** A directory tree as [readdir] walks it: the names in a directory are
    plain names, in the order [readdir] lists them. *)
Inductive Tree :=
  | TFile (content : string)
  | TDir (entries : list (string * Tree)).

(** What the process reads from its surroundings: [os.homedir()],
    [process.cwd()], [process.env.CLAUDE_CONFIG_DIR], the templates
    directory that ships with the package ([getTemplatesRoot()] and what
    is below it; the program only reads it), and the clock, as the time
    each reading of it gives. *)
Record Env := {
  homedir : string;
  cwd : string;
  CLAUDE_CONFIG_DIR : option string;
  templatesRoot : string;
  templates : list (string * Tree);
  clock : nat → string;
}.

(** ** agents.ts *)

(** White space for [String.prototype.trim], within the character codes
    modelled. *)
Definition is_space (c : ascii) : bool :=
  let n := nat_of_ascii c in
  ((9 <=? n)%nat && (n <=? 13)%nat) || (n =? 32)%nat || (n =? 160)%nat.

Fixpoint trimStart (s : string) : string :=
  match s with
  | String c rest => if is_space c then trimStart rest else s
  | EmptyString => EmptyString
  end.

Fixpoint trimEnd (s : string) : string :=
  match s with
  | String c rest =>
      match trimEnd rest with
      | EmptyString => if is_space c then EmptyString else String c EmptyString
      | rest' => String c rest'
      end
  | EmptyString => EmptyString
  end.

(** [s.trim()] *)
Definition trim (s : string) : string := trimEnd (trimStart s).

Section Agents.
Context (env : Env).

Definition home : string := homedir env.

(** JavaScript truthiness of an optional string: [undefined] and [""] are
    falsy. *)
Definition truthy (s : option string) : option string :=
  match s with
  | Some "" => None
  | other => other
  end.

(** [process.env.CLAUDE_CONFIG_DIR?.trim() || path.join(home, ".claude")] *)
Definition claudeHome : string :=
  default (Path.join [home; ".claude"]) (truthy (trim <$> CLAUDE_CONFIG_DIR env)).

(** Two of the registered assistants. *)
Definition claude : AssistantConfig :=
  {| a_name := "Claude Code";
     a_id := "claude";
     a_description := "Anthropic's Claude AI assistant for coding";
     a_paths := λ t,
       match t with
       | skills => Some ".claude/skills"
       | agents => Some ".claude/agents"
       | commands => Some ".claude/commands"
       | _ => None
       end;
     a_globalPaths := λ t,
       match t with
       | skills => Some (Path.join [claudeHome; "skills"])
       | agents => Some (Path.join [claudeHome; "agents"])
       | commands => Some (Path.join [claudeHome; "commands"])
       | _ => None
       end;
     a_fileExtension := None;
     a_isUniversal := None;
     a_contextFile := Some "CLAUDE.md" |}.

Definition cursor : AssistantConfig :=
  {| a_name := "Cursor";
     a_id := "cursor";
     a_description := "AI-first code editor with built-in assistant";
     a_paths := λ t,
       match t with
       | skills => Some ".cursor/skills"
       | rules => Some ".cursor/rules"
       | _ => None
       end;
     a_globalPaths := λ t,
       match t with
       | skills => Some (Path.join [home; ".cursor"; "skills"])
       | rules => Some (Path.join [home; ".cursor"; "rules"])
       | _ => None
       end;
     a_fileExtension := None;
     a_isUniversal := None;
     a_contextFile := Some "AGENTS.md" |}.

Definition CANONICAL_DIR : string := ".ai".

Definition getContentPath (assistant : AssistantConfig) (contentType : ContentType)
    (scope : InstallScope) (projectRoot : option string) : option string :=
  match scope with
  | global => a_globalPaths assistant contentType
  | project =>
      match truthy (a_paths assistant contentType) with
      | None => None
      | Some relativePath =>
          match truthy projectRoot with
          | Some root => Some (Path.join [root; relativePath])
          | None => Some relativePath
          end
      end
  end.

Definition getCanonicalPath (contentType : ContentType) (name : string)
    (scope : InstallScope) (projectRoot : option string) : string :=
  let basePath :=
    match scope with
    | global => Path.join [home; CANONICAL_DIR]
    | project => CANONICAL_DIR
    end in
  let fullBase :=
    match truthy projectRoot with
    | Some root => Path.join [root; basePath]
    | None => basePath
    end in
  Path.join [fullBase; ContentType_str contentType; name].

End Agents.


(** ** The file system and asynchronous functions *)

(** A JSON value, as [JSON.parse] returns it. The lock file holds no
    number; integers stand for the numbers a document may hold. *)
Inductive json :=
  | JNull
  | JBool (b : bool)
  | JNumber (n : Z)
  | JString (s : string)
  | JArray (items : list json)
  | JObject (fields : list (string * json)).

(** The text of a file. JSON text is kept as the value it parses to
    ([JSON.stringify] and [JSON.parse] are inverse on the documents the
    program writes); any other text is kept as it is, and [JSON.parse]
    rejects it: the other files the program handles are Markdown. *)
Inductive Content :=
  | Text (s : string)
  | JsonText (v : json).

Inductive Node :=
  | Dir
  | File (c : Content).

(** The disk: the nodes below the root directory, and the paths on which
    the operating system refuses creation, modification and removal. The
    tick counts the readings of the clock. A recursive removal that fails
    has removed part of what it was to remove; which part depends on the
    order in which the directory is walked, which the program does not
    decide: [unreached] holds the nodes such a removal has not come to
    when it fails. *)
Record World := {
  nodes : gmap Path.resolved Node;
  denied : gset Path.resolved;
  ticks : nat;
  unreached : gset Path.resolved;
}.

Definition with_nodes (f : gmap Path.resolved Node → gmap Path.resolved Node)
    (w : World) : World :=
  {| nodes := f (nodes w); denied := denied w; ticks := ticks w;
     unreached := unreached w |}.

(** The root directory is always there. *)
Definition node_at (w : World) (p : Path.resolved) : option Node :=
  match p with
  | [] => Some Dir
  | _ => nodes w !! p
  end.

(** How a call ends: it returns, it throws (a rejected promise), or it
    leaves the TypeScript types: a value cast with [as] did not have the
    shape of its type, and what JavaScript does from there is not
    modelled. An error of the file system is kept as its code, a
    [TypeError] as its message. *)
Inductive Outcome (A : Type) :=
  | Returned (a : A)
  | Threw (message : string)
  | IllTyped.
Arguments Returned {A} a.
Arguments Threw {A} message.
Arguments IllTyped {A}.

Definition M (A : Type) : Type := World → World * Outcome A.

Definition ret {A} (a : A) : M A := λ w, (w, Returned a).

Definition throw {A} (message : string) : M A := λ w, (w, Threw message).

Definition bind {A B} (m : M A) (k : A → M B) : M B :=
  λ w, match m w with
       | (w', Returned a) => k a w'
       | (w', Threw e) => (w', Threw e)
       | (w', IllTyped) => (w', IllTyped)
       end.

(** [try { m } catch (e) { handler(e) }] *)
Definition try_catch {A} (m : M A) (handler : string → M A) : M A :=
  λ w, match m w with
       | (w', Threw e) => handler e w'
       | other => other
       end.

(** [v as T], where [decode] tells whether [v] has the shape of [T]. *)
Definition cast {A} (decoded : option A) : M A :=
  λ w, match decoded with
       | Some a => (w, Returned a)
       | None => (w, IllTyped)
       end.

Notation "'let!' x ':=' m 'in' k" := (bind m (λ x, k))
  (at level 20, x name, m at level 100, k at level 200, only parsing).
Notation "m ';;;' k" := (bind m (λ _, k))
  (at level 100, k at level 200, right associativity, only parsing).

(** *** node:fs *)

Module Fs.

(** [fs.promises.access(p)] *)
Definition access (p : Path.resolved) : M unit :=
  λ w, match node_at w p with
       | Some _ => (w, Returned tt)
       | None => (w, Threw "ENOENT")
       end.

(** [fs.promises.readFile(p, "utf-8")] *)
Definition readFile (p : Path.resolved) : M Content :=
  λ w, match node_at w p with
       | Some (File c) => (w, Returned c)
       | Some Dir => (w, Threw "EISDIR")
       | None => (w, Threw "ENOENT")
       end.

(** [fs.promises.mkdir(p, { recursive: true })]: walks down from the
    root, [done] being the part already known to be a directory, and
    creates what is missing. A file in the place of the directory to make
    is [EEXIST], a file on the way to it [ENOTDIR]. *)
Fixpoint mkdir_from (done : Path.resolved) (todo : list string) : M unit :=
  match todo with
  | [] => ret tt
  | seg :: rest =>
      let q := done ++ [seg] in
      λ w, match nodes w !! q with
           | Some Dir => mkdir_from q rest w
           | Some (File _) =>
               (w, Threw match rest with [] => "EEXIST" | _ => "ENOTDIR" end)
           | None =>
               if decide (q ∈ denied w) then (w, Threw "EACCES")
               else mkdir_from q rest (with_nodes <[q:=Dir]> w)
           end
  end.

Definition mkdir_p (p : Path.resolved) : M unit := mkdir_from [] p.

(** [fs.promises.writeFile(p, content, "utf-8")]: the directory of [p]
    has to exist; an existing file is replaced. *)
Definition writeFile (p : Path.resolved) (c : Content) : M unit :=
  λ w, match node_at w (Path.parent p), node_at w p with
       | Some Dir, Some Dir => (w, Threw "EISDIR")
       | Some Dir, _ =>
           if decide (p ∈ denied w) then (w, Threw "EACCES")
           else (with_nodes <[p:=File c]> w, Returned tt)
       | Some (File _), _ => (w, Threw "ENOTDIR")
       | None, _ => (w, Threw "ENOENT")
       end.

(** Whether a file lies on the way from [done] down [todo]: looking up
    a path through it fails with [ENOTDIR]. *)
Fixpoint through_file (w : World) (done : Path.resolved) (todo : list string) : bool :=
  match todo with
  | [] => false
  | seg :: rest =>
      match node_at w done with
      | Some (File _) => true
      | _ => through_file w (done ++ [seg]) rest
      end
  end.

(** A node that a failing removal leaves: the node itself or a node below
    it is protected, or has not been reached. *)
Definition stays (w : World) (k : Path.resolved) : Prop :=
  set_Exists (λ k', k `prefix_of` k' ∧ is_Some (nodes w !! k'))
    (denied w ∪ unreached w).

(** [fs.promises.rm(p, { recursive: true, force: true })]. With [force] a
    path that is not there is no error, but a file on the way to it is
    ([ENOTDIR]). The removal fails when [p] or a node below it is
    protected; it has then removed the nodes below [p] that it has
    reached and that hold nothing protected, and [p] is still there. *)
Definition rm_rf (p : Path.resolved) : M unit :=
  λ w, if through_file w [] p then (w, Threw "ENOTDIR")
       else
         match node_at w p with
         | None => (w, Returned tt)
         | Some _ =>
             if bool_decide (p = [])
                || bool_decide (set_Exists (λ k, p `prefix_of` k ∧ is_Some (nodes w !! k))
                                  (denied w))
             then (with_nodes (filter (λ kv, ¬ p `prefix_of` kv.1 ∨ stays w kv.1)) w,
                   Threw "EACCES")
             else (with_nodes (filter (λ kv, ¬ p `prefix_of` kv.1)) w, Returned tt)
         end.

(** [fs.promises.stat(p)]: the node at [p] stands for its [Stats]. *)
Definition stat (p : Path.resolved) : M Node :=
  λ w, match node_at w p with
       | Some n => (w, Returned n)
       | None => (w, Threw "ENOENT")
       end.

(** [fs.promises.unlink(p)]: removes a file, and nothing else. *)
Definition unlink (p : Path.resolved) : M unit :=
  λ w, match node_at w p with
       | Some (File _) =>
           if decide (p ∈ denied w) then (w, Threw "EACCES")
           else (with_nodes (delete p) w, Returned tt)
       | Some Dir => (w, Threw "EISDIR")
       | None => (w, Threw "ENOENT")
       end.

End Fs.

(** [stats.isDirectory()] *)
Definition isDirectory (stats : Node) : bool :=
  match stats with
  | Dir => true
  | File _ => false
  end.

(** [JSON.parse(content)] *)
Definition JSON_parse (c : Content) : M json :=
  match c with
  | JsonText v => ret v
  | Text _ => throw "SyntaxError"
  end.

(** ** Lock file documents (types.ts) *)

Record InstalledItem := {
  i_type : ContentType;
  i_id : string;
  i_source : string;
  i_hash : string;
  i_installedAt : string;
  i_assistants : list string;
  i_scope : InstallScope;
  i_method : InstallMethod;
}.

Record Preferences := {
  defaultAssistants : option (list string);
  defaultScope : option InstallScope;
  defaultMethod : option InstallMethod;
}.

(** [installed] is a JavaScript object used as a map: its keys in
    insertion order, each at most once. *)
Record LockFile := {
  version : string;
  lastUpdateCheck : option string;
  installed : list (string * InstalledItem);
  preferences : option Preferences;
}.

(** *** Objects as maps *)

Section Obj.
Context {V : Type}.

(** [o[key]] *)
Fixpoint obj_get (key : string) (o : list (string * V)) : option V :=
  match o with
  | [] => None
  | (k, v) :: rest => if String.eqb k key then Some v else obj_get key rest
  end.

(** [o[key] = v]: an existing key keeps its place, a new one goes last. *)
Fixpoint obj_set (key : string) (v : V) (o : list (string * V)) : list (string * V) :=
  match o with
  | [] => [(key, v)]
  | (k, v') :: rest =>
      if String.eqb k key then (k, v) :: rest else (k, v') :: obj_set key v rest
  end.

(** [delete o[key]] *)
Fixpoint obj_delete (key : string) (o : list (string * V)) : list (string * V) :=
  match o with
  | [] => []
  | (k, v') :: rest =>
      if String.eqb k key then obj_delete key rest else (k, v') :: obj_delete key rest
  end.

(** [Object.values(o)] *)
Definition obj_values (o : list (string * V)) : list V := map snd o.

Definition obj_keys (o : list (string * V)) : list string := map fst o.

End Obj.

(** *** The JSON text of a lock file *)

Definition json_of_strings (l : list string) : json := JArray (map JString l).

Definition json_of_InstalledItem (i : InstalledItem) : json :=
  JObject
    [ ("type", JString (ContentType_str (i_type i)));
      ("id", JString (i_id i));
      ("source", JString (i_source i));
      ("hash", JString (i_hash i));
      ("installedAt", JString (i_installedAt i));
      ("assistants", json_of_strings (i_assistants i));
      ("scope", JString (InstallScope_str (i_scope i)));
      ("method", JString (InstallMethod_str (i_method i))) ].

(** [JSON.stringify] leaves out a field that is [undefined]. *)
Definition json_field {A} (name : string) (f : A → json) (o : option A)
  : list (string * json) :=
  match o with
  | Some a => [(name, f a)]
  | None => []
  end.

Definition json_of_Preferences (p : Preferences) : json :=
  JObject
    (json_field "defaultAssistants" json_of_strings (defaultAssistants p)
     ++ json_field "defaultScope" (λ s, JString (InstallScope_str s)) (defaultScope p)
     ++ json_field "defaultMethod" (λ m, JString (InstallMethod_str m)) (defaultMethod p)).

Definition json_of_LockFile (l : LockFile) : json :=
  JObject
    ([("version", JString (version l))]
     ++ json_field "lastUpdateCheck" JString (lastUpdateCheck l)
     ++ [("installed", JObject (map (λ kv, (kv.1, json_of_InstalledItem kv.2)) (installed l)))]
     ++ json_field "preferences" json_of_Preferences (preferences l)).

(** The way back: which JSON values have the shape of each type. *)

Definition ContentType_of_str (s : string) : option ContentType :=
  if String.eqb s "skills" then Some skills
  else if String.eqb s "agents" then Some agents
  else if String.eqb s "commands" then Some commands
  else if String.eqb s "rules" then Some rules
  else if String.eqb s "prompts" then Some prompts
  else None.

Definition InstallScope_of_str (s : string) : option InstallScope :=
  if String.eqb s "project" then Some project
  else if String.eqb s "global" then Some global
  else None.

Definition InstallMethod_of_str (s : string) : option InstallMethod :=
  if String.eqb s "symlink" then Some symlink
  else if String.eqb s "copy" then Some copy
  else None.

Definition string_of_json (v : json) : option string :=
  match v with
  | JString s => Some s
  | _ => None
  end.

Definition strings_of_json (v : json) : option (list string) :=
  match v with
  | JArray items => mapM string_of_json items
  | _ => None
  end.

(** Takes the field [name] off the front of [fields]. *)
Definition take_field (name : string) (fields : list (string * json))
  : option (json * list (string * json)) :=
  match fields with
  | (k, v) :: rest => if String.eqb k name then Some (v, rest) else None
  | [] => None
  end.

(** The same for a field that may be missing. *)
Definition take_optional (name : string) (fields : list (string * json))
  : option json * list (string * json) :=
  match take_field name fields with
  | Some (v, rest) => (Some v, rest)
  | None => (None, fields)
  end.

(** Decodes a field that may be missing; [None] when it is there with
    another shape. *)
Definition decode_optional {A} (decode : json → option A) (v : option json)
  : option (option A) :=
  match v with
  | None => Some None
  | Some j => Some <$> decode j
  end.

Definition InstalledItem_of_json (v : json) : option InstalledItem :=
  match v with
  | JObject fields =>
      '(t, fields) ← take_field "type" fields;
      '(i, fields) ← take_field "id" fields;
      '(src, fields) ← take_field "source" fields;
      '(h, fields) ← take_field "hash" fields;
      '(at_, fields) ← take_field "installedAt" fields;
      '(asst, fields) ← take_field "assistants" fields;
      '(sc, fields) ← take_field "scope" fields;
      '(m, fields) ← take_field "method" fields;
      match fields with
      | [] =>
          t ← string_of_json t ≫= ContentType_of_str;
          i ← string_of_json i;
          src ← string_of_json src;
          h ← string_of_json h;
          at_ ← string_of_json at_;
          asst ← strings_of_json asst;
          sc ← string_of_json sc ≫= InstallScope_of_str;
          m ← string_of_json m ≫= InstallMethod_of_str;
          Some {| i_type := t; i_id := i; i_source := src; i_hash := h;
                  i_installedAt := at_; i_assistants := asst;
                  i_scope := sc; i_method := m |}
      | _ => None
      end
  | _ => None
  end.

Definition Preferences_of_json (v : json) : option Preferences :=
  match v with
  | JObject fields =>
      let '(da, fields) := take_optional "defaultAssistants" fields in
      let '(ds, fields) := take_optional "defaultScope" fields in
      let '(dm, fields) := take_optional "defaultMethod" fields in
      match fields with
      | [] =>
          da ← decode_optional strings_of_json da;
          ds ← decode_optional (λ j, string_of_json j ≫= InstallScope_of_str) ds;
          dm ← decode_optional (λ j, string_of_json j ≫= InstallMethod_of_str) dm;
          Some {| defaultAssistants := da; defaultScope := ds; defaultMethod := dm |}
      | _ => None
      end
  | _ => None
  end.

Definition entries_of_json (v : json) : option (list (string * InstalledItem)) :=
  match v with
  | JObject fields => mapM (λ kv, pair kv.1 <$> InstalledItem_of_json kv.2) fields
  | _ => None
  end.

Definition LockFile_of_json (v : json) : option LockFile :=
  match v with
  | JObject fields =>
      '(ver, fields) ← take_field "version" fields;
      let '(luc, fields) := take_optional "lastUpdateCheck" fields in
      '(inst, fields) ← take_field "installed" fields;
      let '(prefs, fields) := take_optional "preferences" fields in
      match fields with
      | [] =>
          ver ← string_of_json ver;
          luc ← decode_optional string_of_json luc;
          inst ← entries_of_json inst;
          prefs ← decode_optional Preferences_of_json prefs;
          Some {| version := ver; lastUpdateCheck := luc; installed := inst;
                  preferences := prefs |}
      | _ => None
      end
  | _ => None
  end.

(** ** lock.ts *)

(** [Array.from(new Set(l))]: the elements of [l], each once, in the order
    of their first occurrence. *)
Definition Set_add (acc : list string) (x : string) : list string :=
  if decide (x ∈ acc) then acc else acc ++ [x].

Definition Set_from (l : list string) : list string :=
  fold_left Set_add l [].

Definition with_assistants (assistants : list string) (i : InstalledItem)
  : InstalledItem :=
  {| i_type := i_type i; i_id := i_id i; i_source := i_source i;
     i_hash := i_hash i; i_installedAt := i_installedAt i;
     i_assistants := assistants; i_scope := i_scope i; i_method := i_method i |}.

Definition with_installed (installed : list (string * InstalledItem)) (l : LockFile)
  : LockFile :=
  {| version := version l; lastUpdateCheck := lastUpdateCheck l;
     installed := installed; preferences := preferences l |}.

Section Lock.
Context (env : Env).

Definition LOCK_FILE_VERSION : string := "1.0.0".
Definition LOCK_FILE_NAME : string := ".skill-lock.json".

(** The node a path string names for the running process. *)
Definition on_disk (path : string) : Path.resolved := Path.resolve (cwd env) path.

Definition getLockFilePath (scope : InstallScope) (projectRoot : option string) : string :=
  match scope with
  | global => Path.join [homedir env; ".ai"; LOCK_FILE_NAME]
  | project =>
      let root := default (cwd env) (truthy projectRoot) in
      Path.join [root; ".ai"; LOCK_FILE_NAME]
  end.

Definition getItemKey (type : ContentType) (id : string) : string :=
  ContentType_str type +:+ "/" +:+ id.

Definition emptyLockFile : LockFile :=
  {| version := LOCK_FILE_VERSION; lastUpdateCheck := None; installed := [];
     preferences := None |}.

(** [readLockFile]: the value [JSON.parse] gives is returned under the
    type [LockFile] unchecked, so the model returns the JSON value; the
    callers below go through [cast] where they use its fields. *)
Definition readLockFile (scope : InstallScope) (projectRoot : option string) : M json :=
  let lockPath := getLockFilePath scope projectRoot in
  try_catch
    (let! content := Fs.readFile (on_disk lockPath) in
     JSON_parse content)
    (λ _, ret (json_of_LockFile emptyLockFile)).

Definition writeLockFile (lockFile : LockFile) (scope : InstallScope)
    (projectRoot : option string) : M unit :=
  let lockPath := getLockFilePath scope projectRoot in
  Fs.mkdir_p (Path.parent (on_disk lockPath)) ;;;
  Fs.writeFile (on_disk lockPath) (JsonText (json_of_LockFile lockFile)).

Definition updateLockFile (item : InstalledItem) (scope : InstallScope)
    (projectRoot : option string) : M unit :=
  let! doc := readLockFile scope projectRoot in
  let! lockFile := cast (LockFile_of_json doc) in
  let key := getItemKey (i_type item) (i_id item) in
  let entry :=
    match obj_get key (installed lockFile) with
    | Some existing =>
        with_assistants (Set_from (i_assistants existing ++ i_assistants item)) item
    | None => item
    end in
  writeLockFile (with_installed (obj_set key entry (installed lockFile)) lockFile)
    scope projectRoot.

Definition removeFromLockFile (type : ContentType) (id assistantId : string)
    (scope : InstallScope) (projectRoot : option string) : M unit :=
  let! doc := readLockFile scope projectRoot in
  let! lockFile := cast (LockFile_of_json doc) in
  let key := getItemKey type id in
  match obj_get key (installed lockFile) with
  | None => ret tt
  | Some item =>
      let assistants := filter (λ a, a ≠ assistantId) (i_assistants item) in
      let installed' :=
        if decide (List.length assistants = 0) then obj_delete key (installed lockFile)
        else obj_set key (with_assistants assistants item) (installed lockFile) in
      writeLockFile (with_installed installed' lockFile) scope projectRoot
  end.

Definition getInstalledItems (scope : InstallScope) (projectRoot : option string)
  : M (list InstalledItem) :=
  let! doc := readLockFile scope projectRoot in
  let! lockFile := cast (LockFile_of_json doc) in
  ret (obj_values (installed lockFile)).

Definition getInstalledItemsByType (type : ContentType) (scope : InstallScope)
    (projectRoot : option string) : M (list InstalledItem) :=
  let! items := getInstalledItems scope projectRoot in
  ret (filter (λ item, i_type item = type) items).

Definition isInstalled (type : ContentType) (id : string) (scope : InstallScope)
    (projectRoot : option string) : M bool :=
  let! doc := readLockFile scope projectRoot in
  let! lockFile := cast (LockFile_of_json doc) in
  ret (bool_decide (is_Some (obj_get (getItemKey type id) (installed lockFile)))).

Definition getInstallInfo (type : ContentType) (id : string) (scope : InstallScope)
    (projectRoot : option string) : M (option InstalledItem) :=
  let! doc := readLockFile scope projectRoot in
  let! lockFile := cast (LockFile_of_json doc) in
  ret (obj_get (getItemKey type id) (installed lockFile)).

End Lock.

(** ** String methods *)

Module Str.

Fixpoint chars (s : string) : list ascii :=
  match s with
  | EmptyString => []
  | String c rest => c :: chars rest
  end.

(** [s.startsWith(p)] *)
Definition startsWith (s p : string) : bool := String.prefix p s.

(** [s.includes(sub)] *)
Fixpoint includes (s sub : string) : bool :=
  String.prefix sub s ||
  match s with
  | EmptyString => false
  | String _ rest => includes rest sub
  end.

Definition lower (c : ascii) : ascii :=
  let n := nat_of_ascii c in
  if (65 <=? n)%nat && (n <=? 90)%nat then ascii_of_nat (n + 32) else c.

(** [s.toLowerCase()] *)
Fixpoint toLowerCase (s : string) : string :=
  match s with
  | EmptyString => EmptyString
  | String c rest => String (lower c) (toLowerCase rest)
  end.

(** [s.charCodeAt(i)]; [None] is [NaN]. *)
Definition charCodeAt (s : string) (i : nat) : option nat :=
  nat_of_ascii <$> String.get i s.

(** [s.indexOf(sub)]; [None] is [-1]. *)
Fixpoint indexOf (s sub : string) : option nat :=
  if String.prefix sub s then Some 0
  else match s with
       | EmptyString => None
       | String _ rest => S <$> indexOf rest sub
       end.

(** [s.slice(i)] *)
Fixpoint drop (i : nat) (s : string) : string :=
  match i, s with
  | S i', String _ rest => drop i' rest
  | _, _ => s
  end.

(** [s.slice(0, i)] *)
Definition take (i : nat) (s : string) : string := String.substring 0 i s.

(** [s.slice(1, -1)] *)
Definition inner (s : string) : string := String.substring 1 (String.length s - 2) s.

(** [s.endsWith(p)] *)
Definition endsWith (s p : string) : bool :=
  String.eqb (drop (String.length s - String.length p) s) p.

(** [s.split(sep)] for a separator of one character: always at least one
    piece. *)
Fixpoint split (sep : ascii) (s : string) : list string :=
  match s with
  | EmptyString => [EmptyString]
  | String c rest =>
      if Ascii.eqb c sep then EmptyString :: split sep rest
      else match split sep rest with
           | [] => [String c EmptyString]
           | piece :: pieces => String c piece :: pieces
           end
  end.

End Str.

(** ** catalog.ts: frontmatter validation *)

(** A frontmatter value, as [parseFrontmatter] produces it: a string or a
    list of strings. *)
Inductive FValue :=
  | FString (s : string)
  | FList (items : list string).

Definition Frontmatter := list (string * FValue).

Inductive ValidationSeverity := error | warning.

#[global] Instance ValidationSeverity_eq_dec : EqDecision ValidationSeverity.
Proof. solve_decision. Defined.

Record ValidationIssue := {
  field : string;
  severity : ValidationSeverity;
  message : string;
}.

Record ValidationResult := {
  valid : bool;
  issues : list ValidationIssue;
}.

Definition is_lower_alnum (c : ascii) : bool :=
  let n := nat_of_ascii c in
  ((97 <=? n)%nat && (n <=? 122)%nat) || ((48 <=? n)%nat && (n <=? 57)%nat).

(** The automaton of [/^[a-z0-9]+(-[a-z0-9]+)*$/]: [inGroup] tells whether
    the group being read already has a character. *)
Fixpoint kebab_from (inGroup : bool) (s : string) : bool :=
  match s with
  | EmptyString => inGroup
  | String c rest =>
      if is_lower_alnum c then kebab_from true rest
      else if Ascii.eqb c "-" then inGroup && kebab_from false rest
      else false
  end.

Definition KEBAB_CASE_RE (s : string) : bool := kebab_from false s.

Definition RESERVED_PREFIXES : list string := ["claude"; "anthropic"].

(** [/[<>]/] *)
Definition XML_BRACKETS_RE (s : string) : bool :=
  existsb (λ c, Ascii.eqb c "<" || Ascii.eqb c ">") (Str.chars s).

Definition triggerPhrases : list string :=
  ["use when"; "use for"; "use if"; "trigger"; "activate when";
   "asks about"; "asks to"; "asks for"].

(** [frontmatter.k as string | undefined]: [None] when the value is not a
    string, so that the value is not of the type it is cast to. *)
Definition as_string (v : option FValue) : option (option string) :=
  match v with
  | None => Some None
  | Some (FString s) => Some (Some s)
  | Some (FList _) => None
  end.

(** [!frontmatter.k]: a list is truthy, the empty string is not. *)
Definition falsy (v : option FValue) : bool :=
  match v with
  | None => true
  | Some (FString s) => String.eqb s ""
  | Some (FList _) => false
  end.

Definition issue (f : string) (sev : ValidationSeverity) (msg : string)
  : ValidationIssue :=
  {| field := f; severity := sev; message := msg |}.

(** A double quote, for the messages. *)
Definition dq : string := String (ascii_of_nat 34) EmptyString.

Definition kebab_issue (name : string) : ValidationIssue :=
  issue "name" error
    ("Name must be kebab-case (got " +:+ dq +:+ name +:+ dq
     +:+ "). Use lowercase letters, numbers, and hyphens only.").

Definition reserved_issue : ValidationIssue :=
  issue "name" error
    ("Name must not start with reserved prefix (" +:+ dq +:+ "claude" +:+ dq
     +:+ " or " +:+ dq +:+ "anthropic" +:+ dq +:+ ").").

Definition folder_issue (name folderId : string) : ValidationIssue :=
  issue "name" warning
    ("Name " +:+ dq +:+ name +:+ dq +:+ " does not match folder name "
     +:+ dq +:+ folderId +:+ dq +:+ ". They should match.").

Definition length_issue (description : string) : ValidationIssue :=
  issue "description" error
    ("Description exceeds 1024 characters (got "
     +:+ pretty (String.length description) +:+ ").").

Definition description_brackets_issue : ValidationIssue :=
  issue "description" error
    "Description must not contain XML angle brackets (< >).".

Definition trigger_issue : ValidationIssue :=
  issue "description" warning
    ("Description should include trigger conditions (e.g., " +:+ dq
     +:+ "Use when user asks about..." +:+ dq +:+ ").").

Definition brackets_issue (key : string) : ValidationIssue :=
  issue key error
    ("Field " +:+ dq +:+ key +:+ dq +:+ " must not contain XML angle brackets (< >).").

Definition category_issue : ValidationIssue :=
  issue "category" warning
    "Missing recommended field: category. Add a category for better organization.".

Definition tags_issue : ValidationIssue :=
  issue "tags" warning
    "Missing recommended field: tags. Add tags for improved discoverability.".

Definition when (b : bool) (i : ValidationIssue) : list ValidationIssue :=
  if b then [i] else [].

Definition name_issues (name folderId : option string) : list ValidationIssue :=
  match truthy name with
  | None => [issue "name" error "Missing required field: name"]
  | Some name =>
      when (negb (KEBAB_CASE_RE name)) (kebab_issue name)
      ++ when (existsb (Str.startsWith name) RESERVED_PREFIXES) reserved_issue
      ++ match truthy folderId with
         | Some folderId =>
             when (negb (String.eqb name folderId)) (folder_issue name folderId)
         | None => []
         end
  end.

Definition description_issues (description : option string) : list ValidationIssue :=
  match truthy description with
  | None => [issue "description" error "Missing required field: description"]
  | Some description =>
      when (1024 <? String.length description)%nat (length_issue description)
      ++ when (XML_BRACKETS_RE description) description_brackets_issue
      ++ let lowerDesc := Str.toLowerCase description in
         let hasTrigger := existsb (Str.includes lowerDesc) triggerPhrases in
         when (negb hasTrigger) trigger_issue
  end.

(** The loop over [Object.entries(frontmatter)]. *)
Definition entry_issues (frontmatter : Frontmatter) : list ValidationIssue :=
  flat_map
    (λ kv, match kv with
           | (key, FString value) =>
               if String.eqb key "description" then []
               else when (XML_BRACKETS_RE value) (brackets_issue key)
           | (_, FList _) => []
           end)
    frontmatter.

Definition is_error (i : ValidationIssue) : bool :=
  bool_decide (severity i = error).

(** The casts of [name] and [description] are not checked. A list is
    truthy, so the branch of a value that is there is taken, and its first
    call of a string method that a list does not have throws:
    [name.startsWith], or [description.toLowerCase] when the name has let
    the code come that far. *)
Definition validateFrontmatter (frontmatter : Frontmatter) (folderId : option string)
  : Outcome ValidationResult :=
  match as_string (obj_get "name" frontmatter),
        as_string (obj_get "description" frontmatter) with
  | Some name, Some description =>
      let issues :=
        name_issues name folderId
        ++ description_issues description
        ++ entry_issues frontmatter
        ++ when (falsy (obj_get "category" frontmatter)) category_issue
        ++ when (falsy (obj_get "tags" frontmatter)) tags_issue in
      let hasErrors := existsb is_error issues in
      Returned {| valid := negb hasErrors; issues := issues |}
  | None, _ => Threw "name.startsWith is not a function"
  | Some _, None => Threw "description.toLowerCase is not a function"
  end.

(** ** catalog.ts: the templates *)

Record CatalogItem := {
  c_id : string;
  c_name : string;
  c_description : string;
  c_type : ContentType;
  c_category : option string;
  c_tags : option (list string);
  c_path : string;
  c_content : option string;
}.

Definition getContentFileName (type : ContentType) : string :=
  match type with
  | skills => "SKILL.md"
  | agents => "AGENT.md"
  | commands => "COMMAND.md"
  | rules => "RULE.md"
  | prompts => "PROMPT.md"
  end.

Fixpoint tree_lookup (entries : list (string * Tree)) (p : list string) : option Tree :=
  match p with
  | [] => Some (TDir entries)
  | seg :: rest =>
      match obj_get seg entries with
      | Some (TDir sub) => tree_lookup sub rest
      | Some (TFile c) => match rest with [] => Some (TFile c) | _ => None end
      | None => None
      end
  end.

Fixpoint drop_prefix (pre l : list string) : option (list string) :=
  match pre, l with
  | [], _ => Some l
  | a :: pre', b :: l' => if String.eqb a b then drop_prefix pre' l' else None
  | _ :: _, [] => None
  end.

Section Templates.
Context (env : Env).

Definition getItemFilePath (type : ContentType) (id : string) : string :=
  Path.join [templatesRoot env; ContentType_str type; id; getContentFileName type].

(** What is at a resolved path, when the path lies in the templates
    directory. *)
Definition template_at (p : Path.resolved) : option Tree :=
  rel ← drop_prefix (on_disk env (templatesRoot env)) p;
  tree_lookup (templates env) rel.

(** [fs.promises.readFile] of a template. *)
Definition readTemplate (p : Path.resolved) : M string :=
  match template_at p with
  | Some (TFile c) => ret c
  | Some (TDir _) => throw "EISDIR"
  | None => throw "ENOENT"
  end.

(** [fs.promises.readdir] of a templates directory. *)
Definition readdirTemplate (p : Path.resolved) : M (list (string * Tree)) :=
  match template_at p with
  | Some (TDir entries) => ret entries
  | Some (TFile _) => throw "ENOTDIR"
  | None => throw "ENOENT"
  end.

End Templates.

(** ** installer.ts *)

Record InstallResult := {
  r_success : bool;
  r_item : CatalogItem;
  r_assistant : option AssistantConfig;
  r_path : string;
  r_error : option string;
}.

Record InstallSummary := {
  total : nat;
  successful : nat;
  failed : nat;
  results : list InstallResult;
}.

(** *** The content hash *)

Definition base64_alphabet : string :=
  "ABCDEFGHIJKLMNOPQRSTUVWXYZabcdefghijklmnopqrstuvwxyz0123456789+/".

Definition base64_digit (n : N) : ascii :=
  default "="%char (String.get (N.to_nat (n mod 64)) base64_alphabet).

(** [Buffer.from(bytes).toString("base64")] *)
Fixpoint base64 (bytes : list N) : string :=
  match bytes with
  | [] => EmptyString
  | [a] =>
      let n := (a * 65536)%N in
      String (base64_digit (n / 262144)) (String (base64_digit (n / 4096)) "==")
  | [a; b] =>
      let n := (a * 65536 + b * 256)%N in
      String (base64_digit (n / 262144)) (String (base64_digit (n / 4096))
        (String (base64_digit (n / 64)) "="))
  | a :: b :: c :: rest =>
      let n := (a * 65536 + b * 256 + c)%N in
      String (base64_digit (n / 262144)) (String (base64_digit (n / 4096))
        (String (base64_digit (n / 64)) (String (base64_digit n) (base64 rest))))
  end.

(** A character code in a template string; [NaN] off the string. *)
Definition show_code (code : option nat) : string :=
  match code with
  | Some n => pretty n
  | None => "NaN"
  end.

(** The string [getContentHash] makes of the content it has read. *)
Definition content_hash (content : string) : string :=
  let hash :=
    pretty (String.length content) +:+ "-"
    +:+ show_code (Str.charCodeAt content 0) +:+ "-"
    +:+ show_code (Str.charCodeAt content (String.length content - 1)) in
  String.substring 0 12 (base64 (map N_of_ascii (Str.chars hash))).

Section Installer.
Context (env : Env).

Definition ensureDir (dir : Path.resolved) : M unit := Fs.mkdir_p dir.

(** [copyDir(src, dest)] below an existing source directory: [src] is
    what [readdir] and [copyFile] find there. [path.join(dest,
    entry.name)] names the entry [entry.name] of [dest]. *)
Fixpoint copyTree (src : Tree) (dest : Path.resolved) : M unit :=
  match src with
  | TFile content => Fs.writeFile dest (Text content)
  | TDir entries =>
      ensureDir dest ;;;
      (fix each (entries : list (string * Tree)) : M unit :=
         match entries with
         | [] => ret tt
         | (name, entry) :: rest => copyTree entry (dest ++ [name]) ;;; each rest
         end) entries
  end.

Definition copyDir (src dest : Path.resolved) : M unit :=
  match template_at env src with
  | Some (TDir entries) => copyTree (TDir entries) dest
  | _ =>
      ensureDir dest ;;;
      let! _ := readdirTemplate env src in
      ret tt
  end.

Definition getContentHash (filePath : string) : M string :=
  let! content := readTemplate env (on_disk env filePath) in
  ret (content_hash content).

Definition installToCanonical (item : CatalogItem) (scope : InstallScope)
    (projectRoot : string) : M string :=
  let canonicalPath :=
    getCanonicalPath env (c_type item) (c_id item) scope (Some projectRoot) in
  let sourceDir := Path.parent (on_disk env (getItemFilePath env (c_type item) (c_id item))) in
  copyDir sourceDir (on_disk env canonicalPath) ;;;
  ret canonicalPath.

Definition installToAi (item : CatalogItem) (scope : InstallScope)
    (projectRoot : string) : M (bool * string * option string) :=
  try_catch
    (let! canonicalItemPath := installToCanonical item scope projectRoot in
     ret (true, canonicalItemPath, None))
    (λ message, ret (false, EmptyString, Some message)).

(** [new Date().toISOString()] *)
Definition now : M string :=
  λ w, ({| nodes := nodes w; denied := denied w; ticks := S (ticks w);
           unreached := unreached w |},
        Returned (clock env (ticks w))).

(** The lock entry [installItems] writes for an item. *)
Definition installedItem (item : CatalogItem) (hash installedAt : string)
    (assistantIds : list string) (scope : InstallScope) : InstalledItem :=
  {| i_type := c_type item; i_id := c_id item; i_source := "builtin";
     i_hash := hash; i_installedAt := installedAt;
     i_assistants := assistantIds; i_scope := scope; i_method := symlink |}.

(** The loop of [installItems] over the items left, [results] being the
    results pushed so far. *)
Fixpoint installLoop (assistantIds : list string)
    (representative : option AssistantConfig) (scope : InstallScope)
    (projectRoot : string) (items : list CatalogItem) (results : list InstallResult)
  : M (list InstallResult) :=
  match items with
  | [] => ret results
  | item :: rest =>
      let! result := installToAi item scope projectRoot in
      let '(success, path, err) := result in
      let results :=
        results ++ [{| r_success := success; r_item := item;
                       r_assistant := representative; r_path := path;
                       r_error := err |}] in
      (if success then
         let! hash := getContentHash (getItemFilePath env (c_type item) (c_id item)) in
         let! installedAt := now in
         updateLockFile env (installedItem item hash installedAt assistantIds scope)
           scope (Some projectRoot)
       else ret tt) ;;;
      installLoop assistantIds representative scope projectRoot rest results
  end.

Definition installItems (items : list CatalogItem) (assistants : list AssistantConfig)
    (scope : InstallScope) (_method : InstallMethod) (projectRoot : option string)
  : M InstallSummary :=
  let projectRoot := default (cwd env) projectRoot in
  let assistantIds := map a_id assistants in
  let representative := head assistants in
  let! results := installLoop assistantIds representative scope projectRoot items [] in
  let successful := List.length (filter (λ r, r_success r = true) results) in
  ret {| total := List.length results; successful := successful;
         failed := List.length results - successful; results := results |}.

Definition uninstallItem (item : CatalogItem) (assistant : AssistantConfig)
    (scope : InstallScope) (projectRoot : option string) : M bool :=
  let projectRoot := default (cwd env) projectRoot in
  try_catch
    (let canonicalPath :=
       getCanonicalPath env (c_type item) (c_id item) scope (Some projectRoot) in
     Fs.rm_rf (on_disk env canonicalPath) ;;;
     ret true)
    (λ _, ret false).

Definition isItemInstalled (item : CatalogItem) (assistant : AssistantConfig)
    (scope : InstallScope) (projectRoot : option string) : M bool :=
  let projectRoot := default (cwd env) projectRoot in
  let canonicalPath :=
    getCanonicalPath env (c_type item) (c_id item) scope (Some projectRoot) in
  try_catch (Fs.access (on_disk env canonicalPath) ;;; ret true) (λ _, ret false).

End Installer.

(** ** bridge.ts *)

Record BridgeFile := {
  editorId : string;
  filePath : string;
  b_content : string;
  b_description : string;
}.

Section Bridge.
Context (env : Env).

(** Where a bridge file goes on the disk. *)
Definition bridge_target (projectRoot : string) (file : BridgeFile) : Path.resolved :=
  on_disk env (Path.join [projectRoot; filePath file]).

(** The body of the loop of [writeBridgeFiles] for one file: [false] when
    the file is there already and is skipped, [true] when it has been
    written. *)
Definition writeBridgeFile (projectRoot : string) (overwrite : bool)
    (file : BridgeFile) : M bool :=
  let fullPath := bridge_target projectRoot file in
  let! present :=
    if overwrite then ret false
    else try_catch (Fs.access fullPath ;;; ret true) (λ _, ret false) in
  if (present : bool) then ret false
  else
    Fs.mkdir_p (Path.parent fullPath) ;;;
    Fs.writeFile fullPath (Text (b_content file)) ;;;
    ret true.

Fixpoint writeBridgeLoop (projectRoot : string) (overwrite : bool)
    (files : list BridgeFile) (written skipped : list string)
  : M (list string * list string) :=
  match files with
  | [] => ret (written, skipped)
  | file :: rest =>
      let! wrote := writeBridgeFile projectRoot overwrite file in
      if (wrote : bool) then
        writeBridgeLoop projectRoot overwrite rest (written ++ [filePath file]) skipped
      else
        writeBridgeLoop projectRoot overwrite rest written (skipped ++ [filePath file])
  end.

Definition writeBridgeFiles (files : list BridgeFile) (projectRoot : option string)
    (overwrite : option bool) : M (list string * list string) :=
  let projectRoot := default (cwd env) projectRoot in
  let overwrite := default false overwrite in
  writeBridgeLoop projectRoot overwrite files [] [].

End Bridge.

(** ** lock.ts: the timestamp, the preferences, clearing *)

Definition with_lastUpdateCheck (stamp : option string) (l : LockFile) : LockFile :=
  {| version := version l; lastUpdateCheck := stamp;
     installed := installed l; preferences := preferences l |}.

Definition with_preferences (prefs : option Preferences) (l : LockFile) : LockFile :=
  {| version := version l; lastUpdateCheck := lastUpdateCheck l;
     installed := installed l; preferences := prefs |}.

(** An optional property of an object handed to a function: left out,
    there with the value [undefined], or there with a value. *)
Inductive Property (A : Type) :=
  | Omitted
  | Undefined
  | Given (a : A).
Arguments Omitted {A}.
Arguments Undefined {A}.
Arguments Given {A} a.

(** The argument of [savePreferences]. *)
Record PreferencesArg := {
  arg_defaultAssistants : Property (list string);
  arg_defaultScope : Property InstallScope;
  arg_defaultMethod : Property InstallMethod;
}.

(** One property of [{ ...existing, ...arg }], as [JSON.stringify] then
    writes it: a property that is [undefined] is not written. *)
Definition spread {A} (existing : option A) (arg : Property A) : option A :=
  match arg with
  | Omitted => existing
  | Undefined => None
  | Given a => Some a
  end.

(** [{ ...lockFile.preferences, ...preferences }]: always an object. *)
Definition merged_preferences (existing : option Preferences)
    (arg : option PreferencesArg) : Preferences :=
  let arg :=
    default {| arg_defaultAssistants := Omitted; arg_defaultScope := Omitted;
               arg_defaultMethod := Omitted |} arg in
  {| defaultAssistants :=
       spread (existing ≫= defaultAssistants) (arg_defaultAssistants arg);
     defaultScope := spread (existing ≫= defaultScope) (arg_defaultScope arg);
     defaultMethod := spread (existing ≫= defaultMethod) (arg_defaultMethod arg) |}.

Section LockMore.
Context (env : Env).

Definition updateLastCheck (scope : InstallScope) (projectRoot : option string) : M unit :=
  let! doc := readLockFile env scope projectRoot in
  let! lockFile := cast (LockFile_of_json doc) in
  let! stamp := now env in
  writeLockFile env (with_lastUpdateCheck (Some stamp) lockFile) scope projectRoot.

Definition savePreferences (arg : option PreferencesArg) (scope : InstallScope)
    (projectRoot : option string) : M unit :=
  let! doc := readLockFile env scope projectRoot in
  let! lockFile := cast (LockFile_of_json doc) in
  writeLockFile env
    (with_preferences (Some (merged_preferences (preferences lockFile) arg)) lockFile)
    scope projectRoot.

Definition getPreferences (scope : InstallScope) (projectRoot : option string)
  : M (option Preferences) :=
  let! doc := readLockFile env scope projectRoot in
  let! lockFile := cast (LockFile_of_json doc) in
  ret (preferences lockFile).

Definition checkForUpdates (scope : InstallScope) (projectRoot : option string)
  : M (list InstalledItem) :=
  ret [].

Definition clearLockFile (scope : InstallScope) (projectRoot : option string) : M unit :=
  let lockPath := getLockFilePath env scope projectRoot in
  try_catch (Fs.unlink (on_disk env lockPath)) (λ _, ret tt).

End LockMore.

(** ** catalog.ts: reading frontmatter *)

(** A line feed. *)
Definition nl : string := String (ascii_of_nat 10) EmptyString.

Definition is_quote (c : ascii) : bool :=
  Ascii.eqb c (ascii_of_nat 34) || Ascii.eqb c "'".

Fixpoint drop_last_quote (s : string) : string :=
  match s with
  | EmptyString => EmptyString
  | String c EmptyString => if is_quote c then EmptyString else s
  | String c rest => String c (drop_last_quote rest)
  end.

(** The [replace] of the array items: a single or double quote that
    starts the string goes, and so does one that ends what is left. *)
Definition strip_quotes (s : string) : string :=
  drop_last_quote
    match s with
    | String c rest => if is_quote c then rest else s
    | EmptyString => EmptyString
    end.

(** The value of a line: quotes around it are removed, and what then
    stands in brackets is a list. *)
Definition parse_value (raw : string) : FValue :=
  let value :=
    if Str.startsWith raw dq && Str.endsWith raw dq then Str.inner raw else raw in
  if Str.startsWith value "[" && Str.endsWith value "]" then
    FList (map (λ s, strip_quotes (trim s)) (Str.split "," (Str.inner value)))
  else FString value.

(** The number a key stands for when it is an array index: a decimal
    numeral in its shortest form, below [2^32 - 1]. *)
Definition digit_value (c : ascii) : option N :=
  let n := N_of_ascii c in
  if (48 <=? n)%N && (n <=? 57)%N then Some (n - 48)%N else None.

Fixpoint digits_value (acc : N) (s : string) : option N :=
  match s with
  | EmptyString => Some acc
  | String c rest => d ← digit_value c; digits_value (10 * acc + d)%N rest
  end.

Definition array_index (key : string) : option N :=
  match key with
  | EmptyString => None
  | String "0" EmptyString => Some 0%N
  | String "0" _ => None
  | _ => n ← digits_value 0 key; if (n <? 4294967295)%N then Some n else None
  end.

(** The place of a new array index among the keys of an object: after
    the smaller array indices, before every other key. *)
Fixpoint insert_index {V} (n : N) (key : string) (value : V) (o : list (string * V))
  : list (string * V) :=
  match o with
  | [] => [(key, value)]
  | (k, v) :: rest =>
      match array_index k with
      | Some m =>
          if (m <? n)%N then (k, v) :: insert_index n key value rest
          else (key, value) :: o
      | None => (key, value) :: o
      end
  end.

(** [frontmatter[key] = value] on an object literal, the list being the
    properties of the object in the order [Object.entries] gives them:
    array indices first, in ascending order, then the other keys in the
    order of their creation. Assigning to [__proto__] adds no property of
    the object. *)
Definition record_set {V} (key : string) (value : V) (o : list (string * V))
  : list (string * V) :=
  if String.eqb key "__proto__" then o
  else
    match obj_get key o, array_index key with
    | None, Some n => insert_index n key value o
    | _, _ => obj_set key value o
    end.

(** The body of the loop over the lines. *)
Definition parse_line (frontmatter : Frontmatter) (line : string) : Frontmatter :=
  match Str.indexOf line ":" with
  | Some (S before) =>
      let colonIndex := S before in
      let key := trim (Str.take colonIndex line) in
      let value := parse_value (trim (Str.drop (colonIndex + 1) line)) in
      record_set key value frontmatter
  | _ => frontmatter
  end.

Definition FENCE_OPEN : string := "---" +:+ nl.
Definition FENCE_CLOSE : string := nl +:+ "---" +:+ nl.

(** The match of the pattern of [parseFrontmatter]: an opening fence at
    the start, the shortest text up to a closing fence (the group is
    lazy), and all that follows it. The result is the text between the
    fences and the text after them. *)
Definition match_frontmatter (content : string) : option (string * string) :=
  if Str.startsWith content FENCE_OPEN then
    let rest := Str.drop (String.length FENCE_OPEN) content in
    i ← Str.indexOf rest FENCE_CLOSE;
    Some (Str.take i rest, Str.drop (i + String.length FENCE_CLOSE) rest)
  else None.

Definition parseFrontmatter (content : string) : Frontmatter * string :=
  match match_frontmatter content with
  | None => ([], content)
  | Some (yaml, body) =>
      (fold_left parse_line (Str.split (ascii_of_nat 10) yaml) [], body)
  end.

(** ** catalog.ts: loading and searching *)

(** [frontmatter.tags as string[] | undefined] *)
Definition as_strings (v : option FValue) : option (option (list string)) :=
  match v with
  | None => Some None
  | Some (FList items) => Some (Some items)
  | Some (FString _) => None
  end.

(** The object [loadCatalogItem] builds. Its type says [CatalogItem], but
    the values of the frontmatter are cast without a check: [name],
    [description], [category] and [tags] hold what the frontmatter holds,
    a string or a list. *)
Record LoadedItem := {
  l_id : string;
  l_name : FValue;
  l_description : FValue;
  l_type : ContentType;
  l_category : option FValue;
  l_tags : option FValue;
  l_path : string;
  l_content : string;
}.

(** [v || d] *)
Definition or_else (v : option FValue) (d : string) : FValue :=
  match v with
  | Some value => if falsy v then FString d else value
  | None => FString d
  end.

(** The loaded object as a [CatalogItem], when its values are of the
    types [CatalogItem] gives them. *)
Definition CatalogItem_of_loaded (l : LoadedItem) : option CatalogItem :=
  name ← as_string (Some (l_name l)) ≫= id;
  description ← as_string (Some (l_description l)) ≫= id;
  category ← as_string (l_category l);
  tags ← as_strings (l_tags l);
  Some {| c_id := l_id l; c_name := name; c_description := description;
          c_type := l_type l; c_category := category; c_tags := tags;
          c_path := l_path l; c_content := Some (l_content l) |}.

Section Catalog.
Context (env : Env).

(** [fs.promises.access] of a template. *)
Definition accessTemplate (p : Path.resolved) : M unit :=
  match template_at env p with
  | Some _ => ret tt
  | None => throw "ENOENT"
  end.

Definition loadCatalogItem (type : ContentType) (id : string) : M (option LoadedItem) :=
  let templatesRoot := templatesRoot env in
  let itemDir := Path.join [templatesRoot; ContentType_str type; id] in
  let fileName := getContentFileName type in
  let filePath := Path.join [itemDir; fileName] in
  try_catch
    (let! content := readTemplate env (on_disk env filePath) in
     let frontmatter := (parseFrontmatter content).1 in
     ret (Some {| l_id := id;
                  l_name := or_else (obj_get "name" frontmatter) id;
                  l_description := or_else (obj_get "description" frontmatter) EmptyString;
                  l_type := type;
                  l_category := obj_get "category" frontmatter;
                  l_tags := obj_get "tags" frontmatter;
                  l_path := Path.relative (cwd env) templatesRoot itemDir;
                  l_content := content |}))
    (λ _, ret None).

Definition getItemContent (type : ContentType) (id : string) : M (option string) :=
  let! item := loadCatalogItem type id in
  ret (truthy (l_content <$> item)).

Definition itemExists (type : ContentType) (id : string) : M bool :=
  let filePath := getItemFilePath env type id in
  try_catch (accessTemplate (on_disk env filePath) ;;; ret true) (λ _, ret false).

End Catalog.



(** ** bridge.ts: generating bridge files *)

(** The names every object inherits from [Object.prototype]. *)
Definition Object_prototype : list string :=
  ["constructor"; "__proto__"; "hasOwnProperty"; "isPrototypeOf";
   "propertyIsEnumerable"; "toLocaleString"; "toString"; "valueOf";
   "__defineGetter__"; "__defineSetter__"; "__lookupGetter__"; "__lookupSetter__"].

(** [table[key]] for a table written as an object literal. The outer
    [None]: [key] names an inherited property, whose value is not of the
    type of the table. *)
Definition record_get {V} (table : list (string * V)) (key : string)
  : option (option V) :=
  match obj_get key table with
  | Some v => Some (Some v)
  | None => if bool_decide (key ∈ Object_prototype) then None else Some None
  end.

Definition DIR_DESCRIPTIONS : list (string * string) :=
  [ ("skills", "Coding best practices, patterns, and playbooks");
    ("rules", "Hard constraints and conventions (always follow these)");
    ("agents", "Specialized AI personas for specific tasks");
    ("commands", "Reusable command templates and macros");
    ("prompts", "Pre-built prompt templates");
    ("context", "Project context, architecture, and domain knowledge") ].

(** [descriptions[dir] || dir]; [None] when that is not a string. *)
Definition getDirDescription (dir : string) : option string :=
  found ← record_get DIR_DESCRIPTIONS dir;
  Some (default dir (truthy found)).

(** The dash of the bridge files, as the bytes written for it. *)
Definition DASH : string := "—".

(** [lines.join(sep)] *)
Definition join_lines (sep : string) (lines : list string) : string :=
  String.concat sep lines.

Definition buildDirectorySection (dirs : list string) : option string :=
  if decide (List.length dirs = 0) then Some EmptyString
  else
    lines ← mapM (λ d, description ← getDirDescription d;
                       Some ("- `.ai/" +:+ d +:+ "/` " +:+ DASH +:+ " " +:+ description))
                 dirs;
    Some (nl +:+ "## AI Configuration" +:+ nl +:+ nl
          +:+ "This project uses `.ai/` as the single source of truth for AI behavior."
          +:+ nl +:+ "Always read and follow the guidelines in:" +:+ nl +:+ nl
          +:+ join_lines nl lines +:+ nl).

(** [if (b) sections.push(s)] *)
Definition push_when (b : bool) (s : string) : list string :=
  if b then [s] else [].

(** [dirs.includes(d)] *)
Definition includes_dir (dirs : list string) (d : string) : bool :=
  bool_decide (d ∈ dirs).

Definition buildCoreInstructions (dirs : list string) : string :=
  let sections :=
    push_when (includes_dir dirs "rules")
      ("Before writing any code, read all files in `.ai/rules/`. These are hard constraints "
       +:+ DASH +:+ " never violate them.")
    ++ push_when (includes_dir dirs "skills")
      "When working on code, check `.ai/skills/` for relevant guidelines. Apply matching skill files to your work."
    ++ push_when (includes_dir dirs "context")
      "For project context (architecture, conventions, domain), consult `.ai/context/`."
    ++ push_when (includes_dir dirs "commands")
      "Reusable command templates are in `.ai/commands/`. Use them when the user references a command by name." in
  if decide (List.length sections = 0) then EmptyString
  else nl +:+ "## Instructions" +:+ nl +:+ nl +:+ join_lines (nl +:+ nl) sections +:+ nl.

(** A bridge file whose content is [heading], a line feed, and the two
    blocks. *)
Definition bridge (editorId filePath description heading : string) (dirs : list string)
  : option BridgeFile :=
  directories ← buildDirectorySection dirs;
  Some {| editorId := editorId; filePath := filePath; b_description := description;
          b_content := heading +:+ nl +:+ directories +:+ buildCoreInstructions dirs |}.

Definition claudeBridge : list string → option BridgeFile :=
  bridge "claude" "CLAUDE.md" "Claude Code context file" "# CLAUDE.md".

Definition cursorBridge : list string → option BridgeFile :=
  bridge "cursor" ".cursor/rules/ai-config.mdc" "Cursor rules file"
    ("---" +:+ nl +:+ "description: AI configuration " +:+ DASH
     +:+ " read .ai/ for all guidelines" +:+ nl +:+ "globs:" +:+ nl
     +:+ "alwaysApply: true" +:+ nl +:+ "---").

Definition copilotBridge : list string → option BridgeFile :=
  bridge "copilot" ".github/copilot-instructions.md" "GitHub Copilot instructions"
    "# Copilot Instructions".

Definition geminiBridge : list string → option BridgeFile :=
  bridge "gemini" "GEMINI.md" "Gemini CLI context file" "# GEMINI.md".

Definition windsurfBridge : list string → option BridgeFile :=
  bridge "windsurf" ".windsurfrules" "Windsurf rules file" "# Windsurf Rules".

Definition agentsBridge : list string → option BridgeFile :=
  bridge "universal" "AGENTS.md"
    "Universal agents context file (Codex, Amp, OpenCode, etc.)" "# AGENTS.md".

Definition BRIDGE_GENERATORS : list (string * (list string → option BridgeFile)) :=
  [ ("claude", claudeBridge); ("cursor", cursorBridge); ("copilot", copilotBridge);
    ("gemini", geminiBridge); ("windsurf", windsurfBridge); ("universal", agentsBridge) ].

Definition ASSISTANT_TO_BRIDGE : list (string * string) :=
  [ ("claude", "claude"); ("cursor", "cursor"); ("copilot", "copilot");
    ("gemini", "gemini"); ("antigravity", "gemini"); ("windsurf", "windsurf");
    ("codex", "universal"); ("amp", "universal"); ("opencode", "universal");
    ("cline", "universal"); ("roo", "universal"); ("continue", "universal");
    ("goose", "universal"); ("kiro", "universal"); ("trae", "universal");
    ("augment", "universal"); ("droid", "universal"); ("kilo", "universal") ].

Definition getAvailableBridgeTypes : list string := obj_keys BRIDGE_GENERATORS.

Section BridgeFiles.
Context (env : Env).

(** One of the checks of [getExistingDirs]: is [aiDir/name] a
    directory? A path that cannot be examined counts as missing. *)
Definition existingDir (aiDir name : string) : M bool :=
  try_catch
    (let! stats := Fs.stat (on_disk env (Path.join [aiDir; name])) in
     ret (isDirectory stats))
    (λ _, ret false).

Fixpoint existingLoop (aiDir : string) (names existing : list string) : M (list string) :=
  match names with
  | [] => ret existing
  | name :: rest =>
      let! there := existingDir aiDir name in
      existingLoop aiDir rest (if (there : bool) then existing ++ [name] else existing)
  end.

Definition getExistingDirs (projectRoot : string) : M (list string) :=
  let aiDir := Path.join [projectRoot; CANONICAL_DIR] in
  let types := map ContentType_str [skills; rules; agents; commands; prompts] in
  let! existing := existingLoop aiDir types [] in
  existingLoop aiDir ["context"] existing.

(** The bridge keys of the assistants, each once, in the order they come
    up. An identifier that is not in the table, or that names an
    inherited property (whose value no generator is registered under),
    adds no bridge file. *)
Definition bridgeKeys (assistants : list AssistantConfig) : list string :=
  Set_add
    (fold_left
       (λ keys assistant,
          match obj_get (a_id assistant) ASSISTANT_TO_BRIDGE with
          | Some key => Set_add keys key
          | None => keys
          end)
       assistants [])
    "universal".

Definition generateBridgeFiles (assistants : list AssistantConfig)
    (projectRoot : option string) : M (list BridgeFile) :=
  let projectRoot := default (cwd env) projectRoot in
  let! existing := getExistingDirs projectRoot in
  let dirs :=
    if decide (List.length existing = 0) then existing ++ ["skills"; "rules"]
    else existing in
  let generators := omap (λ key, obj_get key BRIDGE_GENERATORS) (bridgeKeys assistants) in
  cast (mapM (λ generator, generator dirs) generators).

End BridgeFiles.

(** ** agents.ts: the registry *)

Section Registry.
Context (env : Env).
(** [process.env.XDG_CONFIG_HOME] and [process.env.CODEX_HOME]. *)
Context (XDG_CONFIG_HOME CODEX_HOME : option string).

Definition configHome : string :=
  default (Path.join [home env; ".config"]) (truthy XDG_CONFIG_HOME).

Definition codexHome : string :=
  default (Path.join [home env; ".codex"]) (truthy (trim <$> CODEX_HOME)).

Definition copilot : AssistantConfig :=
  {| a_name := "GitHub Copilot";
     a_id := "copilot";
     a_description := "GitHub's AI pair programmer for VS Code, JetBrains, and more";
     a_paths := λ t,
       match t with
       | skills => Some ".ai/skills"
       | agents => Some ".github/agents"
       | prompts => Some ".github/prompts"
       | _ => None
       end;
     a_globalPaths := λ t,
       match t with
       | skills => Some (Path.join [home env; ".copilot"; "skills"])
       | agents => Some (Path.join [home env; ".copilot"; "agents"])
       | prompts => Some (Path.join [home env; ".copilot"; "prompts"])
       | _ => None
       end;
     a_fileExtension := None;
     a_isUniversal := Some true;
     a_contextFile := Some "AGENTS.md" |}.

Definition windsurf : AssistantConfig :=
  {| a_name := "Windsurf";
     a_id := "windsurf";
     a_description := "Codeium's AI-powered IDE (formerly Codeium Editor)";
     a_paths := λ t,
       match t with
       | skills => Some ".windsurf/skills"
       | rules => Some ".windsurf/rules"
       | _ => None
       end;
     a_globalPaths := λ t,
       match t with
       | skills => Some (Path.join [home env; ".codeium"; "windsurf"; "skills"])
       | rules => Some (Path.join [home env; ".codeium"; "windsurf"; "rules"])
       | _ => None
       end;
     a_fileExtension := None;
     a_isUniversal := None;
     a_contextFile := None |}.

Definition gemini : AssistantConfig :=
  {| a_name := "Gemini CLI";
     a_id := "gemini";
     a_description := "Google's Gemini AI command-line interface";
     a_paths := λ t,
       match t with
       | skills => Some ".ai/skills"
       | _ => None
       end;
     a_globalPaths := λ t,
       match t with
       | skills => Some (Path.join [home env; ".gemini"; "skills"])
       | _ => None
       end;
     a_fileExtension := None;
     a_isUniversal := Some true;
     a_contextFile := Some "GEMINI.md" |}.

Definition antigravity : AssistantConfig :=
  {| a_name := "Antigravity";
     a_id := "antigravity";
     a_description := "Google's Antigravity AI coding assistant";
     a_paths := λ t,
       match t with
       | skills => Some ".ai/skills"
       | agents => Some ".ai/agents"
       | _ => None
       end;
     a_globalPaths := λ t,
       match t with
       | skills => Some (Path.join [home env; ".gemini"; "antigravity"; "skills"])
       | agents => Some (Path.join [home env; ".gemini"; "antigravity"; "agents"])
       | _ => None
       end;
     a_fileExtension := None;
     a_isUniversal := Some true;
     a_contextFile := None |}.

Definition codex : AssistantConfig :=
  {| a_name := "Codex";
     a_id := "codex";
     a_description := "OpenAI Codex CLI assistant";
     a_paths := λ t,
       match t with
       | skills => Some ".ai/skills"
       | agents => Some ".ai/agents"
       | _ => None
       end;
     a_globalPaths := λ t,
       match t with
       | skills => Some (Path.join [codexHome; "skills"])
       | agents => Some (Path.join [codexHome; "agents"])
       | _ => None
       end;
     a_fileExtension := None;
     a_isUniversal := Some true;
     a_contextFile := Some "AGENTS.md" |}.

Definition amp : AssistantConfig :=
  {| a_name := "Amp";
     a_id := "amp";
     a_description := "Sourcegraph's Amp AI coding agent";
     a_paths := λ t,
       match t with
       | skills => Some ".ai/skills"
       | _ => None
       end;
     a_globalPaths := λ t,
       match t with
       | skills => Some (Path.join [configHome; "agents"; "skills"])
       | _ => None
       end;
     a_fileExtension := None;
     a_isUniversal := Some true;
     a_contextFile := None |}.

Definition cline : AssistantConfig :=
  {| a_name := "Cline";
     a_id := "cline";
     a_description := "Autonomous AI coding agent for VS Code";
     a_paths := λ t,
       match t with
       | skills => Some ".cline/skills"
       | rules => Some ".cline/rules"
       | _ => None
       end;
     a_globalPaths := λ t,
       match t with
       | skills => Some (Path.join [home env; ".cline"; "skills"])
       | rules => Some (Path.join [home env; ".cline"; "rules"])
       | _ => None
       end;
     a_fileExtension := None;
     a_isUniversal := None;
     a_contextFile := None |}.

Definition roo : AssistantConfig :=
  {| a_name := "Roo Code";
     a_id := "roo";
     a_description := "AI coding assistant for VS Code (fork of Cline)";
     a_paths := λ t,
       match t with
       | skills => Some ".roo/skills"
       | rules => Some ".roo/rules"
       | _ => None
       end;
     a_globalPaths := λ t,
       match t with
       | skills => Some (Path.join [home env; ".roo"; "skills"])
       | rules => Some (Path.join [home env; ".roo"; "rules"])
       | _ => None
       end;
     a_fileExtension := None;
     a_isUniversal := None;
     a_contextFile := None |}.

Definition continue : AssistantConfig :=
  {| a_name := "Continue";
     a_id := "continue";
     a_description := "Open-source AI code assistant for VS Code and JetBrains";
     a_paths := λ t,
       match t with
       | skills => Some ".continue/skills"
       | rules => Some ".continue/rules"
       | _ => None
       end;
     a_globalPaths := λ t,
       match t with
       | skills => Some (Path.join [home env; ".continue"; "skills"])
       | rules => Some (Path.join [home env; ".continue"; "rules"])
       | _ => None
       end;
     a_fileExtension := None;
     a_isUniversal := None;
     a_contextFile := None |}.

Definition goose : AssistantConfig :=
  {| a_name := "Goose";
     a_id := "goose";
     a_description := "Block's open-source AI developer agent";
     a_paths := λ t,
       match t with
       | skills => Some ".goose/skills"
       | _ => None
       end;
     a_globalPaths := λ t,
       match t with
       | skills => Some (Path.join [configHome; "goose"; "skills"])
       | _ => None
       end;
     a_fileExtension := None;
     a_isUniversal := None;
     a_contextFile := None |}.

Definition opencode : AssistantConfig :=
  {| a_name := "OpenCode";
     a_id := "opencode";
     a_description := "Open-source AI coding assistant (terminal-based)";
     a_paths := λ t,
       match t with
       | skills => Some ".ai/skills"
       | _ => None
       end;
     a_globalPaths := λ t,
       match t with
       | skills => Some (Path.join [configHome; "opencode"; "skills"])
       | _ => None
       end;
     a_fileExtension := None;
     a_isUniversal := Some true;
     a_contextFile := None |}.

Definition kiro : AssistantConfig :=
  {| a_name := "Kiro";
     a_id := "kiro";
     a_description := "AWS Kiro AI assistant with spec-driven development";
     a_paths := λ t,
       match t with
       | skills => Some ".kiro/skills"
       | rules => Some ".kiro/rules"
       | _ => None
       end;
     a_globalPaths := λ t,
       match t with
       | skills => Some (Path.join [home env; ".kiro"; "skills"])
       | rules => Some (Path.join [home env; ".kiro"; "rules"])
       | _ => None
       end;
     a_fileExtension := None;
     a_isUniversal := None;
     a_contextFile := None |}.

Definition trae : AssistantConfig :=
  {| a_name := "Trae";
     a_id := "trae";
     a_description := "ByteDance's Trae AI coding assistant";
     a_paths := λ t,
       match t with
       | skills => Some ".trae/skills"
       | rules => Some ".trae/rules"
       | _ => None
       end;
     a_globalPaths := λ t,
       match t with
       | skills => Some (Path.join [home env; ".trae"; "skills"])
       | rules => Some (Path.join [home env; ".trae"; "rules"])
       | _ => None
       end;
     a_fileExtension := None;
     a_isUniversal := None;
     a_contextFile := None |}.

Definition augment : AssistantConfig :=
  {| a_name := "Augment";
     a_id := "augment";
     a_description := "Augment Code AI development platform";
     a_paths := λ t,
       match t with
       | skills => Some ".augment/skills"
       | _ => None
       end;
     a_globalPaths := λ t,
       match t with
       | skills => Some (Path.join [home env; ".augment"; "skills"])
       | _ => None
       end;
     a_fileExtension := None;
     a_isUniversal := None;
     a_contextFile := None |}.

Definition droid : AssistantConfig :=
  {| a_name := "Droid";
     a_id := "droid";
     a_description := "Droid AI coding agent (Factory)";
     a_paths := λ t,
       match t with
       | skills => Some ".factory/skills"
       | _ => None
       end;
     a_globalPaths := λ t,
       match t with
       | skills => Some (Path.join [home env; ".factory"; "skills"])
       | _ => None
       end;
     a_fileExtension := None;
     a_isUniversal := None;
     a_contextFile := None |}.

Definition kilo : AssistantConfig :=
  {| a_name := "Kilo Code";
     a_id := "kilo";
     a_description := "Kilo Code AI assistant for VS Code";
     a_paths := λ t,
       match t with
       | skills => Some ".kilocode/skills"
       | _ => None
       end;
     a_globalPaths := λ t,
       match t with
       | skills => Some (Path.join [home env; ".kilocode"; "skills"])
       | _ => None
       end;
     a_fileExtension := None;
     a_isUniversal := None;
     a_contextFile := None |}.

Definition assistants : list AssistantConfig :=
  [ claude env; copilot; cursor env; windsurf; gemini; antigravity; codex; amp;
    cline; roo; continue; goose; opencode; kiro; trae; augment; droid; kilo ].

Definition getAllAssistants : list AssistantConfig := assistants.

(** [assistants.find((a) => a.id === id)] *)
Definition getAssistant (id : string) : option AssistantConfig :=
  head (filter (λ a, a_id a = id) assistants).

Definition getAssistantsForContentType (contentType : ContentType)
  : list AssistantConfig :=
  filter (λ a, is_Some (a_paths a contentType)) assistants.

End Registry.

Definition getAllContentTypes : list ContentType :=
  [skills; agents; commands; rules; prompts].

Definition getContentTypeDisplayName (contentType : ContentType) : string :=
  match contentType with
  | skills => "Skills"
  | agents => "Agents"
  | commands => "Commands"
  | rules => "Rules"
  | prompts => "Prompts"
  end.

(** ** A small machine for the examples *)

Definition demo_skill : string :=
  "---
name: foo
description: Does X. Use when Y.
---
# Foo
".

Definition demo_env : Env :=
  {| homedir := "/home/u";
     cwd := "/work";
     CLAUDE_CONFIG_DIR := None;
     templatesRoot := "/pkg/templates";
     templates :=
       [("skills", TDir [("foo", TDir [("SKILL.md", TFile demo_skill);
                                       ("notes", TDir [("a.md", TFile "a")])])])];
     clock := λ n, "2026-01-01T00:00:0" +:+ pretty n +:+ ".000Z" |}.

Definition empty_world : World :=
  {| nodes := ∅; denied := ∅; ticks := 0; unreached := ∅ |}.

(** * Properties *)

(** ** Path resolution (agents.ts) *)

(** C1. With scope [global] and a project root supplied,
    [getCanonicalPath] does not return [<home>/.ai/<type>/<id>]: it joins
    the home-based directory under the project root. On a machine with
    home [/home/u], [getCanonicalPath("skills", "foo", "global", "/repo")]
    is [/repo/home/u/.ai/skills/foo]; without a project root it is
    [/home/u/.ai/skills/foo], and the project-scope example of the
    specification holds. *)
Theorem getCanonicalPath_global_under_project_root :
  getCanonicalPath demo_env skills "foo" global (Some "/repo")
    = "/repo/home/u/.ai/skills/foo"
  ∧ getCanonicalPath demo_env skills "foo" global None = "/home/u/.ai/skills/foo"
  ∧ getCanonicalPath demo_env skills "foo" project (Some "/repo")
    = "/repo/.ai/skills/foo".
Proof.
  unfold getCanonicalPath, home, CANONICAL_DIR; simpl truthy.
  repeat split; vm_compute; reflexivity.
Qed.

(** The lock file of the global scope, by contrast, is under the home
    directory whatever the project root. *)
Lemma getLockFilePath_global env root :
  getLockFilePath env global root = Path.join [homedir env; ".ai"; ".skill-lock.json"].
Proof. reflexivity. Qed.

(** C9, as the code has it. [getContentPath] with scope [global] returns
    [assistant.globalPaths[type]] as it is. With scope [project] it
    returns nothing when [assistant.paths[type]] is missing (or empty),
    [assistant.paths[type]] joined under the project root when one is
    supplied, and [assistant.paths[type]] itself, a relative path, when
    the project root is omitted (or empty): the working directory is not
    joined in. *)
Theorem getContentPath_cases (assistant : AssistantConfig) (type : ContentType)
    (projectRoot : option string) :
  getContentPath assistant type global projectRoot = a_globalPaths assistant type
  ∧ getContentPath assistant type project projectRoot
    = match truthy (a_paths assistant type), truthy projectRoot with
      | None, _ => None
      | Some relativePath, Some root => Some (Path.join [root; relativePath])
      | Some relativePath, None => Some relativePath
      end.
Proof.
  split; [reflexivity|].
  unfold getContentPath.
  destruct (truthy (a_paths assistant type)) as [rel|]; [|reflexivity].
  destruct (truthy projectRoot); reflexivity.
Qed.

(** C9 as stated fails where the project root is omitted: for Claude Code
    and skills the result is [.claude/skills], whereas the path joined
    under the working directory [/work] is [/work/.claude/skills]. *)
Lemma getContentPath_omitted_root_is_relative :
  getContentPath (claude demo_env) skills project None = Some ".claude/skills"
  ∧ Path.join [cwd demo_env; ".claude/skills"] = "/work/.claude/skills".
Proof. split; vm_compute; reflexivity. Qed.

(** ** The content hash (installer.ts) *)

Lemma getContentHash_reads env filePath content w :
  readTemplate env (on_disk env filePath) w = (w, Returned content) →
  getContentHash env filePath w = (w, Returned (content_hash content)).
Proof.
  intros Hread. unfold getContentHash, bind. rewrite Hread. reflexivity.
Qed.

(** C10. The hash [getContentHash] returns, which [installItems] stores in
    the lock entry, depends on the content only through its length and
    the codes of its first and last characters: two templates that agree
    on the three get the same hash. *)
Theorem getContentHash_three_numbers env1 env2 filePath w (content1 content2 : string) :
  readTemplate env1 (on_disk env1 filePath) w = (w, Returned content1) →
  readTemplate env2 (on_disk env2 filePath) w = (w, Returned content2) →
  String.length content1 = String.length content2 →
  Str.charCodeAt content1 0 = Str.charCodeAt content2 0 →
  Str.charCodeAt content1 (String.length content1 - 1)
    = Str.charCodeAt content2 (String.length content2 - 1) →
  ∃ hash,
    getContentHash env1 filePath w = (w, Returned hash)
    ∧ getContentHash env2 filePath w = (w, Returned hash).
Proof.
  intros Hread1 Hread2 Hlen Hfirst Hlast.
  exists (content_hash content1). split.
  - by apply getContentHash_reads.
  - rewrite (getContentHash_reads _ _ _ _ Hread2).
    unfold content_hash. rewrite Hlast, Hfirst, Hlen. reflexivity.
Qed.

(** Two templates with different contents and the same hash. *)
Definition env_with_skill (content : string) : Env :=
  {| homedir := "/home/u"; cwd := "/work"; CLAUDE_CONFIG_DIR := None;
     templatesRoot := "/pkg/templates";
     templates := [("skills", TDir [("foo", TDir [("SKILL.md", TFile content)])])];
     clock := clock demo_env |}.

Lemma getContentHash_three_numbers_witness :
  ∃ hash,
    getContentHash (env_with_skill "# Foo: use for X") "/pkg/templates/skills/foo/SKILL.md"
      empty_world = (empty_world, Returned hash)
    ∧ getContentHash (env_with_skill "# Bar: use for X") "/pkg/templates/skills/foo/SKILL.md"
      empty_world = (empty_world, Returned hash).
Proof.
  apply (getContentHash_three_numbers
           (env_with_skill "# Foo: use for X") (env_with_skill "# Bar: use for X")
           "/pkg/templates/skills/foo/SKILL.md" empty_world
           "# Foo: use for X" "# Bar: use for X");
    vm_compute; reflexivity.
Defined.

(** ** Frontmatter validation (catalog.ts) *)

Lemma no_error_iff (l : list ValidationIssue) :
  negb (existsb is_error l) = true ↔ ∀ i, i ∈ l → severity i = warning.
Proof.
  induction l as [|i l IH]; simpl.
  - split; [intros _ i Hi; inversion Hi | done].
  - rewrite negb_orb, andb_true_iff, IH. unfold is_error at 1.
    split.
    + intros [Hi Hl] j Hj. apply elem_of_cons in Hj as [->|Hj]; [|by apply Hl].
      destruct (severity i); [|done].
      by rewrite bool_decide_eq_true_2 in Hi.
    + intros H. split.
      * rewrite (H i) by apply list_elem_of_here. done.
      * intros j Hj. apply H. by apply list_elem_of_further.
Qed.

(** C6, as the code has it. Where [name] and [description] are strings
    or missing, as the code takes them to be, [validateFrontmatter]
    returns a result that is valid exactly when its list of issues holds
    no error, that is, when every issue in it is a warning. A missing category, missing tags, a
    description with no trigger phrase and a name that differs from the
    folder each put a warning in the list, so none of them makes the
    result invalid. *)
Theorem validateFrontmatter_valid_iff_no_error (frontmatter : Frontmatter)
    (folderId name description : option string) :
  as_string (obj_get "name" frontmatter) = Some name →
  as_string (obj_get "description" frontmatter) = Some description →
  ∃ r,
    validateFrontmatter frontmatter folderId = Returned r
    ∧ (valid r = true ↔ ∀ i, i ∈ issues r → severity i = warning)
    ∧ (valid r = false ↔ ∃ i, i ∈ issues r ∧ severity i = error)
    ∧ (falsy (obj_get "category" frontmatter) = true →
       category_issue ∈ issues r ∧ severity category_issue = warning)
    ∧ (falsy (obj_get "tags" frontmatter) = true →
       tags_issue ∈ issues r ∧ severity tags_issue = warning)
    ∧ (∀ d, truthy description = Some d →
       existsb (Str.includes (Str.toLowerCase d)) triggerPhrases = false →
       trigger_issue ∈ issues r ∧ severity trigger_issue = warning)
    ∧ (∀ n f, truthy name = Some n → truthy folderId = Some f → n ≠ f →
       folder_issue n f ∈ issues r ∧ severity (folder_issue n f) = warning).
Proof.
  intros Hname Hdesc. unfold validateFrontmatter. rewrite Hname, Hdesc.
  eexists. split; [reflexivity|]. cbn [valid issues].
  split; [apply no_error_iff|].
  split.
  { rewrite negb_false_iff, existsb_exists. unfold is_error.
    split.
    - intros (i & Hi & Hsev). exists i. split; [by apply list_elem_of_In|].
      by apply bool_decide_eq_true_1 in Hsev.
    - intros (i & Hi & Hsev). exists i. split; [by apply list_elem_of_In|].
      by apply bool_decide_eq_true_2. }
  repeat split; try reflexivity.
  - rewrite !elem_of_app. do 3 right. left. rewrite H. apply list_elem_of_here.
  - rewrite !elem_of_app. do 4 right. rewrite H. apply list_elem_of_here.
  - rewrite !elem_of_app. right. left. unfold description_issues. rewrite H.
    rewrite !elem_of_app. do 2 right. rewrite H0. apply list_elem_of_here.
  - rewrite !elem_of_app. left. unfold name_issues. rewrite H, H0.
    rewrite !elem_of_app. do 2 right.
    destruct (String.eqb_spec n f); [done|]. apply list_elem_of_here.
Qed.

(** A frontmatter with all four warnings and no error is valid. *)
Lemma validateFrontmatter_valid_iff_no_error_witness :
  ∃ r,
    validateFrontmatter
      [("name", FString "my-skill"); ("description", FString "Does something useful.")]
      (Some "other-folder") = Returned r
    ∧ valid r = true
    ∧ issues r = [folder_issue "my-skill" "other-folder"; trigger_issue;
                  category_issue; tags_issue].
Proof.
  destruct (validateFrontmatter_valid_iff_no_error
              [("name", FString "my-skill");
               ("description", FString "Does something useful.")]
              (Some "other-folder") (Some "my-skill") (Some "Does something useful.")
              eq_refl eq_refl)
    as (r & Hr & _).
  exists r. split; [exact Hr|].
  vm_compute in Hr. injection Hr as <-. split; reflexivity.
Defined.

(** C6 as stated fails for a frontmatter whose name or description is a
    list, as [parseFrontmatter] makes of [name: [a]]: the call throws,
    and there is no result. *)
Lemma validateFrontmatter_throws_on_list :
  (parseFrontmatter
     ("---" +:+ nl +:+ "name: [a]" +:+ nl +:+ "description: Does X. Use when Y." +:+ nl
      +:+ "---" +:+ nl)).1
  = [("name", FList ["a"]); ("description", FString "Does X. Use when Y.")]
  ∧ validateFrontmatter
      [("name", FList ["a"]); ("description", FString "Does X. Use when Y.")] None
    = Threw "name.startsWith is not a function"
  ∧ validateFrontmatter
      [("name", FString "my-skill"); ("description", FList ["Does X"; "use when Y"])]
      (Some "my-skill")
    = Threw "description.toLowerCase is not a function".
Proof. repeat split; vm_compute; reflexivity. Qed.

(** ** The lock store (lock.ts) *)

(** *** The JSON text of a lock file reads back as the lock file *)

Lemma ContentType_of_str_str t : ContentType_of_str (ContentType_str t) = Some t.
Proof. by destruct t. Qed.

Lemma InstallScope_of_str_str s : InstallScope_of_str (InstallScope_str s) = Some s.
Proof. by destruct s. Qed.

Lemma InstallMethod_of_str_str m : InstallMethod_of_str (InstallMethod_str m) = Some m.
Proof. by destruct m. Qed.

Lemma strings_of_json_of_strings l : strings_of_json (json_of_strings l) = Some l.
Proof.
  unfold strings_of_json, json_of_strings.
  induction l as [|s l IH]; [done|]. cbn. cbn in IH. by rewrite IH.
Qed.

Lemma InstalledItem_of_json_of i :
  InstalledItem_of_json (json_of_InstalledItem i) = Some i.
Proof.
  destruct i as [t i src h at_ asst sc m].
  unfold InstalledItem_of_json, json_of_InstalledItem. cbn -[strings_of_json json_of_strings].
  rewrite ContentType_of_str_str. cbn -[strings_of_json json_of_strings].
  rewrite strings_of_json_of_strings. cbn.
  rewrite InstallScope_of_str_str. cbn.
  rewrite InstallMethod_of_str_str. reflexivity.
Qed.

Lemma entries_of_json_of (entries : list (string * InstalledItem)) :
  entries_of_json (JObject (map (λ kv, (kv.1, json_of_InstalledItem kv.2)) entries))
  = Some entries.
Proof.
  unfold entries_of_json.
  induction entries as [|[k i] entries IH]; [done|].
  cbn -[InstalledItem_of_json json_of_InstalledItem].
  rewrite InstalledItem_of_json_of. cbn -[InstalledItem_of_json json_of_InstalledItem].
  cbn -[InstalledItem_of_json json_of_InstalledItem] in IH. by rewrite IH.
Qed.

Lemma Preferences_of_json_of p : Preferences_of_json (json_of_Preferences p) = Some p.
Proof.
  destruct p as [[da|] [ds|] [dm|]];
    unfold Preferences_of_json, json_of_Preferences;
    cbn -[strings_of_json json_of_strings];
    rewrite ?strings_of_json_of_strings; cbn;
    rewrite ?InstallScope_of_str_str; cbn;
    rewrite ?InstallMethod_of_str_str; reflexivity.
Qed.

Lemma LockFile_of_json_of l : LockFile_of_json (json_of_LockFile l) = Some l.
Proof.
  destruct l as [ver [luc|] inst [prefs|]];
    unfold LockFile_of_json, json_of_LockFile;
    cbn -[entries_of_json Preferences_of_json json_of_Preferences];
    rewrite entries_of_json_of; cbn -[Preferences_of_json json_of_Preferences];
    rewrite ?Preferences_of_json_of; reflexivity.
Qed.

(** *** Facts about the file system *)

(** The nodes [mkdir_from done todo] may create: [done] extended by a
    non-empty prefix of [todo]. *)
Definition created (done todo k : Path.resolved) : Prop :=
  ∃ l, l ≠ [] ∧ l `prefix_of` todo ∧ k = done ++ l.

Lemma created_cons done seg rest k :
  created done (seg :: rest) k ↔ k = done ++ [seg] ∨ created (done ++ [seg]) rest k.
Proof.
  unfold created. split.
  - intros (l & Hne & Hpre & ->). destruct l as [|x l]; [done|].
    apply prefix_cons_inv_1 in Hpre as Hx. apply prefix_cons_inv_2 in Hpre as Hl.
    subst x. destruct l as [|y l]; [by left|]. right.
    exists (y :: l). split; [done|]. split; [done|]. by rewrite <- app_assoc.
  - intros [->|(l & Hne & Hpre & ->)].
    + exists [seg]. split; [done|]. split; [|done].
      apply prefix_cons, prefix_nil.
    + exists (seg :: l). split; [done|]. split; [by apply prefix_cons|].
      by rewrite <- app_assoc.
Qed.

Lemma created_nil done k : ¬ created done [] k.
Proof.
  intros (l & Hne & Hpre & _). apply prefix_nil_inv in Hpre. done.
Qed.

Lemma created_longer done todo k :
  created done todo k → k ≠ done.
Proof.
  intros (l & Hne & _ & ->) Heq. destruct l; [done|].
  apply (f_equal List.length) in Heq. rewrite length_app in Heq. simpl in Heq. lia.
Qed.

(** Whatever [mkdir] does, and whether or not it succeeds, it only adds
    directories on the way to its target. *)
Lemma mkdir_from_frame done todo w :
  let w' := (Fs.mkdir_from done todo w).1 in
  denied w' = denied w ∧ ticks w' = ticks w
  ∧ (∀ k n, nodes w !! k = Some n → nodes w' !! k = Some n)
  ∧ (∀ k n, nodes w' !! k = Some n →
       nodes w !! k = Some n ∨ (n = Dir ∧ nodes w !! k = None ∧ created done todo k)).
Proof.
  revert done w. induction todo as [|seg rest IH]; intros done w; simpl.
  { repeat split; auto. }
  destruct (nodes w !! (done ++ [seg])) as [[|c]|] eqn:Hq.
  - destruct (IH (done ++ [seg]) w) as (Hd & Ht & Hmono & Hnew).
    repeat split; auto.
    intros k n Hk. destruct (Hnew k n Hk) as [?|(-> & Hnone & Hc)]; [by left|].
    right. repeat split; auto. apply created_cons. by right.
  - simpl. repeat split; auto.
  - destruct (decide (done ++ [seg] ∈ denied w)) as [Hin|Hnin]; simpl;
      [repeat split; auto|].
    destruct (IH (done ++ [seg]) (with_nodes <[done ++ [seg]:=Dir]> w))
      as (Hd & Ht & Hmono & Hnew).
    repeat split; auto.
    + intros k n Hk. apply Hmono. simpl.
      destruct (decide (k = done ++ [seg])) as [->|Hne]; [congruence|].
      by rewrite lookup_insert_ne.
    + intros k n Hk. destruct (Hnew k n Hk) as [Hold|(-> & Hnone & Hc)].
      * simpl in Hold.
        destruct (decide (k = done ++ [seg])) as [->|Hne].
        -- rewrite lookup_insert_eq in Hold. injection Hold as <-.
           right. repeat split; auto. apply created_cons. by left.
        -- rewrite lookup_insert_ne in Hold by done. by left.
      * simpl in Hnone.
        destruct (decide (k = done ++ [seg])) as [->|Hne].
        -- by rewrite lookup_insert_eq in Hnone.
        -- rewrite lookup_insert_ne in Hnone by done.
           right. repeat split; auto. apply created_cons. by right.
Qed.

(** [mkdir] succeeds exactly when nothing on the way is a file and
    nothing that is missing is protected; every directory on the way is
    there afterwards. *)
Definition can_mkdir (w : World) (done todo : Path.resolved) : Prop :=
  ∀ k, created done todo k →
    nodes w !! k = Some Dir ∨ (nodes w !! k = None ∧ k ∉ denied w).

Lemma mkdir_from_returns done todo w :
  can_mkdir w done todo →
  ∃ w', Fs.mkdir_from done todo w = (w', Returned tt)
        ∧ ∀ k, created done todo k → nodes w' !! k = Some Dir.
Proof.
  revert done w. induction todo as [|seg rest IH]; intros done w Hcan; simpl.
  { eexists. split; [reflexivity|]. intros k Hk. by apply created_nil in Hk. }
  destruct (Hcan (done ++ [seg])) as [Hq|[Hq Hden]].
  { apply created_cons. by left. }
  - rewrite Hq. destruct (IH (done ++ [seg]) w) as (w' & Hrun & Hdirs).
    { intros k Hk. apply Hcan, created_cons. by right. }
    exists w'. split; [done|]. intros k [->|Hk]%created_cons; [|by apply Hdirs].
    pose proof (mkdir_from_frame (done ++ [seg]) rest w) as (_ & _ & Hmono & _).
    rewrite Hrun in Hmono. by apply Hmono.
  - rewrite Hq. rewrite decide_False by done.
    destruct (IH (done ++ [seg]) (with_nodes <[done ++ [seg]:=Dir]> w))
      as (w' & Hrun & Hdirs).
    { intros k Hk. simpl.
      rewrite lookup_insert_ne by (symmetry; eapply created_longer, Hk).
      apply Hcan, created_cons. by right. }
    exists w'. split; [done|]. intros k [->|Hk]%created_cons; [|by apply Hdirs].
    pose proof (mkdir_from_frame (done ++ [seg]) rest
                  (with_nodes <[done ++ [seg]:=Dir]> w)) as (_ & _ & Hmono & _).
    rewrite Hrun in Hmono. apply Hmono. simpl. by rewrite lookup_insert_eq.
Qed.

Lemma mkdir_from_returned done todo w w' :
  Fs.mkdir_from done todo w = (w', Returned tt) → can_mkdir w done todo.
Proof.
  revert done w. induction todo as [|seg rest IH]; intros done w Hrun k Hk.
  { by apply created_nil in Hk. }
  simpl in Hrun.
  destruct (nodes w !! (done ++ [seg])) as [[|c]|] eqn:Hq; [| done |].
  - apply created_cons in Hk as [->|Hk]; [by left|]. by apply (IH _ _ Hrun).
  - destruct (decide (done ++ [seg] ∈ denied w)) as [|Hden]; [done|].
    apply created_cons in Hk as [->|Hk]; [by right|].
    destruct (IH _ _ Hrun k Hk) as [Hdir|[Hnone Hd]]; simpl in *.
    + rewrite lookup_insert_ne in Hdir by (symmetry; eapply created_longer, Hk).
      by left.
    + rewrite lookup_insert_ne in Hnone by (symmetry; eapply created_longer, Hk).
      by right.
Qed.

Lemma created_root dir k : created [] dir k ↔ k ≠ [] ∧ k `prefix_of` dir.
Proof.
  unfold created. split.
  - intros (l & Hne & Hpre & ->). done.
  - intros [Hne Hpre]. by exists k.
Qed.

Lemma mkdir_p_dir dir w w' :
  Fs.mkdir_p dir w = (w', Returned tt) → node_at w' dir = Some Dir.
Proof.
  intros Hrun. destruct dir as [|seg rest]; [done|]. simpl.
  destruct (mkdir_from_returns [] (seg :: rest) w) as (w2 & Hrun2 & Hdirs).
  { by eapply mkdir_from_returned. }
  unfold Fs.mkdir_p in Hrun. rewrite Hrun in Hrun2. injection Hrun2 as <-.
  apply Hdirs, created_root. done.
Qed.

(** *** Objects as maps *)

Section ObjFacts.
Context {V : Type}.
Implicit Types (o : list (string * V)) (k : string) (v : V).

Lemma obj_get_set_eq k v o : obj_get k (obj_set k v o) = Some v.
Proof.
  induction o as [|[k' v'] o IH]; simpl.
  - by rewrite String.eqb_refl.
  - destruct (String.eqb_spec k' k) as [->|Hne]; simpl.
    + by rewrite String.eqb_refl.
    + by destruct (String.eqb_spec k' k).
Qed.

Lemma obj_get_set_ne k k' v o : k' ≠ k → obj_get k' (obj_set k v o) = obj_get k' o.
Proof.
  intros Hne. induction o as [|[k0 v0] o IH]; simpl.
  - by destruct (String.eqb_spec k k').
  - destruct (String.eqb_spec k0 k) as [->|Hne0]; simpl.
    + by destruct (String.eqb_spec k k').
    + by rewrite IH.
Qed.

Lemma obj_get_delete_eq k o : obj_get k (obj_delete k o) = None.
Proof.
  induction o as [|[k0 v0] o IH]; simpl; [done|].
  destruct (String.eqb_spec k0 k) as [->|Hne0]; simpl; [done|].
  by destruct (String.eqb_spec k0 k).
Qed.

Lemma obj_get_delete_ne k k' o : k' ≠ k → obj_get k' (obj_delete k o) = obj_get k' o.
Proof.
  intros Hne. induction o as [|[k0 v0] o IH]; simpl; [done|].
  destruct (String.eqb_spec k0 k) as [->|Hne0]; simpl.
  - by destruct (String.eqb_spec k k').
  - by rewrite IH.
Qed.

Lemma obj_get_elem k v o : obj_get k o = Some v → (k, v) ∈ o.
Proof.
  induction o as [|[k0 v0] o IH]; simpl; [done|].
  destruct (String.eqb_spec k0 k) as [->|Hne0].
  - intros [= ->]. apply list_elem_of_here.
  - intros H. apply list_elem_of_further. by apply IH.
Qed.

Lemma obj_get_None k o : obj_get k o = None ↔ k ∉ obj_keys o.
Proof.
  induction o as [|[k0 v0] o IH]; simpl.
  - split; [intros _ H; inversion H | done].
  - rewrite not_elem_of_cons. destruct (String.eqb_spec k0 k) as [->|Hne0].
    + split; [done | by intros [? _]].
    + rewrite IH. split; [by intros ?; split | by intros [_ ?]].
Qed.

Lemma obj_keys_set k v o :
  obj_keys (obj_set k v o)
  = match obj_get k o with
    | Some _ => obj_keys o
    | None => obj_keys o ++ [k]
    end.
Proof.
  induction o as [|[k0 v0] o IH]; simpl; [done|].
  destruct (String.eqb_spec k0 k) as [->|Hne0]; simpl; [done|].
  rewrite IH. by destruct (obj_get k o).
Qed.

Lemma obj_keys_set_NoDup k v o : NoDup (obj_keys o) → NoDup (obj_keys (obj_set k v o)).
Proof.
  intros Hnd. rewrite obj_keys_set. destruct (obj_get k o) eqn:Hget; [done|].
  apply NoDup_app. split; [done|]. split; [|apply NoDup_singleton].
  intros x Hx ->%list_elem_of_singleton. by apply obj_get_None in Hget.
Qed.

Lemma obj_keys_delete k o x : x ∈ obj_keys (obj_delete k o) → x ∈ obj_keys o.
Proof.
  induction o as [|[k0 v0] o IH]; simpl; [done|].
  destruct (String.eqb k0 k); simpl.
  - intros H. apply list_elem_of_further. by apply IH.
  - intros [->|H]%elem_of_cons; [apply list_elem_of_here|].
    apply list_elem_of_further. by apply IH.
Qed.

Lemma obj_keys_delete_NoDup k o : NoDup (obj_keys o) → NoDup (obj_keys (obj_delete k o)).
Proof.
  induction o as [|[k0 v0] o IH]; simpl; [done|].
  intros [Hk0 Hnd]%NoDup_cons. destruct (String.eqb k0 k); simpl; [by apply IH|].
  apply NoDup_cons. split; [|by apply IH].
  intros Hin. by apply Hk0, (obj_keys_delete k).
Qed.

Lemma obj_set_Forall (P : V → Prop) k v o :
  P v → Forall (λ kv, P kv.2) o → Forall (λ kv, P kv.2) (obj_set k v o).
Proof.
  intros Hv. induction 1 as [|[k0 v0] o Hx Ho IH]; simpl.
  - by constructor.
  - destruct (String.eqb k0 k); by constructor.
Qed.

Lemma obj_delete_Forall (P : V → Prop) k o :
  Forall (λ kv, P kv.2) o → Forall (λ kv, P kv.2) (obj_delete k o).
Proof.
  induction 1 as [|[k0 v0] o Hx Ho IH]; simpl; [done|].
  destruct (String.eqb k0 k); [done | by constructor].
Qed.

End ObjFacts.

(** *** Sets of assistants *)

Lemma Set_add_fold_spec (l acc : list string) :
  NoDup acc →
  NoDup (fold_left Set_add l acc)
  ∧ ∀ x, x ∈ fold_left Set_add l acc ↔ x ∈ acc ∨ x ∈ l.
Proof.
  revert acc. induction l as [|y l IH]; intros acc Hacc; simpl.
  - split; [done|]. intros x. rewrite elem_of_nil. tauto.
  - destruct (IH (Set_add acc y)) as [Hnd Hin].
    { unfold Set_add. destruct (decide (y ∈ acc)); [done|].
      apply NoDup_app. split; [done|]. split; [|apply NoDup_singleton].
      by intros x Hx ->%list_elem_of_singleton. }
    split; [done|]. intros x. rewrite Hin, elem_of_cons. unfold Set_add.
    destruct (decide (y ∈ acc)) as [Hy|Hy].
    + split; [tauto|]. intros [?|[->|?]]; tauto.
    + rewrite elem_of_app, list_elem_of_singleton. tauto.
Qed.

Lemma Set_from_NoDup l : NoDup (Set_from l).
Proof. apply Set_add_fold_spec, NoDup_nil_2. Qed.

Lemma Set_from_elem l x : x ∈ Set_from l ↔ x ∈ l.
Proof.
  unfold Set_from. destruct (Set_add_fold_spec l [] (NoDup_nil_2)) as [_ H].
  rewrite H, elem_of_nil. tauto.
Qed.

(** *** Reading and writing the lock file *)

(** The node that holds the lock file of a scope. *)
Definition lock_node (env : Env) (scope : InstallScope) (projectRoot : option string)
  : Path.resolved :=
  on_disk env (getLockFilePath env scope projectRoot).

(** The document a node holds for [readLockFile]: the JSON value of its
    text, and the empty lock file when the node is missing, is a
    directory, or holds text that is not JSON. *)
Definition stored_doc (w : World) (p : Path.resolved) : json :=
  match node_at w p with
  | Some (File (JsonText v)) => v
  | _ => json_of_LockFile emptyLockFile
  end.

(** The disk lets the lock file be written. *)
Definition lock_writable (env : Env) (scope : InstallScope)
    (projectRoot : option string) (w : World) : Prop :=
  ∃ w', writeLockFile env emptyLockFile scope projectRoot w = (w', Returned tt).

Lemma readLockFile_run env scope projectRoot w :
  readLockFile env scope projectRoot w
  = (w, Returned (stored_doc w (lock_node env scope projectRoot))).
Proof.
  unfold readLockFile, stored_doc, lock_node, try_catch, bind, Fs.readFile.
  destruct (node_at w _) as [[|[s|v]]|]; reflexivity.
Qed.

Lemma writeLockFile_returned env lockFile scope projectRoot w w' :
  writeLockFile env lockFile scope projectRoot w = (w', Returned tt) →
  ∃ w1,
    Fs.mkdir_p (Path.parent (lock_node env scope projectRoot)) w = (w1, Returned tt)
    ∧ w' = with_nodes
             (insert (lock_node env scope projectRoot)
                (File (JsonText (json_of_LockFile lockFile)))) w1
    ∧ lock_node env scope projectRoot ≠ []
    ∧ (lock_node env scope projectRoot ∉ denied w1)
    ∧ nodes w1 !! (lock_node env scope projectRoot) ≠ Some Dir.
Proof.
  unfold writeLockFile, bind. fold (lock_node env scope projectRoot).
  generalize (lock_node env scope projectRoot). intros p Hrun.
  destruct (Fs.mkdir_p (Path.parent p) w) as [w1 [[]| |]] eqn:Hmk; try done.
  exists w1. split; [done|]. unfold Fs.writeFile in Hrun.
  rewrite (mkdir_p_dir _ _ _ Hmk) in Hrun.
  destruct p as [|seg rest] eqn:Hp; [done|].
  cbn [node_at] in Hrun.
  destruct (nodes w1 !! (seg :: rest)) as [[|c]|] eqn:Hnode; try done;
    destruct (decide (seg :: rest ∈ denied w1)); try done;
    injection Hrun as <-; done.
Qed.

Lemma writeLockFile_returns env lockFile scope projectRoot w :
  lock_writable env scope projectRoot w →
  ∃ w1,
    Fs.mkdir_p (Path.parent (lock_node env scope projectRoot)) w = (w1, Returned tt)
    ∧ writeLockFile env lockFile scope projectRoot w
      = (with_nodes
           (insert (lock_node env scope projectRoot)
              (File (JsonText (json_of_LockFile lockFile)))) w1,
         Returned tt)
    ∧ lock_node env scope projectRoot ≠ [].
Proof.
  intros [w0 Hrun].
  destruct (writeLockFile_returned _ _ _ _ _ _ Hrun) as (w1 & Hmk & _ & Hp & Hden & Hdir).
  exists w1. split; [done|]. split; [|done].
  unfold writeLockFile, bind. fold (lock_node env scope projectRoot).
  revert Hmk Hp Hden Hdir. generalize (lock_node env scope projectRoot).
  intros p Hmk Hp Hden Hdir.
  rewrite Hmk. unfold Fs.writeFile. rewrite (mkdir_p_dir _ _ _ Hmk).
  destruct p as [|seg rest]; [done|]. cbn [node_at].
  destruct (nodes w1 !! (seg :: rest)) as [[|c]|]; try done;
    by rewrite decide_False.
Qed.

Lemma stored_doc_written p c (w : World) :
  p ≠ [] → stored_doc (with_nodes (insert p (File (JsonText c))) w) p = c.
Proof.
  intros Hp. unfold stored_doc. destruct p; [done|]. simpl.
  by rewrite lookup_insert_eq.
Qed.

(** C4, as the code has it. [readLockFile] always returns, and leaves the
    disk as it is. It returns the empty lock file, with version [1.0.0]
    and nothing installed, when the file is missing, cannot be read as a
    file, or holds text that is not JSON; when the text is JSON it returns
    the value parsed, whatever its shape. *)
Theorem readLockFile_never_throws env scope projectRoot w :
  (∃ doc, readLockFile env scope projectRoot w = (w, Returned doc))
  ∧ (node_at w (lock_node env scope projectRoot) = None →
     readLockFile env scope projectRoot w = (w, Returned (json_of_LockFile emptyLockFile)))
  ∧ (node_at w (lock_node env scope projectRoot) = Some Dir →
     readLockFile env scope projectRoot w = (w, Returned (json_of_LockFile emptyLockFile)))
  ∧ (∀ text, node_at w (lock_node env scope projectRoot) = Some (File (Text text)) →
     readLockFile env scope projectRoot w = (w, Returned (json_of_LockFile emptyLockFile)))
  ∧ (∀ doc, node_at w (lock_node env scope projectRoot) = Some (File (JsonText doc)) →
     readLockFile env scope projectRoot w = (w, Returned doc))
  ∧ LockFile_of_json (json_of_LockFile emptyLockFile) = Some emptyLockFile
  ∧ version emptyLockFile = "1.0.0" ∧ installed emptyLockFile = [].
Proof.
  rewrite readLockFile_run. unfold stored_doc.
  split; [by eexists|].
  split; [by intros ->|]. split; [by intros ->|].
  split; [by intros text ->|]. split; [by intros doc ->|].
  split; [apply LockFile_of_json_of|]. done.
Qed.

(** A disk whose lock file holds the JSON text [{}]. *)
Definition world_with_lock_text (doc : json) : World :=
  {| nodes :=
       list_to_map
         [(["work"], Dir); (["work"; ".ai"], Dir);
          (["work"; ".ai"; ".skill-lock.json"], File (JsonText doc))];
     denied := ∅; ticks := 0; unreached := ∅ |}.

(** C4 as stated fails on a file that is JSON of another shape than a
    lock file: [{}] is returned as it is, with no version and no
    [installed] map, where the claim has the empty lock file. *)
Lemma readLockFile_returns_other_shapes :
  LockFile_of_json (JObject []) = None
  ∧ readLockFile demo_env project None (world_with_lock_text (JObject []))
    = (world_with_lock_text (JObject []), Returned (JObject []))
  ∧ json_of_LockFile emptyLockFile
    = JObject [("version", JString "1.0.0"); ("installed", JObject [])].
Proof. repeat split; vm_compute; reflexivity. Qed.

(** *** Updating the lock file *)

(** The entry [updateLockFile] stores for [item], given the lock file it
    has read. *)
Definition merged_entry (lockFile : LockFile) (item : InstalledItem) : InstalledItem :=
  match obj_get (getItemKey (i_type item) (i_id item)) (installed lockFile) with
  | Some existing =>
      with_assistants (Set_from (i_assistants existing ++ i_assistants item)) item
  | None => item
  end.

Definition updated_lock (lockFile : LockFile) (item : InstalledItem) : LockFile :=
  with_installed
    (obj_set (getItemKey (i_type item) (i_id item)) (merged_entry lockFile item)
       (installed lockFile))
    lockFile.

Lemma updateLockFile_run env item scope projectRoot w lockFile :
  LockFile_of_json (stored_doc w (lock_node env scope projectRoot)) = Some lockFile →
  updateLockFile env item scope projectRoot w
  = writeLockFile env (updated_lock lockFile item) scope projectRoot w.
Proof.
  intros Hdoc. unfold updateLockFile, bind at 1. rewrite readLockFile_run.
  unfold bind at 1, cast. rewrite Hdoc. reflexivity.
Qed.

(** C2. Let the lock file on disk be [lockFile] (the empty one when the
    file is missing or unreadable) and let the disk accept the write.
    Then [updateLockFile] returns, and the lock file read back holds
    under the key [type/id]: when there was an entry, the new item with
    the assistants of both, each once, and every other field as in the
    new item; when there was none, the new item as it is. The other keys
    keep their entries, a key still occurs once, and the rest of the
    document is unchanged. *)
Theorem updateLockFile_unions_assistants env (item : InstalledItem)
    (scope : InstallScope) (projectRoot : option string) (w : World)
    (lockFile : LockFile) :
  LockFile_of_json (stored_doc w (lock_node env scope projectRoot)) = Some lockFile →
  lock_writable env scope projectRoot w →
  ∃ w' lockFile',
    updateLockFile env item scope projectRoot w = (w', Returned tt)
    ∧ readLockFile env scope projectRoot w' = (w', Returned (json_of_LockFile lockFile'))
    ∧ (∀ existing,
         obj_get (getItemKey (i_type item) (i_id item)) (installed lockFile) = Some existing →
         ∃ assistants,
           obj_get (getItemKey (i_type item) (i_id item)) (installed lockFile')
             = Some (with_assistants assistants item)
           ∧ NoDup assistants
           ∧ ∀ a, a ∈ assistants ↔ a ∈ i_assistants existing ∨ a ∈ i_assistants item)
    ∧ (obj_get (getItemKey (i_type item) (i_id item)) (installed lockFile) = None →
       obj_get (getItemKey (i_type item) (i_id item)) (installed lockFile') = Some item)
    ∧ (∀ key, key ≠ getItemKey (i_type item) (i_id item) →
       obj_get key (installed lockFile') = obj_get key (installed lockFile))
    ∧ (NoDup (obj_keys (installed lockFile)) → NoDup (obj_keys (installed lockFile')))
    ∧ version lockFile' = version lockFile
    ∧ lastUpdateCheck lockFile' = lastUpdateCheck lockFile
    ∧ preferences lockFile' = preferences lockFile.
Proof.
  intros Hdoc Hwritable.
  destruct (writeLockFile_returns env (updated_lock lockFile item) _ _ _ Hwritable)
    as (w1 & _ & Hwrite & Hp).
  eexists _, (updated_lock lockFile item).
  split; [by rewrite (updateLockFile_run _ _ _ _ _ _ Hdoc)|].
  split; [by rewrite readLockFile_run, stored_doc_written|].
  unfold updated_lock, merged_entry; cbn [installed with_installed].
  split.
  { intros existing ->. eexists. split; [apply obj_get_set_eq|].
    split; [apply Set_from_NoDup|].
    intros a. by rewrite Set_from_elem, elem_of_app. }
  split; [intros ->; apply obj_get_set_eq|].
  split; [intros key Hkey; by apply obj_get_set_ne|].
  split; [apply obj_keys_set_NoDup|]. done.
Qed.

(** Installing [skills/foo] for Claude Code and then for Cursor, in a new
    project. *)
Definition lock_item (assistants : list string) : InstalledItem :=
  {| i_type := skills; i_id := "foo"; i_source := "builtin"; i_hash := "NTctNDUtMTA=";
     i_installedAt := "2026-01-01T00:00:00.000Z"; i_assistants := assistants;
     i_scope := project; i_method := symlink |}.

Definition after_claude : World :=
  (updateLockFile demo_env (lock_item ["claude"]) project (Some "/repo") empty_world).1.

Lemma updateLockFile_unions_assistants_witness :
  ∃ w' lockFile',
    updateLockFile demo_env (lock_item ["claude"]) project (Some "/repo") empty_world
      = (after_claude, Returned tt)
    ∧ updateLockFile demo_env (lock_item ["cursor"]) project (Some "/repo") after_claude
      = (w', Returned tt)
    ∧ readLockFile demo_env project (Some "/repo") w'
      = (w', Returned (json_of_LockFile lockFile'))
    ∧ installed lockFile' = [("skills/foo", lock_item ["claude"; "cursor"])].
Proof.
  destruct (updateLockFile_unions_assistants demo_env (lock_item ["cursor"]) project
              (Some "/repo") after_claude
              (with_installed [("skills/foo", lock_item ["claude"])] emptyLockFile))
    as (w' & lockFile' & Hupdate & Hread & _).
  - vm_compute. reflexivity.
  - eexists. vm_compute. reflexivity.
  - exists w', lockFile'. split; [vm_compute; reflexivity|].
    split; [exact Hupdate|]. split; [exact Hread|].
    rewrite readLockFile_run in Hread. injection Hread as Hdoc.
    apply (f_equal LockFile_of_json) in Hdoc.
    rewrite LockFile_of_json_of in Hdoc.
    vm_compute in Hupdate. injection Hupdate as <-.
    vm_compute in Hdoc. injection Hdoc as <-. reflexivity.
Defined.

(** *** The lock store as a state machine *)

Inductive LockOp :=
  | OpUpdate (item : InstalledItem) (scope : InstallScope) (projectRoot : option string)
  | OpRemove (type : ContentType) (id assistantId : string) (scope : InstallScope)
      (projectRoot : option string).

Definition run_op (env : Env) (op : LockOp) : M unit :=
  match op with
  | OpUpdate item scope projectRoot => updateLockFile env item scope projectRoot
  | OpRemove type id assistantId scope projectRoot =>
      removeFromLockFile env type id assistantId scope projectRoot
  end.

(** The disk after a sequence of calls, each of which returned or threw. *)
Definition run_ops (env : Env) (ops : list LockOp) (w : World) : World :=
  fold_left (λ w op, (run_op env op w).1) ops w.

(** An update that names at least one assistant. *)
Definition names_an_assistant (op : LockOp) : Prop :=
  match op with
  | OpUpdate item _ _ => i_assistants item ≠ []
  | OpRemove _ _ _ _ _ => True
  end.

(** Each key once, and no entry without an assistant. *)
Definition lock_ok (lockFile : LockFile) : Prop :=
  NoDup (obj_keys (installed lockFile))
  ∧ Forall (λ kv, i_assistants kv.2 ≠ []) (installed lockFile).

(** Every JSON file on the disk is a lock file that is [lock_ok]. *)
Definition lock_files_ok (w : World) : Prop :=
  ∀ p doc, nodes w !! p = Some (File (JsonText doc)) →
    ∃ lockFile, doc = json_of_LockFile lockFile ∧ lock_ok lockFile.

(** No lock file has been written yet. *)
Definition no_lock_file (w : World) : Prop :=
  ∀ p doc, nodes w !! p = Some (File (JsonText doc)) → False.

Lemma emptyLockFile_ok : lock_ok emptyLockFile.
Proof. split; [apply NoDup_nil_2 | apply Forall_nil_2]. Qed.

Lemma stored_doc_ok w p :
  lock_files_ok w → ∃ lockFile, stored_doc w p = json_of_LockFile lockFile ∧ lock_ok lockFile.
Proof.
  intros Hok. unfold stored_doc.
  destruct p as [|seg rest]; [exists emptyLockFile; split; [done | apply emptyLockFile_ok]|].
  cbn [node_at].
  destruct (nodes w !! (seg :: rest)) as [[|[text|doc]]|] eqn:Hnode;
    try (exists emptyLockFile; split; [done | apply emptyLockFile_ok]).
  by apply (Hok (seg :: rest)).
Qed.

(** Whether it returns or throws, [writeLockFile] adds no JSON file but
    the one it is given. *)
Lemma writeLockFile_frame env lockFile scope projectRoot w p doc :
  nodes (writeLockFile env lockFile scope projectRoot w).1 !! p = Some (File (JsonText doc)) →
  nodes w !! p = Some (File (JsonText doc)) ∨ doc = json_of_LockFile lockFile.
Proof.
  unfold writeLockFile, bind. generalize (on_disk env (getLockFilePath env scope projectRoot)).
  intros q.
  pose proof (mkdir_from_frame [] (Path.parent q) w) as (_ & _ & _ & Hnew).
  unfold Fs.mkdir_p.
  destruct (Fs.mkdir_from [] (Path.parent q) w) as [w1 [[]| |]]; cbn [fst] in *.
  - unfold Fs.writeFile.
    assert (Hkeep : nodes w1 !! p = Some (File (JsonText doc)) →
                    nodes w !! p = Some (File (JsonText doc)) ∨ doc = json_of_LockFile lockFile).
    { intros H. destruct (Hnew _ _ H) as [?|[? _]]; [by left | done]. }
    destruct (node_at w1 (Path.parent q)) as [[|c]|]; cbn [fst]; try done.
    destruct (node_at w1 q) as [[|c]|]; cbn [fst]; try done;
      destruct (decide (q ∈ denied w1)); cbn [fst]; try done; simpl;
      (destruct (decide (p = q)) as [->|Hne];
       [rewrite lookup_insert_eq; intros [= <-]; by right
       |rewrite lookup_insert_ne by done; done]).
  - intros H. destruct (Hnew _ _ H) as [?|[? _]]; [by left | done].
  - intros H. destruct (Hnew _ _ H) as [?|[? _]]; [by left | done].
Qed.

Lemma merged_entry_assistants lockFile item :
  i_assistants item ≠ [] → i_assistants (merged_entry lockFile item) ≠ [].
Proof.
  intros Hne. unfold merged_entry.
  destruct (obj_get _ _) as [existing|]; [|done]. cbn.
  destruct (i_assistants item) as [|a rest] eqn:Hitem; [done|].
  intros Hnil.
  assert (Ha : a ∈ Set_from (i_assistants existing ++ a :: rest)).
  { apply Set_from_elem, elem_of_app. right. apply list_elem_of_here. }
  rewrite Hnil in Ha. by apply elem_of_nil in Ha.
Qed.

Lemma updated_lock_ok lockFile item :
  i_assistants item ≠ [] → lock_ok lockFile → lock_ok (updated_lock lockFile item).
Proof.
  intros Hne [Hkeys Hall]. split; cbn.
  - by apply obj_keys_set_NoDup.
  - apply (obj_set_Forall (λ i, i_assistants i ≠ [])); [|done].
    by apply merged_entry_assistants.
Qed.

Lemma run_op_ok env op w :
  names_an_assistant op → lock_files_ok w → lock_files_ok (run_op env op w).1.
Proof.
  intros Hop Hok.
  destruct op as [item scope projectRoot|type id assistantId scope projectRoot]; simpl.
  - destruct (stored_doc_ok w (lock_node env scope projectRoot) Hok) as (lf & Hdoc & Hlf).
    rewrite (updateLockFile_run _ _ _ _ _ lf) by (by rewrite Hdoc, LockFile_of_json_of).
    intros p doc Hp. apply writeLockFile_frame in Hp as [Hp | ->]; [by apply (Hok p)|].
    eexists. split; [done|]. by apply updated_lock_ok.
  - destruct (stored_doc_ok w (lock_node env scope projectRoot) Hok) as (lf & Hdoc & Hlf).
    unfold removeFromLockFile, bind at 1. rewrite readLockFile_run.
    unfold bind at 1, cast. rewrite Hdoc, LockFile_of_json_of.
    destruct (obj_get (getItemKey type id) (installed lf)) as [item|] eqn:Hget; [|done].
    intros p doc Hp. apply writeLockFile_frame in Hp as [Hp | ->]; [by apply (Hok p)|].
    eexists. split; [done|]. destruct Hlf as [Hkeys Hall].
    destruct (decide (List.length (filter (λ a, a ≠ assistantId) (i_assistants item)) = 0))
      as [Hempty|Hleft]; split; cbn.
    + by apply obj_keys_delete_NoDup.
    + by apply (obj_delete_Forall (λ i, i_assistants i ≠ [])).
    + by apply obj_keys_set_NoDup.
    + apply (obj_set_Forall (λ i, i_assistants i ≠ [])); [|done]. cbn.
      intros Hnil. by rewrite Hnil in Hleft.
Qed.

Lemma run_ops_ok env ops w :
  Forall names_an_assistant ops → lock_files_ok w → lock_files_ok (run_ops env ops w).
Proof.
  intros Hops. revert w. induction Hops as [|op ops Hop Hops IH]; intros w Hok; [done|].
  simpl. apply IH. by apply run_op_ok.
Qed.

Lemma no_lock_file_ok w : no_lock_file w → lock_files_ok w.
Proof. intros Hnone p doc Hp. destruct (Hnone p doc Hp). Qed.

Lemma removeFromLockFile_last env type id assistantId scope projectRoot w lockFile item :
  LockFile_of_json (stored_doc w (lock_node env scope projectRoot)) = Some lockFile →
  obj_get (getItemKey type id) (installed lockFile) = Some item →
  filter (λ a, a ≠ assistantId) (i_assistants item) = [] →
  lock_writable env scope projectRoot w →
  ∃ w',
    removeFromLockFile env type id assistantId scope projectRoot w = (w', Returned tt)
    ∧ readLockFile env scope projectRoot w'
      = (w', Returned (json_of_LockFile
                         (with_installed (obj_delete (getItemKey type id) (installed lockFile))
                            lockFile))).
Proof.
  intros Hdoc Hget Hlast Hwritable.
  destruct (writeLockFile_returns env
              (with_installed (obj_delete (getItemKey type id) (installed lockFile)) lockFile)
              _ _ _ Hwritable) as (w1 & _ & Hwrite & Hp).
  eexists. split.
  - unfold removeFromLockFile, bind at 1. rewrite readLockFile_run.
    unfold bind at 1, cast. rewrite Hdoc, Hget, Hlast. cbn. exact Hwrite.
  - by rewrite readLockFile_run, stored_doc_written.
Qed.

(** C3, as the code has it. Start with no lock file on the disk and make
    any sequence of calls of [updateLockFile] and [removeFromLockFile],
    for any scopes and project roots, where every item given to
    [updateLockFile] names at least one assistant. Then every lock file
    reads back as a document in which each key occurs once and no entry
    has an empty list of assistants. A removal that takes the last
    assistant of an entry deletes the entry. *)
Theorem lock_entries_keep_an_assistant env (ops : list LockOp) (w : World) :
  no_lock_file w →
  Forall names_an_assistant ops →
  (∀ scope projectRoot,
     ∃ lockFile,
       readLockFile env scope projectRoot (run_ops env ops w)
         = (run_ops env ops w, Returned (json_of_LockFile lockFile))
       ∧ NoDup (obj_keys (installed lockFile))
       ∧ Forall (λ kv, i_assistants kv.2 ≠ []) (installed lockFile))
  ∧ (∀ type id assistantId scope projectRoot lockFile item,
       readLockFile env scope projectRoot (run_ops env ops w)
         = (run_ops env ops w, Returned (json_of_LockFile lockFile)) →
       obj_get (getItemKey type id) (installed lockFile) = Some item →
       filter (λ a, a ≠ assistantId) (i_assistants item) = [] →
       lock_writable env scope projectRoot (run_ops env ops w) →
       ∃ w' lockFile',
         removeFromLockFile env type id assistantId scope projectRoot (run_ops env ops w)
           = (w', Returned tt)
         ∧ readLockFile env scope projectRoot w' = (w', Returned (json_of_LockFile lockFile'))
         ∧ obj_get (getItemKey type id) (installed lockFile') = None).
Proof.
  intros Hnone Hops.
  pose proof (run_ops_ok env ops w Hops (no_lock_file_ok w Hnone)) as Hok.
  split.
  - intros scope projectRoot. rewrite readLockFile_run.
    destruct (stored_doc_ok _ (lock_node env scope projectRoot) Hok) as (lf & -> & Hkeys & Hall).
    by exists lf.
  - intros type id assistantId scope projectRoot lockFile item Hread Hget Hlast Hwritable.
    rewrite readLockFile_run in Hread. injection Hread as Hdoc.
    destruct (removeFromLockFile_last env type id assistantId scope projectRoot
                (run_ops env ops w) lockFile item) as (w' & Hrun & Hread'); auto.
    { by rewrite Hdoc, LockFile_of_json_of. }
    exists w'. eexists. split; [exact Hrun|]. split; [exact Hread'|].
    cbn. apply obj_get_delete_eq.
Qed.

(** Install for two assistants, then uninstall for each: the entry goes
    with the last one. *)
Definition install_then_remove : list LockOp :=
  [OpUpdate (lock_item ["claude"]) project (Some "/repo");
   OpUpdate (lock_item ["cursor"]) project (Some "/repo");
   OpRemove skills "foo" "claude" project (Some "/repo")].

Lemma lock_entries_keep_an_assistant_witness :
  (∃ lockFile,
     readLockFile demo_env project (Some "/repo")
       (run_ops demo_env install_then_remove empty_world)
       = (run_ops demo_env install_then_remove empty_world,
          Returned (json_of_LockFile lockFile))
     ∧ installed lockFile = [("skills/foo", lock_item ["cursor"])])
  ∧ (∃ w' lockFile',
       removeFromLockFile demo_env skills "foo" "cursor" project (Some "/repo")
         (run_ops demo_env install_then_remove empty_world) = (w', Returned tt)
       ∧ readLockFile demo_env project (Some "/repo") w'
         = (w', Returned (json_of_LockFile lockFile'))
       ∧ obj_get (getItemKey skills "foo") (installed lockFile') = None).
Proof.
  assert (Hnone : no_lock_file empty_world).
  { intros p doc Hp. vm_compute in Hp. discriminate. }
  assert (Hops : Forall names_an_assistant install_then_remove).
  { repeat constructor; done. }
  destruct (lock_entries_keep_an_assistant demo_env install_then_remove empty_world
              Hnone Hops) as [Hinv Hremove].
  split.
  - exists (with_installed [("skills/foo", lock_item ["cursor"])] emptyLockFile).
    split; [vm_compute; reflexivity | reflexivity].
  - apply (Hremove skills "foo" "cursor" project (Some "/repo")
             (with_installed [("skills/foo", lock_item ["cursor"])] emptyLockFile)
             (lock_item ["cursor"])).
    + vm_compute. reflexivity.
    + reflexivity.
    + reflexivity.
    + eexists. vm_compute. reflexivity.
Defined.

Definition demo_item : CatalogItem :=
  {| c_id := "foo"; c_name := "foo"; c_description := "Does X. Use when Y.";
     c_type := skills; c_category := None; c_tags := None;
     c_path := "skills/foo"; c_content := None |}.

(** C3 as stated fails: an item with no assistant is stored as it is.
    [updateLockFile] with such an item, and likewise [installItems] with
    an empty list of assistants, leave an entry whose list of assistants
    is empty. *)
Lemma updateLockFile_stores_empty_assistants :
  getInstalledItems demo_env project (Some "/repo")
    (run_ops demo_env [OpUpdate (lock_item []) project (Some "/repo")] empty_world)
  = (run_ops demo_env [OpUpdate (lock_item []) project (Some "/repo")] empty_world,
     Returned [lock_item []])
  ∧ i_assistants (lock_item []) = []
  ∧ (getInstalledItems demo_env project (Some "/repo")
       (installItems demo_env [demo_item] [] project symlink (Some "/repo") empty_world).1).2
    = Returned [lock_item []].
Proof. repeat split; vm_compute; reflexivity. Qed.

(** ** Uninstalling (installer.ts) *)

(** The node of the canonical directory [uninstallItem] removes. *)
Definition canonical_node (env : Env) (item : CatalogItem) (scope : InstallScope)
    (projectRoot : option string) : Path.resolved :=
  on_disk env
    (getCanonicalPath env (c_type item) (c_id item) scope
       (Some (default (cwd env) projectRoot))).

(** The removal of [p] is refused: [p] is the root, or a protected node
    lies at or below it. *)
Definition removal_refused (w : World) (p : Path.resolved) : Prop :=
  p = [] ∨ set_Exists (λ k, p `prefix_of` k ∧ is_Some (nodes w !! k)) (denied w).

(** A file lies on the way to [p]: a path that goes on below a file. *)
Definition file_on_the_way (w : World) (p : Path.resolved) : Prop :=
  ∃ q seg rest c, p = q ++ seg :: rest ∧ node_at w q = Some (File c).

Lemma through_file_spec w done todo :
  Fs.through_file w done todo = true
  ↔ ∃ q seg rest c, todo = q ++ seg :: rest ∧ node_at w (done ++ q) = Some (File c).
Proof.
  revert done. induction todo as [|seg rest IH]; intros done; cbn [Fs.through_file].
  { split; [done|]. intros (q & seg & rest & c & Heq & _). by destruct q. }
  split.
  - destruct (node_at w done) as [[|c]|] eqn:Hdone.
    + intros (q & seg' & rest' & c & -> & Hq)%IH.
      exists (seg :: q), seg', rest', c. split; [done|]. by rewrite <- app_assoc in Hq.
    + intros _. exists [], seg, rest, c. by rewrite app_nil_r.
    + intros (q & seg' & rest' & c & -> & Hq)%IH.
      exists (seg :: q), seg', rest', c. split; [done|]. by rewrite <- app_assoc in Hq.
  - intros ([|seg0 q] & seg' & rest' & c & Heq & Hq).
    + rewrite app_nil_r in Hq. by rewrite Hq.
    + injection Heq as <- ->.
      assert (Fs.through_file w (done ++ [seg]) (q ++ seg' :: rest') = true) as Hrest.
      { apply IH. exists q, seg', rest', c. split; [done|]. by rewrite <- app_assoc. }
      rewrite Hrest. by destruct (node_at w done) as [[|?]|].
Qed.

Lemma file_on_the_way_spec w p : Fs.through_file w [] p = true ↔ file_on_the_way w p.
Proof. apply through_file_spec. Qed.

#[global] Instance file_on_the_way_dec w p : Decision (file_on_the_way w p).
Proof.
  destruct (Fs.through_file w [] p) eqn:Hthrough.
  - left. by apply file_on_the_way_spec.
  - right. intros Hway%file_on_the_way_spec. congruence.
Defined.

(** The disk after a removal of [p] that has failed. *)
Definition partly_removed (p : Path.resolved) (w : World) : World :=
  with_nodes (filter (λ kv, ¬ p `prefix_of` kv.1 ∨ Fs.stays w kv.1)) w.

Lemma rm_rf_run p w :
  Fs.rm_rf p w
  = if decide (file_on_the_way w p) then (w, Threw "ENOTDIR")
    else
      match node_at w p with
      | None => (w, Returned tt)
      | Some _ =>
          if decide (removal_refused w p) then (partly_removed p w, Threw "EACCES")
          else (with_nodes (filter (λ kv, ¬ p `prefix_of` kv.1)) w, Returned tt)
      end.
Proof.
  unfold Fs.rm_rf, removal_refused, partly_removed.
  destruct (decide (file_on_the_way w p)) as [Hway|Hclear].
  { apply file_on_the_way_spec in Hway. by rewrite Hway. }
  destruct (Fs.through_file w [] p) eqn:Hthrough.
  { destruct Hclear. by apply file_on_the_way_spec. }
  destruct (node_at w p); [|done].
  destruct (decide (p = [] ∨ _)) as [[Hroot|Hden]|Hfree].
  - by rewrite (bool_decide_eq_true_2 _ Hroot).
  - rewrite (bool_decide_eq_true_2 _ Hden). by rewrite orb_true_r.
  - rewrite bool_decide_eq_false_2 by tauto.
    rewrite bool_decide_eq_false_2 by tauto. done.
Qed.


(** After [uninstallItem] has returned [true] the canonical directory is
    not there, and what is not below it is as it was. *)
Lemma uninstallItem_returned_true env item assistant scope projectRoot w w' :
  uninstallItem env item assistant scope projectRoot w = (w', Returned true) →
  node_at w' (canonical_node env item scope projectRoot) = None
  ∧ ∀ k, ¬ canonical_node env item scope projectRoot `prefix_of` k →
      nodes w' !! k = nodes w !! k.
Proof.
  unfold uninstallItem, try_catch, bind. fold (canonical_node env item scope projectRoot).
  generalize (canonical_node env item scope projectRoot). intros p.
  rewrite rm_rf_run.
  destruct (decide (file_on_the_way w p)) as [Hway|Hclear]; [by intros [=]|].
  destruct (node_at w p) as [node|] eqn:Hnode; [|by intros [= <-]].
  destruct (decide (removal_refused w p)) as [Hrefused|Hfree]; [by intros [=]|].
  intros [= <-]. split.
  - destruct p as [|seg rest]; [destruct Hfree; by left|].
    cbn. apply map_lookup_filter_None. right. intros x _ Hnot. by apply Hnot.
  - intros k Hk. cbn. destruct (nodes w !! k) as [m|] eqn:Hm.
    + by apply map_lookup_filter_Some.
    + apply map_lookup_filter_None. by left.
Qed.




(** The failures of a removal. With a file where the directory [.ai]
    should be, the canonical directory is absent and [uninstallItem]
    returns [false]. With one of two files protected, the other one is
    removed, the directory stays, and [uninstallItem] returns [false]. *)
Definition blocked_world : World :=
  {| nodes := list_to_map [(["repo"], Dir); (["repo"; ".ai"], File (Text "notes"))];
     denied := ∅; ticks := 0; unreached := ∅ |}.

Definition half_protected_world : World :=
  {| nodes :=
       list_to_map
         [(["repo"], Dir); (["repo"; ".ai"], Dir); (["repo"; ".ai"; "skills"], Dir);
          (["repo"; ".ai"; "skills"; "foo"], Dir);
          (["repo"; ".ai"; "skills"; "foo"; "SKILL.md"], File (Text demo_skill));
          (["repo"; ".ai"; "skills"; "foo"; "notes.md"], File (Text "notes"))];
     denied := {[ ["repo"; ".ai"; "skills"; "foo"; "SKILL.md"] ]};
     ticks := 0; unreached := ∅ |}.

Lemma uninstallItem_failures :
  node_at blocked_world (canonical_node demo_env demo_item project (Some "/repo")) = None
  ∧ uninstallItem demo_env demo_item (claude demo_env) project (Some "/repo") blocked_world
    = (blocked_world, Returned false)
  ∧ (uninstallItem demo_env demo_item (claude demo_env) project (Some "/repo")
       half_protected_world).2 = Returned false
  ∧ nodes (uninstallItem demo_env demo_item (claude demo_env) project (Some "/repo")
             half_protected_world).1 !! ["repo"; ".ai"; "skills"; "foo"; "notes.md"]
    = None
  ∧ nodes (uninstallItem demo_env demo_item (claude demo_env) project (Some "/repo")
             half_protected_world).1 !! ["repo"; ".ai"; "skills"; "foo"; "SKILL.md"]
    = Some (File (Text demo_skill))
  ∧ nodes (uninstallItem demo_env demo_item (claude demo_env) project (Some "/repo")
             half_protected_world).1 !! ["repo"; ".ai"; "skills"; "foo"]
    = Some Dir.
Proof. repeat split; vm_compute; reflexivity. Qed.

(** ** Writing bridge files (bridge.ts) *)

Lemma parent_shorter (p : Path.resolved) : p ≠ [] → ¬ p `prefix_of` Path.parent p.
Proof.
  intros Hp Hpre. apply prefix_length in Hpre.
  destruct (exists_last Hp) as (q & x & ->).
  unfold Path.parent in Hpre. rewrite removelast_last in Hpre.
  rewrite length_app in Hpre. simpl in Hpre. lia.
Qed.

Lemma parent_prefix (p : Path.resolved) : Path.parent p `prefix_of` p.
Proof.
  destruct p as [|x p]; [done|].
  destruct (exists_last (l:=x :: p)) as (q & y & ->); [done|].
  unfold Path.parent. rewrite removelast_last. by apply prefix_app_r.
Qed.

(** Creating the directory of [p] leaves [p] itself as it was. *)
Lemma mkdir_parent_keeps p w w' res :
  Fs.mkdir_p (Path.parent p) w = (w', res) → p ≠ [] → nodes w' !! p = nodes w !! p.
Proof.
  intros Hrun Hp.
  pose proof (mkdir_from_frame [] (Path.parent p) w) as (_ & _ & Hmono & Hnew).
  unfold Fs.mkdir_p in Hrun. rewrite Hrun in Hmono, Hnew. cbn [fst] in *.
  destruct (nodes w' !! p) as [n|] eqn:Hafter.
  - destruct (Hnew _ _ Hafter) as [?|(_ & _ & Hc)]; [done|].
    apply created_root in Hc as [_ Hpre]. by apply parent_shorter in Hpre.
  - destruct (nodes w !! p) as [n|] eqn:Hbefore; [|done].
    apply Hmono in Hbefore. congruence.
Qed.

(** What [writeBridgeFiles] does with one file when it does not
    overwrite. *)
Lemma writeBridgeFile_present env root file w n :
  node_at w (bridge_target env root file) = Some n →
  writeBridgeFile env root false file w = (w, Returned false).
Proof.
  intros Hnode. unfold writeBridgeFile, bind at 1, try_catch, bind at 1, Fs.access.
  rewrite Hnode. reflexivity.
Qed.

Lemma writeBridgeFile_absent env root file w :
  node_at w (bridge_target env root file) = None →
  writeBridgeFile env root false file w
  = match Fs.mkdir_p (Path.parent (bridge_target env root file)) w with
    | (w1, Returned _) =>
        match Fs.writeFile (bridge_target env root file) (Text (b_content file)) w1 with
        | (w2, Returned _) => (w2, Returned true)
        | (w2, Threw e) => (w2, Threw e)
        | (w2, IllTyped) => (w2, IllTyped)
        end
    | (w1, Threw e) => (w1, Threw e)
    | (w1, IllTyped) => (w1, IllTyped)
    end.
Proof.
  intros Hnode. unfold writeBridgeFile, bind at 1, try_catch, bind at 1, Fs.access.
  rewrite Hnode. unfold ret, bind.
  destruct (Fs.mkdir_p _ w) as [w1 [[]| |]]; reflexivity.
Qed.

(** A write that returned put the file in place, and changed nothing
    else; it can only have followed a successful [mkdir]. *)
Lemma writeFile_returned p c w w' :
  Fs.writeFile p c w = (w', Returned tt) →
  w' = with_nodes (insert p (File c)) w ∧ p ≠ [] ∧ p ∉ denied w.
Proof.
  unfold Fs.writeFile. intros Hrun.
  destruct (node_at w (Path.parent p)) as [[|c']|]; try done.
  destruct p as [|seg rest]; [done|]. cbn [node_at] in Hrun.
  destruct (nodes w !! (seg :: rest)) as [[|c']|];
    try done; destruct (decide (seg :: rest ∈ denied w)); try done;
    by injection Hrun as <-.
Qed.

Lemma writeFile_not_returned p c w w' res :
  Fs.writeFile p c w = (w', res) → res ≠ Returned tt → w' = w.
Proof.
  unfold Fs.writeFile. intros Hrun Hres.
  destruct (node_at w (Path.parent p)) as [[|c']|];
    [|by injection Hrun as <- _|by injection Hrun as <- _].
  destruct (node_at w p) as [[|c']|]; [by injection Hrun as <- _| |];
    (destruct (decide (p ∈ denied w)); [by injection Hrun as <- _|]);
    injection Hrun as _ <-; done.
Qed.

(** Without [overwrite], whatever was on the disk stays as it was,
    whether the call returns or throws. *)
Lemma writeBridgeFile_keeps env root file w k n :
  nodes w !! k = Some n →
  nodes (writeBridgeFile env root false file w).1 !! k = Some n.
Proof.
  intros Hk.
  destruct (node_at w (bridge_target env root file)) as [n'|] eqn:Hnode.
  { by rewrite (writeBridgeFile_present _ _ _ _ _ Hnode). }
  rewrite (writeBridgeFile_absent _ _ _ _ Hnode).
  pose proof (mkdir_from_frame [] (Path.parent (bridge_target env root file)) w)
    as (_ & _ & Hmono & _).
  unfold Fs.mkdir_p.
  destruct (Fs.mkdir_from [] _ w) as [w1 [[]| |]] eqn:Hmk; cbn [fst] in *; try by apply Hmono.
  destruct (Fs.writeFile _ _ w1) as [w2 [[]| |]] eqn:Hwrite; cbn [fst].
  - apply writeFile_returned in Hwrite as (-> & Hp & _). cbn.
    destruct (decide (k = bridge_target env root file)) as [->|Hne].
    + destruct (bridge_target env root file) as [|seg path] eqn:Htarget; [done|].
      cbn in Hnode. congruence.
    + rewrite lookup_insert_ne by done. by apply Hmono.
  - apply writeFile_not_returned in Hwrite as ->; [by apply Hmono | done].
  - apply writeFile_not_returned in Hwrite as ->; [by apply Hmono | done].
Qed.

Lemma writeBridgeLoop_keeps env root files written skipped w k n :
  nodes w !! k = Some n →
  nodes (writeBridgeLoop env root false files written skipped w).1 !! k = Some n.
Proof.
  revert written skipped w. induction files as [|file rest IH]; intros written skipped w Hk.
  { done. }
  cbn [writeBridgeLoop]. unfold bind.
  pose proof (writeBridgeFile_keeps env root file w k n Hk) as Hstep.
  destruct (writeBridgeFile env root false file w) as [w0 [[|]| |]]; cbn [fst] in *;
    try done; by apply IH.
Qed.

(** The loop over [l1 ++ l2] is the loop over [l1] followed, when that
    returns, by the loop over [l2]. *)
Lemma writeBridgeLoop_app env root overwrite l1 l2 written skipped w :
  writeBridgeLoop env root overwrite (l1 ++ l2) written skipped w
  = match writeBridgeLoop env root overwrite l1 written skipped w with
    | (w1, Returned (written1, skipped1)) =>
        writeBridgeLoop env root overwrite l2 written1 skipped1 w1
    | (w1, Threw e) => (w1, Threw e)
    | (w1, IllTyped) => (w1, IllTyped)
    end.
Proof.
  revert written skipped w. induction l1 as [|file l1 IH]; intros written skipped w.
  { reflexivity. }
  cbn [app writeBridgeLoop]. unfold bind.
  destruct (writeBridgeFile env root overwrite file w) as [w0 [[|]| |]];
    try reflexivity; apply IH.
Qed.

(** The lists the loop returns are the lists it was given, extended. *)
Lemma writeBridgeLoop_acc env root overwrite files written skipped w :
  writeBridgeLoop env root overwrite files written skipped w
  = match writeBridgeLoop env root overwrite files [] [] w with
    | (w', Returned (written', skipped')) =>
        (w', Returned (written ++ written', skipped ++ skipped'))
    | (w', Threw e) => (w', Threw e)
    | (w', IllTyped) => (w', IllTyped)
    end.
Proof.
  revert written skipped w. induction files as [|file rest IH]; intros written skipped w.
  { cbn. unfold ret. by rewrite !app_nil_r. }
  cbn [writeBridgeLoop]. unfold bind.
  destruct (writeBridgeFile env root overwrite file w) as [w0 [[|]| |]]; try reflexivity.
  - rewrite (IH (written ++ _)). rewrite (IH ([] ++ _) []).
    destruct (writeBridgeLoop env root overwrite rest [] [] w0) as [w' [[wr sk]| |]];
      try reflexivity.
    by rewrite app_nil_l, app_assoc.
  - rewrite (IH written). rewrite (IH [] ([] ++ _)).
    destruct (writeBridgeLoop env root overwrite rest [] [] w0) as [w' [[wr sk]| |]];
      try reflexivity.
    by rewrite app_nil_l, app_assoc.
Qed.

(** The disk as the first [i] files of a call leave it: what the call
    finds when it reaches file [i]. *)
Definition reached (env : Env) (files : list BridgeFile) (projectRoot : option string)
    (i : nat) (w : World) : World :=
  (writeBridgeFiles env (take i files) projectRoot None w).1.

Lemma node_at_keeps (w w' : World) p n :
  (∀ k n, nodes w !! k = Some n → nodes w' !! k = Some n) →
  node_at w p = Some n → node_at w' p = Some n.
Proof. intros Hmono. destruct p; [done|]. apply Hmono. Qed.

Lemma writeBridgeFile_returned env root file w w1 wrote :
  writeBridgeFile env root false file w = (w1, Returned wrote) →
  (wrote = false ∧ w1 = w ∧ is_Some (node_at w (bridge_target env root file)))
  ∨ (wrote = true
     ∧ node_at w (bridge_target env root file) = None
     ∧ nodes w1 !! bridge_target env root file = Some (File (Text (b_content file)))).
Proof.
  destruct (node_at w (bridge_target env root file)) as [n|] eqn:Hnode.
  - rewrite (writeBridgeFile_present _ _ _ _ _ Hnode). intros [= <- <-]. left. eauto.
  - rewrite (writeBridgeFile_absent _ _ _ _ Hnode).
    destruct (Fs.mkdir_p _ w) as [w0 [[]| |]]; try done.
    destruct (Fs.writeFile _ _ w0) as [w2 [[]| |]] eqn:Hwrite; try done.
    intros [= <- <-]. right. split; [done|]. split; [done|].
    apply writeFile_returned in Hwrite as (-> & _ & _). cbn.
    apply lookup_insert_eq.
Qed.

(** What a call that returned says of its first file. *)
Lemma writeBridgeLoop_head env root file rest w w' written skipped :
  writeBridgeLoop env root false (file :: rest) [] [] w = (w', Returned (written, skipped)) →
  (node_at w (bridge_target env root file) = None →
   nodes w' !! bridge_target env root file = Some (File (Text (b_content file)))
   ∧ filePath file ∈ written)
  ∧ (∀ n, node_at w (bridge_target env root file) = Some n →
     node_at w' (bridge_target env root file) = Some n ∧ filePath file ∈ skipped).
Proof.
  cbn [writeBridgeLoop]. unfold bind.
  destruct (writeBridgeFile env root false file w) as [w1 [wrote| |]] eqn:Hstep; try done.
  destruct (writeBridgeFile_returned _ _ _ _ _ _ Hstep)
    as [(-> & -> & Hpresent)|(-> & Habsent & Hwritten)].
  - rewrite writeBridgeLoop_acc.
    destruct (writeBridgeLoop env root false rest [] [] w) as [w2 [[wr sk]| |]] eqn:Hrest;
      try done.
    intros [= <- <- <-]. split.
    + intros Hnone. rewrite Hnone in Hpresent. by destruct Hpresent.
    + intros n Hn. split.
      * apply (node_at_keeps w); [|done]. intros k n' Hk.
        pose proof (writeBridgeLoop_keeps env root rest [] [] w k n' Hk) as Hkeep.
        by rewrite Hrest in Hkeep.
      * apply list_elem_of_here.
  - rewrite writeBridgeLoop_acc.
    destruct (writeBridgeLoop env root false rest [] [] w1) as [w2 [[wr sk]| |]] eqn:Hrest;
      try done.
    intros [= <- <- <-]. split.
    + intros _. split.
      * pose proof (writeBridgeLoop_keeps env root rest [] [] w1 _ _ Hwritten) as Hkeep.
        by rewrite Hrest in Hkeep.
      * apply list_elem_of_here.
    + intros n Hn. congruence.
Qed.

(** What a call that returned says of its lists, and of the files that
    were on the disk before it. *)
Lemma writeBridgeLoop_lists env root files w w' written skipped :
  writeBridgeLoop env root false files [] [] w = (w', Returned (written, skipped)) →
  written ++ skipped ≡ₚ map filePath files
  ∧ ∀ file, file ∈ files → is_Some (node_at w (bridge_target env root file)) →
      filePath file ∈ skipped.
Proof.
  revert w w' written skipped.
  induction files as [|file rest IH]; intros w w' written skipped.
  { intros [= <- <- <-]. split; [done|]. intros f Hf. by apply elem_of_nil in Hf. }
  intros Hrun. pose proof Hrun as Hhead. apply writeBridgeLoop_head in Hhead as [_ Hhead].
  revert Hrun. cbn [writeBridgeLoop]. unfold bind.
  pose proof (writeBridgeFile_keeps env root file w) as Hkeep.
  destruct (writeBridgeFile env root false file w) as [w1 [wrote| |]] eqn:Hstep; try done.
  cbn [fst] in Hkeep.
  assert (Hlater : ∀ wr sk w2,
            writeBridgeLoop env root false rest [] [] w1 = (w2, Returned (wr, sk)) →
            wr ++ sk ≡ₚ map filePath rest
            ∧ ∀ f, f ∈ rest → is_Some (node_at w (bridge_target env root f)) →
                filePath f ∈ sk).
  { intros wr sk w2 Hrest. destruct (IH _ _ _ _ Hrest) as [Hperm Hskipped].
    split; [done|]. intros f Hf [n Hn]. apply Hskipped; [done|].
    exists n. by apply (node_at_keeps w). }
  destruct wrote; rewrite writeBridgeLoop_acc;
    destruct (writeBridgeLoop env root false rest [] [] w1) as [w2 [[wr sk]| |]] eqn:Hrest;
    try done; destruct (Hlater _ _ _ eq_refl) as [Hperm Hskipped];
    intros [= <- <- <-]; cbn [map].
  - split.
    + cbn. by rewrite Hperm.
    + intros f [->|Hf]%elem_of_cons [n Hn]; [by apply (Hhead n)|].
      apply Hskipped; eauto.
  - split.
    + rewrite <- Hperm. symmetry. apply Permutation_middle.
    + intros f [->|Hf]%elem_of_cons [n Hn]; [by apply (Hhead n)|].
      apply list_elem_of_further. apply Hskipped; eauto.
Qed.

(** What a call that returned says of the file it reached at position
    [i]. *)
Lemma writeBridgeLoop_at env root files w w' written skipped i file :
  writeBridgeLoop env root false files [] [] w = (w', Returned (written, skipped)) →
  files !! i = Some file →
  (∀ n, node_at (writeBridgeLoop env root false (take i files) [] [] w).1
          (bridge_target env root file) = Some n →
     node_at w' (bridge_target env root file) = Some n ∧ filePath file ∈ skipped)
  ∧ (node_at (writeBridgeLoop env root false (take i files) [] [] w).1
       (bridge_target env root file) = None →
     nodes w' !! bridge_target env root file = Some (File (Text (b_content file)))
     ∧ filePath file ∈ written).
Proof.
  intros Hrun Hi. rewrite <- (take_drop_middle files i file Hi) in Hrun.
  rewrite writeBridgeLoop_app in Hrun.
  destruct (writeBridgeLoop env root false (take i files) [] [] w)
    as [wi [[wr1 sk1]| |]]; try done.
  rewrite writeBridgeLoop_acc in Hrun.
  destruct (writeBridgeLoop env root false (file :: drop (S i) files) [] [] wi)
    as [w2 [[wr2 sk2]| |]] eqn:Hrest; try done.
  injection Hrun as -> <- <-. cbn [fst].
  destruct (writeBridgeLoop_head _ _ _ _ _ _ _ _ Hrest) as [Habsent Hpresent].
  split.
  - intros n Hn. destruct (Hpresent n Hn). split; [done|].
    apply elem_of_app. by right.
  - intros Hnone. destruct (Habsent Hnone). split; [done|].
    apply elem_of_app. by right.
Qed.

(** Nothing is protected, and on the way to each target there is neither
    a file on the disk nor the target of another bridge file. *)
Definition bridge_clear (env : Env) (root : string) (files : list BridgeFile)
    (w : World) : Prop :=
  denied w = ∅
  ∧ ∀ file k, file ∈ files → k ≠ [] → k `prefix_of` Path.parent (bridge_target env root file) →
      (∀ c, nodes w !! k = Some (File c) → False)
      ∧ (∀ other, other ∈ files → k = bridge_target env root other → False).

Lemma writeBridgeLoop_returns env root all files w0 w written skipped :
  (∀ file, file ∈ files → file ∈ all) →
  bridge_clear env root all w0 →
  denied w = ∅ →
  (∀ k c, nodes w !! k = Some (File c) →
     nodes w0 !! k = Some (File c) ∨ ∃ other, other ∈ all ∧ k = bridge_target env root other) →
  ∃ w' written' skipped',
    writeBridgeLoop env root false files written skipped w
    = (w', Returned (written', skipped')).
Proof.
  intros Hsub [_ Hclear]. revert w written skipped Hsub.
  induction files as [|file rest IH]; intros w written skipped Hsub Hden Hfiles.
  { by eexists _, _, _. }
  assert (Hin : file ∈ all) by apply Hsub, list_elem_of_here.
  assert (Hrest : ∀ f, f ∈ rest → f ∈ all).
  { intros f Hf. by apply Hsub, list_elem_of_further. }
  cbn [writeBridgeLoop]. unfold bind.
  destruct (node_at w (bridge_target env root file)) as [n|] eqn:Hnode.
  { rewrite (writeBridgeFile_present _ _ _ _ _ Hnode). by apply IH. }
  rewrite (writeBridgeFile_absent _ _ _ _ Hnode).
  set (target := bridge_target env root file) in *.
  assert (Htarget : target ≠ []) by (intros Heq; by rewrite Heq in Hnode).
  destruct (mkdir_from_returns [] (Path.parent target) w) as (w1 & Hmk & Hdirs).
  { intros k [Hk Hpre]%created_root.
    destruct (nodes w !! k) as [[|c]|] eqn:Hnk.
    - by left.
    - destruct (Hclear file k Hin Hk Hpre) as [Hnofile Hnotarget].
      destruct (Hfiles k c Hnk) as [Hw0|(other & Hother & ->)].
      + destruct (Hnofile c Hw0).
      + destruct (Hnotarget other Hother eq_refl).
    - right. split; [done|]. rewrite Hden. set_solver. }
  pose proof (mkdir_from_frame [] (Path.parent target) w) as (Hden1 & _ & _ & Hnew).
  rewrite Hmk in Hden1, Hnew. cbn [fst] in Hden1, Hnew.
  unfold Fs.mkdir_p. rewrite Hmk.
  assert (Hwrite : Fs.writeFile target (Text (b_content file)) w1
                   = (with_nodes (insert target (File (Text (b_content file)))) w1,
                      Returned tt)).
  { unfold Fs.writeFile. rewrite (mkdir_p_dir _ _ _ Hmk).
    assert (Hkeep : nodes w1 !! target = None).
    { rewrite (mkdir_parent_keeps target w w1 _ Hmk Htarget).
      destruct target; [done|]. exact Hnode. }
    destruct target as [|seg path]; [done|]. cbn [node_at]. rewrite Hkeep.
    rewrite decide_False; [done|]. rewrite Hden1, Hden. set_solver. }
  rewrite Hwrite. apply IH; [done| |].
  - cbn. by rewrite Hden1.
  - intros k c. cbn. destruct (decide (k = target)) as [->|Hne].
    + intros _. right. by exists file.
    + rewrite lookup_insert_ne by done. intros Hk.
      destruct (Hnew _ _ Hk) as [Hw|[? _]]; [by apply Hfiles | done].
Qed.

(** The node of a bridge file for a call of [writeBridgeFiles]. *)
Definition bridge_node (env : Env) (projectRoot : option string) (file : BridgeFile)
  : Path.resolved :=
  bridge_target env (default (cwd env) projectRoot) file.

(** What is new after a file has been dealt with lies on the way to its
    target, the target included. *)
Lemma writeBridgeFile_new env root file w k n :
  nodes (writeBridgeFile env root false file w).1 !! k = Some n →
  nodes w !! k = Some n ∨ k `prefix_of` bridge_target env root file.
Proof.
  destruct (node_at w (bridge_target env root file)) as [n'|] eqn:Hnode.
  { rewrite (writeBridgeFile_present _ _ _ _ _ Hnode). by left. }
  rewrite (writeBridgeFile_absent _ _ _ _ Hnode).
  pose proof (mkdir_from_frame [] (Path.parent (bridge_target env root file)) w)
    as (_ & _ & _ & Hnew).
  unfold Fs.mkdir_p.
  assert (∀ w1, w1 = (Fs.mkdir_from [] (Path.parent (bridge_target env root file)) w).1 →
                nodes w1 !! k = Some n →
                nodes w !! k = Some n ∨ k `prefix_of` bridge_target env root file) as Hmk.
  { intros w1 -> Hk. destruct (Hnew k n Hk) as [?|(_ & _ & Hc)]; [by left|]. right.
    apply created_root in Hc as [_ Hpre]. etrans; [exact Hpre|apply parent_prefix]. }
  destruct (Fs.mkdir_from [] _ w) as [w1 [[]| |]] eqn:Hrun; cbn [fst] in *;
    try by apply Hmk.
  destruct (Fs.writeFile _ _ w1) as [w2 [[]| |]] eqn:Hwrite; cbn [fst].
  - apply writeFile_returned in Hwrite as (-> & _ & _). cbn.
    destruct (decide (k = bridge_target env root file)) as [->|Hne]; [by right|].
    rewrite lookup_insert_ne by done. by apply Hmk.
  - apply writeFile_not_returned in Hwrite as ->; [by apply Hmk | done].
  - apply writeFile_not_returned in Hwrite as ->; [by apply Hmk | done].
Qed.

Lemma writeBridgeLoop_new env root files written skipped w k n :
  nodes (writeBridgeLoop env root false files written skipped w).1 !! k = Some n →
  nodes w !! k = Some n
  ∨ ∃ file, file ∈ files ∧ k `prefix_of` bridge_target env root file.
Proof.
  revert written skipped w. induction files as [|file rest IH]; intros written skipped w.
  { by left. }
  cbn [writeBridgeLoop]. unfold bind.
  pose proof (writeBridgeFile_new env root file w k n) as Hstep.
  assert (∀ w0, w0 = (writeBridgeFile env root false file w).1 →
                nodes w0 !! k = Some n →
                nodes w !! k = Some n
                ∨ ∃ other, other ∈ file :: rest ∧ k `prefix_of` bridge_target env root other)
    as Hfirst.
  { intros w0 -> Hk. destruct (Hstep Hk) as [?|?]; [by left|]. right.
    exists file. split; [apply list_elem_of_here|done]. }
  assert (∀ written skipped w0, w0 = (writeBridgeFile env root false file w).1 →
            nodes (writeBridgeLoop env root false rest written skipped w0).1 !! k = Some n →
            nodes w !! k = Some n
            ∨ ∃ other, other ∈ file :: rest ∧ k `prefix_of` bridge_target env root other)
    as Hrest.
  { intros written' skipped' w0 Hw0 Hk.
    destruct (IH _ _ _ Hk) as [Hk0|(other & Hother & Hpre)].
    - by apply (Hfirst w0).
    - right. exists other. split; [by apply list_elem_of_further|done]. }
  destruct (writeBridgeFile env root false file w) as [w0 [[|]| |]]; cbn [fst] in *;
    try (by apply (Hfirst w0)); by apply (Hrest _ _ w0).
Qed.

(** No target of the list is on the way to the target of another file
    of the list, or the same as it. *)
Definition targets_apart (env : Env) (projectRoot : option string)
    (files : list BridgeFile) : Prop :=
  ∀ i j file other, files !! i = Some file → files !! j = Some other → i ≠ j →
    ¬ bridge_node env projectRoot file `prefix_of` bridge_node env projectRoot other.

(** With targets apart, a target that was not there before the call is
    not there when the call reaches its file. *)
Lemma reached_absent env files projectRoot w i file :
  targets_apart env projectRoot files →
  files !! i = Some file →
  node_at w (bridge_node env projectRoot file) = None →
  node_at (reached env files projectRoot i w) (bridge_node env projectRoot file) = None.
Proof.
  intros Hapart Hi Hnone. unfold reached, writeBridgeFiles. cbn [default].
  set (wi := (writeBridgeLoop env (default (cwd env) projectRoot) false (take i files)
                [] [] w).1).
  assert (∀ n, nodes wi !! bridge_node env projectRoot file = Some n → False) as Hnot.
  { intros n Hnode.
    apply writeBridgeLoop_new in Hnode as [Hold|(other & Hother & Hpre)].
    - destruct (bridge_node env projectRoot file); [done|]. cbn [node_at] in Hnone.
      congruence.
    - apply list_elem_of_lookup in Hother as [j Hj].
      apply lookup_take_Some in Hj as [Hj Hlt].
      by destruct (Hapart i j file other Hi Hj); [lia|]. }
  destruct (bridge_node env projectRoot file) as [|seg rest]; [done|]. cbn [node_at].
  destruct (nodes wi !! (seg :: rest)) as [n|]; [|done].
  destruct (Hnot n eq_refl).
Qed.

(** C8, as the code has it. Let [writeBridgeFiles(files, projectRoot)],
    with [overwrite] left out, return [written] and [skipped]. Then
    whatever was on the disk before the call is there unchanged; the path
    of every file whose target was on the disk before the call is in
    [skipped]; a file whose target is there when the call reaches it
    keeps what is there and has its path in [skipped]; a file whose
    target is not there when the call reaches it is written with its
    content and has its path in [written]; when no target of the list is
    the target of another file of the list or on the way to it, every
    file whose target was not on the disk before the call is written
    with its content and has its path in [written]; and [written] with
    [skipped] is a rearrangement of the input paths. The call does
    return when nothing is protected and neither a file on the disk nor
    another target lies on the way to a target. *)
Theorem writeBridgeFiles_no_clobber env (files : list BridgeFile)
    (projectRoot : option string) (w : World) :
  (∀ w' written skipped,
     writeBridgeFiles env files projectRoot None w = (w', Returned (written, skipped)) →
     (∀ k n, nodes w !! k = Some n → nodes w' !! k = Some n)
     ∧ (∀ file, file ∈ files → is_Some (node_at w (bridge_node env projectRoot file)) →
        filePath file ∈ skipped)
     ∧ (∀ i file, files !! i = Some file →
        (∀ n, node_at (reached env files projectRoot i w) (bridge_node env projectRoot file)
                = Some n →
           node_at w' (bridge_node env projectRoot file) = Some n
           ∧ filePath file ∈ skipped)
        ∧ (node_at (reached env files projectRoot i w) (bridge_node env projectRoot file)
             = None →
           nodes w' !! bridge_node env projectRoot file
             = Some (File (Text (b_content file)))
           ∧ filePath file ∈ written))
     ∧ (targets_apart env projectRoot files →
        ∀ file, file ∈ files →
          node_at w (bridge_node env projectRoot file) = None →
          nodes w' !! bridge_node env projectRoot file
            = Some (File (Text (b_content file)))
          ∧ filePath file ∈ written)
     ∧ written ++ skipped ≡ₚ map filePath files)
  ∧ (bridge_clear env (default (cwd env) projectRoot) files w →
     ∃ w' written skipped,
       writeBridgeFiles env files projectRoot None w = (w', Returned (written, skipped))).
Proof.
  split.
  - intros w' written skipped Hrun.
    assert (∀ i file, files !! i = Some file →
              (∀ n, node_at (reached env files projectRoot i w)
                      (bridge_node env projectRoot file) = Some n →
                 node_at w' (bridge_node env projectRoot file) = Some n
                 ∧ filePath file ∈ skipped)
              ∧ (node_at (reached env files projectRoot i w)
                   (bridge_node env projectRoot file) = None →
                 nodes w' !! bridge_node env projectRoot file
                   = Some (File (Text (b_content file)))
                 ∧ filePath file ∈ written)) as Hat.
    { intros i file Hi. unfold reached, bridge_node, writeBridgeFiles. cbn [default].
      by apply (writeBridgeLoop_at _ _ _ _ _ _ _ _ _ Hrun). }
    unfold writeBridgeFiles in Hrun. cbn [default] in Hrun.
    destruct (writeBridgeLoop_lists _ _ _ _ _ _ _ Hrun) as [Hperm Hskipped].
    split.
    { intros k n Hk.
      pose proof (writeBridgeLoop_keeps env (default (cwd env) projectRoot) files [] [] w
                    k n Hk) as Hkeep.
      by rewrite Hrun in Hkeep. }
    split; [exact Hskipped|]. split; [exact Hat|]. split; [|exact Hperm].
    intros Hapart file Hin Hnone.
    apply list_elem_of_lookup in Hin as [i Hi].
    apply (Hat i file Hi). by apply reached_absent.
  - intros Hclear. unfold writeBridgeFiles. cbn [default].
    apply (writeBridgeLoop_returns env _ files files w); auto.
    apply Hclear.
Qed.

(** Writing the bridge files of Claude Code and of the universal family
    twice, the user having edited [CLAUDE.md] in between. *)
Definition demo_bridges : list BridgeFile :=
  [ {| editorId := "claude"; filePath := "CLAUDE.md";
       b_content := "# CLAUDE.md"; b_description := "Claude Code context file" |};
    {| editorId := "universal"; filePath := "AGENTS.md";
       b_content := "# AGENTS.md";
       b_description := "Universal agents context file (Codex, Amp, OpenCode, etc.)" |} ].

Definition bridges_written : World :=
  (writeBridgeFiles demo_env demo_bridges (Some "/repo") None empty_world).1.

Definition bridges_edited : World :=
  with_nodes (insert ["repo"; "CLAUDE.md"] (File (Text "# My own notes"))) bridges_written.

(** The targets of these two lie apart. *)
Lemma demo_bridges_apart : targets_apart demo_env (Some "/repo") demo_bridges.
Proof.
  intros i j file other Hi Hj Hne Hpre.
  destruct i as [|[|i]], j as [|[|j]]; try done;
    injection Hi as <-; injection Hj as <-;
    vm_compute in Hpre; destruct Hpre as [rest Hrest]; discriminate.
Qed.

Lemma writeBridgeFiles_no_clobber_witness :
  writeBridgeFiles demo_env demo_bridges (Some "/repo") None empty_world
    = (bridges_written, Returned (["CLAUDE.md"; "AGENTS.md"], []))
  ∧ nodes bridges_written !! ["repo"; "AGENTS.md"] = Some (File (Text "# AGENTS.md"))
  ∧ ∃ w',
      writeBridgeFiles demo_env demo_bridges (Some "/repo") None bridges_edited
        = (w', Returned ([], ["CLAUDE.md"; "AGENTS.md"]))
      ∧ nodes w' !! ["repo"; "CLAUDE.md"] = Some (File (Text "# My own notes")).
Proof.
  split; [vm_compute; reflexivity|]. split.
  { destruct (writeBridgeFiles_no_clobber demo_env demo_bridges (Some "/repo") empty_world)
      as [Hreturned _].
    destruct (Hreturned bridges_written ["CLAUDE.md"; "AGENTS.md"] [])
      as (_ & _ & _ & Hwritten & _); [vm_compute; reflexivity|].
    apply (Hwritten demo_bridges_apart
             {| editorId := "universal"; filePath := "AGENTS.md";
                b_content := "# AGENTS.md";
                b_description :=
                  "Universal agents context file (Codex, Amp, OpenCode, etc.)" |}).
    - apply list_elem_of_further, list_elem_of_here.
    - vm_compute. reflexivity. }
  destruct (writeBridgeFiles_no_clobber demo_env demo_bridges (Some "/repo") bridges_edited)
    as [Hreturned _].
  eexists. split; [vm_compute; reflexivity|].
  eapply Hreturned; [vm_compute; reflexivity|].
  vm_compute. reflexivity.
Defined.

(** Two bridge files for one path. *)
Definition twin_bridges : list BridgeFile :=
  [ {| editorId := "universal"; filePath := "AGENTS.md";
       b_content := "# one"; b_description := "Universal agents context file" |};
    {| editorId := "codex"; filePath := "AGENTS.md";
       b_content := "# two"; b_description := "Codex context file" |} ].

Lemma writeBridgeFiles_skips_shared_target :
  node_at empty_world ["repo"; "AGENTS.md"] = None
  ∧ map (bridge_node demo_env (Some "/repo")) twin_bridges
    = [["repo"; "AGENTS.md"]; ["repo"; "AGENTS.md"]]
  ∧ (writeBridgeFiles demo_env twin_bridges (Some "/repo") None empty_world).2
    = Returned (["AGENTS.md"], ["AGENTS.md"])
  ∧ nodes (writeBridgeFiles demo_env twin_bridges (Some "/repo") None empty_world).1
      !! ["repo"; "AGENTS.md"]
    = Some (File (Text "# one")).
Proof. repeat split; vm_compute; reflexivity. Qed.

(** ** Installing (installer.ts) *)

(** *** Calls that stay within the types *)

Definition well_typed {A} (m : M A) : Prop := ∀ w, (m w).2 ≠ IllTyped.

Lemma well_typed_ret {A} (a : A) : well_typed (ret a).
Proof. by intros w. Qed.

Lemma well_typed_throw {A} e : well_typed (@throw A e).
Proof. by intros w. Qed.

Lemma well_typed_bind {A B} (m : M A) (k : A → M B) :
  well_typed m → (∀ a, well_typed (k a)) → well_typed (bind m k).
Proof.
  intros Hm Hk w. unfold bind. specialize (Hm w).
  destruct (m w) as [w1 [a| |]]; cbn in *; [apply Hk | done | done].
Qed.

Lemma well_typed_try_catch {A} (m : M A) (handler : string → M A) :
  well_typed m → (∀ e, well_typed (handler e)) → well_typed (try_catch m handler).
Proof.
  intros Hm Hh w. unfold try_catch. specialize (Hm w).
  destruct (m w) as [w1 [a| |]]; cbn in *; [done | apply Hh | done].
Qed.

Lemma well_typed_mkdir_from base todo : well_typed (Fs.mkdir_from base todo).
Proof.
  revert base. induction todo as [|seg rest IH]; intros base w; [done|].
  simpl. destruct (nodes w !! (base ++ [seg])) as [[|c]|]; [apply IH | done |].
  destruct (decide _); [done | apply IH].
Qed.

Lemma well_typed_writeFile p c : well_typed (Fs.writeFile p c).
Proof.
  intros w. unfold Fs.writeFile.
  destruct (node_at w (Path.parent p)) as [[|?]|]; [|done|done].
  destruct (node_at w p) as [[|?]|]; [done| |]; by destruct (decide _).
Qed.

(** Induction on a directory tree. *)
Lemma Tree_induction (P : Tree → Prop) :
  (∀ content, P (TFile content)) →
  (∀ entries, Forall (λ e, P e.2) entries → P (TDir entries)) →
  ∀ t, P t.
Proof.
  intros Hfile Hdir. fix IH 1. intros [content|entries]; [apply Hfile|].
  apply Hdir. revert entries. fix IHentries 1. intros [|[name t] entries].
  - constructor.
  - constructor; [apply IH | apply IHentries].
Qed.

(** The loop of [copyDir] over the entries of a directory. *)
Definition copyEntries (entries : list (string * Tree)) (dest : Path.resolved) : M unit :=
  (fix each (entries : list (string * Tree)) : M unit :=
     match entries with
     | [] => ret tt
     | (name, entry) :: rest => copyTree entry (dest ++ [name]) ;;; each rest
     end) entries.

Lemma copyTree_dir entries dest :
  copyTree (TDir entries) dest = bind (ensureDir dest) (λ _, copyEntries entries dest).
Proof. reflexivity. Qed.

Lemma copyEntries_cons name entry rest dest :
  copyEntries ((name, entry) :: rest) dest
  = bind (copyTree entry (dest ++ [name])) (λ _, copyEntries rest dest).
Proof. reflexivity. Qed.

Lemma well_typed_copyTree t : ∀ dest, well_typed (copyTree t dest).
Proof.
  induction t as [content|entries Hentries] using Tree_induction; intros dest.
  - apply well_typed_writeFile.
  - rewrite copyTree_dir. apply well_typed_bind; [apply well_typed_mkdir_from|].
    intros _.
    induction Hentries as [|[name t] entries Ht Hentries IHentries];
      [apply well_typed_ret|].
    rewrite copyEntries_cons. apply well_typed_bind; [apply Ht | done].
Qed.

(** *** What a copy touches *)

(** From [w] to [w'] nothing changed but at or below [dest], and on the
    way to [dest] where a missing directory was created. *)
Definition touches_below (dest : Path.resolved) (w w' : World) : Prop :=
  denied w' = denied w
  ∧ ∀ k, nodes w' !! k = nodes w !! k
         ∨ dest `prefix_of` k
         ∨ (k `prefix_of` dest ∧ nodes w !! k = None ∧ nodes w' !! k = Some Dir).

Definition touching {A} (dest : Path.resolved) (m : M A) : Prop :=
  ∀ w, touches_below dest w (m w).1.

Lemma touches_below_refl dest w : touches_below dest w w.
Proof. split; [done|]. intros k. by left. Qed.

Lemma touches_below_trans dest w1 w2 w3 :
  touches_below dest w1 w2 → touches_below dest w2 w3 → touches_below dest w1 w3.
Proof.
  intros [Hd1 H1] [Hd2 H2]. split; [congruence|]. intros k.
  destruct (H2 k) as [Heq2|[Hbelow|(Hpre & Hnone & Hdir)]]; [|by right; left|].
  - destruct (H1 k) as [Heq1|[Hbelow|(Hpre & Hnone & Hdir)]].
    + left. congruence.
    + right. by left.
    + right. right. split; [done|]. split; [done|]. congruence.
  - destruct (H1 k) as [Heq1|[Hbelow|(_ & _ & Hdir1)]].
    + right. right. split; [done|]. split; [congruence | done].
    + right. by left.
    + congruence.
Qed.

Lemma touches_below_weaken dest name w w' :
  touches_below (dest ++ [name]) w w' → touches_below dest w w'.
Proof.
  intros [Hd H]. split; [done|]. intros k.
  destruct (H k) as [Heq|[Hbelow|(Hpre & Hnone & Hdir)]]; [by left| |].
  - right. left. by eapply prefix_app_l.
  - destruct (decide (k = dest ++ [name])) as [->|Hne].
    + right. left. by apply prefix_app_r.
    + right. right. split; [|done].
      destruct Hpre as [l Hl]. destruct l as [|x l] using rev_ind.
      * rewrite app_nil_r in Hl. done.
      * rewrite app_assoc in Hl. apply app_inj_tail in Hl as [-> _].
        by apply prefix_app_r.
Qed.

Lemma touching_ret {A} dest (a : A) : touching dest (ret a).
Proof. intros w. apply touches_below_refl. Qed.

Lemma touching_throw {A} dest e : touching dest (@throw A e).
Proof. intros w. apply touches_below_refl. Qed.

Lemma touching_bind {A B} dest (m : M A) (k : A → M B) :
  touching dest m → (∀ a, touching dest (k a)) → touching dest (bind m k).
Proof.
  intros Hm Hk w. unfold bind. specialize (Hm w).
  destruct (m w) as [w1 [a| |]]; cbn [fst] in *; [|done|done].
  eapply touches_below_trans; [exact Hm | apply Hk].
Qed.

Lemma touching_try_catch {A} dest (m : M A) (handler : string → M A) :
  touching dest m → (∀ e, touching dest (handler e)) → touching dest (try_catch m handler).
Proof.
  intros Hm Hh w. unfold try_catch. specialize (Hm w).
  destruct (m w) as [w1 [a| |]]; cbn [fst] in *; [done| |done].
  eapply touches_below_trans; [exact Hm | apply Hh].
Qed.

Lemma touching_mkdir_p dest : touching dest (Fs.mkdir_p dest).
Proof.
  intros w. pose proof (mkdir_from_frame [] dest w) as (Hd & _ & Hmono & Hnew).
  unfold Fs.mkdir_p. split; [done|]. intros k.
  destruct (nodes (Fs.mkdir_from [] dest w).1 !! k) as [n|] eqn:Hafter.
  - destruct (Hnew _ _ Hafter) as [Hsame|(-> & Hnone & Hc)]; [left; congruence|].
    right. right. apply created_root in Hc as [_ Hpre]. done.
  - destruct (nodes w !! k) as [n|] eqn:Hbefore; [|by left].
    apply Hmono in Hbefore. congruence.
Qed.

Lemma touching_writeFile dest c : touching dest (Fs.writeFile dest c).
Proof.
  intros w. destruct (Fs.writeFile dest c w) as [w' res] eqn:Hrun.
  assert (Hcases : res = Returned tt ∨ res ≠ Returned tt).
  { destruct res as [[]| |]; [by left | by right | by right]. }
  destruct Hcases as [->|Hres].
  - apply writeFile_returned in Hrun as (-> & _ & _). split; [done|]. intros k. cbn.
    destruct (decide (k = dest)) as [->|Hne]; [by right; left|].
    left. by rewrite lookup_insert_ne.
  - apply writeFile_not_returned in Hrun as ->; [|done]. apply touches_below_refl.
Qed.

Lemma touching_weaken {A} dest name (m : M A) :
  touching (dest ++ [name]) m → touching dest m.
Proof. intros Hm w. eapply touches_below_weaken, Hm. Qed.

Lemma touching_copyTree t : ∀ dest, touching dest (copyTree t dest).
Proof.
  induction t as [content|entries Hentries] using Tree_induction; intros dest.
  - apply touching_writeFile.
  - rewrite copyTree_dir. apply touching_bind; [apply touching_mkdir_p|].
    intros _.
    induction Hentries as [|[name t] entries Ht Hentries IHentries];
      [apply touching_ret|].
    rewrite copyEntries_cons. apply touching_bind; [|done].
    eapply touching_weaken, Ht.
Qed.

(** *** One item *)

Lemma copyDir_returned env src dest w w' :
  copyDir env src dest w = (w', Returned tt) →
  ∃ entries, template_at env src = Some (TDir entries).
Proof.
  unfold copyDir, readdirTemplate.
  destruct (template_at env src) as [[content|entries]|]; [|by eauto|].
  - unfold bind, throw. destruct (ensureDir dest w) as [w1 [[]| |]]; done.
  - unfold bind, throw. destruct (ensureDir dest w) as [w1 [[]| |]]; done.
Qed.

Lemma touching_copyDir env src dest : touching dest (copyDir env src dest).
Proof.
  unfold copyDir, readdirTemplate.
  destruct (template_at env src) as [[content|entries]|].
  - apply touching_bind; [apply touching_mkdir_p|]. intros _.
    apply touching_bind; [apply touching_throw|]. intros _. apply touching_ret.
  - apply touching_copyTree.
  - apply touching_bind; [apply touching_mkdir_p|]. intros _.
    apply touching_bind; [apply touching_throw|]. intros _. apply touching_ret.
Qed.

Lemma well_typed_copyDir env src dest : well_typed (copyDir env src dest).
Proof.
  unfold copyDir, readdirTemplate.
  destruct (template_at env src) as [[content|entries]|].
  - apply well_typed_bind; [apply well_typed_mkdir_from|]. intros _.
    apply well_typed_bind; [apply well_typed_throw|]. intros _. apply well_typed_ret.
  - apply well_typed_copyTree.
  - apply well_typed_bind; [apply well_typed_mkdir_from|]. intros _.
    apply well_typed_bind; [apply well_typed_throw|]. intros _. apply well_typed_ret.
Qed.

(** The directory [installToAi] copies an item from, and the one it
    copies it to. *)
Definition source_node (env : Env) (item : CatalogItem) : Path.resolved :=
  Path.parent (on_disk env (getItemFilePath env (c_type item) (c_id item))).

Definition install_node (env : Env) (item : CatalogItem) (scope : InstallScope)
    (projectRoot : string) : Path.resolved :=
  on_disk env (getCanonicalPath env (c_type item) (c_id item) scope (Some projectRoot)).

(** [installToAi] never throws: it returns success with the canonical
    path when the copy went through, and failure with the message of the
    error when the copy threw. Either way it has touched nothing outside
    the canonical directory. *)
Lemma installToAi_returns env item scope projectRoot w :
  ∃ w',
    touches_below (install_node env item scope projectRoot) w w'
    ∧ ((installToAi env item scope projectRoot w
          = (w', Returned
                   (true,
                    getCanonicalPath env (c_type item) (c_id item) scope (Some projectRoot),
                    None))
        ∧ copyDir env (source_node env item) (install_node env item scope projectRoot) w
          = (w', Returned tt))
       ∨ ∃ message,
           installToAi env item scope projectRoot w
             = (w', Returned (false, EmptyString, Some message))
           ∧ copyDir env (source_node env item) (install_node env item scope projectRoot) w
             = (w', Threw message)).
Proof.
  unfold installToAi, installToCanonical, try_catch, bind.
  fold (source_node env item). fold (install_node env item scope projectRoot).
  pose proof (touching_copyDir env (source_node env item)
                (install_node env item scope projectRoot) w) as Htouch.
  pose proof (well_typed_copyDir env (source_node env item)
                (install_node env item scope projectRoot) w) as Htyped.
  destruct (copyDir env _ _ w) as [w' [[]|message|]]; cbn [fst snd] in *.
  - exists w'. split; [done|]. by left.
  - exists w'. split; [done|]. right. by exists message.
  - done.
Qed.

(** *** The lock file during an install *)

(** The disk lets the lock file be written exactly when its directory
    can be made, it is not protected, and no directory is in its place. *)
Lemma lock_writable_iff env scope projectRoot w :
  lock_writable env scope projectRoot w
  ↔ can_mkdir w [] (Path.parent (lock_node env scope projectRoot))
    ∧ lock_node env scope projectRoot ≠ []
    ∧ (lock_node env scope projectRoot ∉ denied w)
    ∧ nodes w !! (lock_node env scope projectRoot) ≠ Some Dir.
Proof.
  split.
  - intros [w' Hrun].
    apply writeLockFile_returned in Hrun as (w1 & Hmk & _ & Hp & Hden & Hdir).
    pose proof (mkdir_from_frame [] (Path.parent (lock_node env scope projectRoot)) w)
      as (Hd & _).
    unfold Fs.mkdir_p in Hmk. rewrite Hmk in Hd. cbn [fst] in Hd.
    split; [by eapply mkdir_from_returned|]. split; [done|].
    split; [by rewrite <- Hd|].
    by rewrite <- (mkdir_parent_keeps _ _ _ _ Hmk Hp).
  - intros (Hcan & Hp & Hden & Hdir).
    destruct (mkdir_from_returns _ _ _ Hcan) as (w1 & Hmk & _).
    pose proof (mkdir_from_frame [] (Path.parent (lock_node env scope projectRoot)) w)
      as (Hd & _).
    rewrite Hmk in Hd. cbn [fst] in Hd.
    exists (with_nodes
              (insert (lock_node env scope projectRoot)
                 (File (JsonText (json_of_LockFile emptyLockFile)))) w1).
    unfold writeLockFile, bind. fold (lock_node env scope projectRoot).
    unfold Fs.mkdir_p. rewrite Hmk. unfold Fs.writeFile.
    rewrite (mkdir_p_dir _ _ _ Hmk).
    rewrite <- (mkdir_parent_keeps _ _ _ _ Hmk Hp) in Hdir.
    destruct (lock_node env scope projectRoot) as [|seg rest]; [done|]. cbn [node_at].
    destruct (nodes w1 !! (seg :: rest)) as [[|c]|]; [done| |];
      (rewrite decide_False by (by rewrite Hd)); reflexivity.
Qed.

(** The lock file can be read as a lock file and written back. *)
Definition lock_safe (env : Env) (scope : InstallScope) (projectRoot : option string)
    (w : World) : Prop :=
  is_Some (LockFile_of_json (stored_doc w (lock_node env scope projectRoot)))
  ∧ lock_writable env scope projectRoot w.

(** Neither path leads to the other. *)
Definition apart (p q : Path.resolved) : Prop :=
  ¬ p `prefix_of` q ∧ ¬ q `prefix_of` p.

Lemma lock_safe_touched env scope projectRoot dest w w' :
  touches_below dest w w' →
  apart dest (lock_node env scope projectRoot) →
  lock_safe env scope projectRoot w → lock_safe env scope projectRoot w'.
Proof.
  intros [Hden Htouch] [Hnot1 Hnot2] [Htyped Hwritable].
  assert (Hsame : nodes w' !! lock_node env scope projectRoot
                  = nodes w !! lock_node env scope projectRoot).
  { destruct (Htouch (lock_node env scope projectRoot)) as [?|[?|[? _]]]; done. }
  split.
  - unfold stored_doc in *. destruct (lock_node env scope projectRoot); [done|].
    cbn [node_at] in *. by rewrite Hsame.
  - apply lock_writable_iff in Hwritable as (Hcan & Hp & Hd & Hdir).
    apply lock_writable_iff. split; [|split; [done|split; [by rewrite Hden|by rewrite Hsame]]].
    intros k Hk. pose proof Hk as [Hne Hpre]%created_root.
    destruct (Htouch k) as [Heq|[Hbelow|(_ & _ & Hnow)]].
    + rewrite Heq, Hden. by apply Hcan.
    + destruct Hnot1. etrans; [exact Hbelow|]. etrans; [exact Hpre|]. apply parent_prefix.
    + by left.
Qed.

Lemma lock_safe_nodes env scope projectRoot w w' :
  nodes w' = nodes w → denied w' = denied w →
  lock_safe env scope projectRoot w → lock_safe env scope projectRoot w'.
Proof.
  intros Hnodes Hden [Htyped Hwritable]. split.
  - unfold stored_doc, node_at in *. by rewrite Hnodes.
  - apply lock_writable_iff in Hwritable as (Hcan & Hp & Hd & Hdir).
    apply lock_writable_iff. rewrite Hnodes, Hden. split; [|done].
    intros k Hk. rewrite Hnodes, Hden. by apply Hcan.
Qed.

Lemma updateLockFile_safe env item scope projectRoot w :
  lock_safe env scope projectRoot w →
  ∃ w', updateLockFile env item scope projectRoot w = (w', Returned tt)
        ∧ lock_safe env scope projectRoot w'.
Proof.
  intros [[lockFile Htyped] Hwritable].
  rewrite (updateLockFile_run _ _ _ _ _ _ Htyped).
  destruct (writeLockFile_returns env (updated_lock lockFile item) _ _ _ Hwritable)
    as (w1 & Hmk & Hwrite & Hp).
  eexists. split; [exact Hwrite|].
  apply lock_writable_iff in Hwritable as (Hcan & _ & Hden & _).
  destruct (mkdir_from_returns _ _ _ Hcan) as (w1' & Hmk' & Hdirs).
  unfold Fs.mkdir_p in Hmk. rewrite Hmk in Hmk'. injection Hmk' as <-.
  pose proof (mkdir_from_frame [] (Path.parent (lock_node env scope projectRoot)) w)
    as (Hd & _).
  rewrite Hmk in Hd. cbn [fst] in Hd.
  split.
  - rewrite stored_doc_written by done. rewrite LockFile_of_json_of. eauto.
  - apply lock_writable_iff. cbn [nodes denied with_nodes].
    split; [|split; [done|split; [by rewrite Hd|by rewrite lookup_insert_eq]]].
    intros k Hk. left. cbn [nodes with_nodes].
    rewrite lookup_insert_ne; [by apply Hdirs|].
    intros <-. apply created_root in Hk as [_ Hpre]. by apply parent_shorter in Hpre.
Qed.

(** The body of the loop of [installItems] for one item, with the result
    it pushes. *)
Definition installOne (env : Env) (assistantIds : list string)
    (representative : option AssistantConfig) (scope : InstallScope)
    (projectRoot : string) (item : CatalogItem) : M InstallResult :=
  let! result := installToAi env item scope projectRoot in
  (if result.1.1 then
     let! hash := getContentHash env (getItemFilePath env (c_type item) (c_id item)) in
     let! installedAt := now env in
     updateLockFile env (installedItem item hash installedAt assistantIds scope)
       scope (Some projectRoot)
   else ret tt) ;;;
  ret {| r_success := result.1.1; r_item := item; r_assistant := representative;
         r_path := result.1.2; r_error := result.2 |}.

Lemma bind_assoc {A B C} (m : M A) (k : A → M B) (k' : B → M C) w :
  bind (bind m k) k' w = bind m (λ a, bind (k a) k') w.
Proof. unfold bind. destruct (m w) as [w1 [a| |]]; reflexivity. Qed.

Lemma bind_ext {A B} (m : M A) (k k' : A → M B) w :
  (∀ a w1, k a w1 = k' a w1) → bind m k w = bind m k' w.
Proof. intros Hk. unfold bind. destruct (m w) as [w1 [a| |]]; [apply Hk|done|done]. Qed.

Lemma installLoop_cons env assistantIds representative scope projectRoot item rest results w :
  installLoop env assistantIds representative scope projectRoot (item :: rest) results w
  = bind (installOne env assistantIds representative scope projectRoot item)
      (λ result,
         installLoop env assistantIds representative scope projectRoot rest
           (results ++ [result])) w.
Proof.
  cbn [installLoop]. unfold installOne. rewrite bind_assoc.
  apply bind_ext. intros [[success path] err] w1. cbn [fst snd].
  rewrite bind_assoc. apply bind_ext. intros _ w2. reflexivity.
Qed.

(** The result pushed for an item is what [installToAi] returned for it. *)
Lemma installOne_returned env assistantIds representative scope projectRoot item w w' r :
  installOne env assistantIds representative scope projectRoot item w = (w', Returned r) →
  (installToAi env item scope projectRoot w).2
    = Returned (r_success r, r_path r, r_error r)
  ∧ r_item r = item ∧ r_assistant r = representative.
Proof.
  unfold installOne. unfold bind at 1.
  destruct (installToAi env item scope projectRoot w) as [w1 [[[success path] err]| |]];
    try done.
  unfold bind at 1. cbn [fst snd].
  match goal with
  | |- (let (_, _) := ?X in _) = _ → _ => destruct X as [w2 [[]| |]]
  end; try done.
  by intros [= <- <-].
Qed.

(** What a result of [installItems] looks like: a success with the
    canonical path of its item and no error, or a failure with an error
    message and no path. *)
Definition result_shape (env : Env) (scope : InstallScope) (projectRoot : string)
    (r : InstallResult) : Prop :=
  (r_success r = true
   ∧ r_path r
     = getCanonicalPath env (c_type (r_item r)) (c_id (r_item r)) scope (Some projectRoot)
   ∧ r_error r = None)
  ∨ (r_success r = false ∧ r_path r = EmptyString ∧ ∃ message, r_error r = Some message).

Lemma installOne_shape env assistantIds representative scope projectRoot item w w' r :
  installOne env assistantIds representative scope projectRoot item w = (w', Returned r) →
  r_item r = item ∧ r_assistant r = representative ∧ result_shape env scope projectRoot r.
Proof.
  intros (Hres & Hitem & Hrep)%installOne_returned. split; [done|]. split; [done|].
  destruct (installToAi_returns env item scope projectRoot w)
    as (w1 & _ & [[Hrun _]|(message & Hrun & _)]);
    rewrite Hrun in Hres; injection Hres as Hs Hp He.
  - left. by rewrite Hitem.
  - right. eauto.
Qed.

Lemma installLoop_app env assistantIds representative scope projectRoot l1 l2 results w :
  installLoop env assistantIds representative scope projectRoot (l1 ++ l2) results w
  = match installLoop env assistantIds representative scope projectRoot l1 results w with
    | (w1, Returned results1) =>
        installLoop env assistantIds representative scope projectRoot l2 results1 w1
    | (w1, Threw e) => (w1, Threw e)
    | (w1, IllTyped) => (w1, IllTyped)
    end.
Proof.
  revert results w. induction l1 as [|item l1 IH]; intros results w; [done|].
  cbn [app]. rewrite !installLoop_cons. unfold bind.
  destruct (installOne env _ _ _ _ item w) as [w1 [r| |]]; [apply IH | done | done].
Qed.

Lemma installLoop_acc env assistantIds representative scope projectRoot items results w :
  installLoop env assistantIds representative scope projectRoot items results w
  = match installLoop env assistantIds representative scope projectRoot items [] w with
    | (w', Returned new) => (w', Returned (results ++ new))
    | (w', Threw e) => (w', Threw e)
    | (w', IllTyped) => (w', IllTyped)
    end.
Proof.
  revert results w. induction items as [|item rest IH]; intros results w.
  { cbn. unfold ret. by rewrite app_nil_r. }
  rewrite !installLoop_cons. unfold bind.
  destruct (installOne env _ _ _ _ item w) as [w1 [r| |]]; try done.
  rewrite (IH (results ++ [r])), (IH ([] ++ [r])).
  destruct (installLoop env _ _ _ _ rest [] w1) as [w' [new| |]]; try done.
  by rewrite app_nil_l, <- app_assoc.
Qed.

(** What a loop that returned has pushed: one result per item, in the
    order of the items. *)
Lemma installLoop_returned env assistantIds representative scope projectRoot items w w' new :
  installLoop env assistantIds representative scope projectRoot items [] w
    = (w', Returned new) →
  map r_item new = items
  ∧ Forall (λ r, r_assistant r = representative ∧ result_shape env scope projectRoot r) new.
Proof.
  revert w w' new. induction items as [|item rest IH]; intros w w' new.
  { intros [= <- <-]. by split. }
  rewrite installLoop_cons. unfold bind.
  destruct (installOne env _ _ _ _ item w) as [w1 [r| |]] eqn:Hone; try done.
  rewrite installLoop_acc.
  destruct (installLoop env _ _ _ _ rest [] w1) as [w2 [new'| |]] eqn:Hrest; try done.
  intros [= <- <-]. destruct (IH _ _ _ Hrest) as [Hitems Hshapes].
  apply installOne_shape in Hone as (Hitem & Hrep & Hshape).
  split; [cbn; by rewrite Hitem, Hitems|]. by constructor.
Qed.

(** The result at position [i] is what [installToAi] returned for item
    [i] on the disk as the items before it left it. *)
Lemma installLoop_at env assistantIds representative scope projectRoot items w w' new i item :
  installLoop env assistantIds representative scope projectRoot items [] w
    = (w', Returned new) →
  items !! i = Some item →
  ∃ r,
    new !! i = Some r
    ∧ (installToAi env item scope projectRoot
         (installLoop env assistantIds representative scope projectRoot (take i items) [] w).1).2
      = Returned (r_success r, r_path r, r_error r).
Proof.
  intros Hrun Hi. rewrite <- (take_drop_middle items i item Hi) in Hrun.
  rewrite installLoop_app in Hrun.
  destruct (installLoop env _ _ _ _ (take i items) [] w) as [wi [before| |]] eqn:Hbefore;
    try done.
  rewrite installLoop_cons in Hrun. unfold bind in Hrun.
  destruct (installOne env _ _ _ _ item wi) as [w1 [r| |]] eqn:Hone; try done.
  rewrite installLoop_acc in Hrun.
  destruct (installLoop env _ _ _ _ (drop (S i) items) [] w1) as [w2 [after| |]];
    try done.
  injection Hrun as <- <-.
  apply installLoop_returned in Hbefore as [Hlen _].
  apply (f_equal List.length) in Hlen. rewrite length_map, length_take in Hlen.
  apply lookup_lt_Some in Hi.
  exists r. split.
  - rewrite <- app_assoc. rewrite lookup_app_r by lia.
    replace (i - List.length before) with 0 by lia. done.
  - cbn [fst]. by apply installOne_returned in Hone as [? _].
Qed.

(** A template that has a directory has its content file in it. *)
Definition template_complete (env : Env) (item : CatalogItem) : Prop :=
  ∀ entries, template_at env (source_node env item) = Some (TDir entries) →
    ∃ content,
      template_at env (on_disk env (getItemFilePath env (c_type item) (c_id item)))
      = Some (TFile content).

Lemma installOne_safe env assistantIds representative scope projectRoot item w :
  lock_safe env scope (Some projectRoot) w →
  apart (install_node env item scope projectRoot) (lock_node env scope (Some projectRoot)) →
  template_complete env item →
  ∃ w' r,
    installOne env assistantIds representative scope projectRoot item w = (w', Returned r)
    ∧ lock_safe env scope (Some projectRoot) w'.
Proof.
  intros Hsafe Hapart Hcomplete. unfold installOne. unfold bind at 1.
  destruct (installToAi_returns env item scope projectRoot w)
    as (w1 & Htouch & [[-> Hcopy]|(message & -> & _)]); cbn [fst snd].
  - pose proof (lock_safe_touched _ _ _ _ _ _ Htouch Hapart Hsafe) as Hsafe1.
    apply copyDir_returned in Hcopy as [entries Hdir].
    destruct (Hcomplete entries Hdir) as [content Hfile].
    unfold bind at 1. unfold bind at 1.
    unfold getContentHash, readTemplate. rewrite Hfile. unfold bind at 1. cbn [ret].
    unfold bind at 1. cbn [now].
    set (w2 := {| nodes := nodes w1; denied := denied w1; ticks := S (ticks w1);
                  unreached := unreached w1 |}).
    destruct (updateLockFile_safe env
                (installedItem item (content_hash content) (clock env (ticks w1))
                   assistantIds scope)
                scope (Some projectRoot) w2) as (w3 & Hupdate & Hsafe3).
    { by apply (lock_safe_nodes _ _ _ w1). }
    rewrite Hupdate. by eexists _, _.
  - unfold bind, ret. eexists _, _. split; [done|].
    by apply (lock_safe_touched _ _ _ _ _ _ Htouch Hapart).
Qed.

Lemma installLoop_returns env assistantIds representative scope projectRoot items results w :
  lock_safe env scope (Some projectRoot) w →
  (∀ item, item ∈ items →
     apart (install_node env item scope projectRoot)
       (lock_node env scope (Some projectRoot))
     ∧ template_complete env item) →
  ∃ w' results',
    installLoop env assistantIds representative scope projectRoot items results w
    = (w', Returned results').
Proof.
  revert results w. induction items as [|item rest IH]; intros results w Hsafe Hitems.
  { by eexists _, _. }
  rewrite installLoop_cons. unfold bind.
  destruct (Hitems item) as [Hapart Hcomplete]; [apply list_elem_of_here|].
  destruct (installOne_safe env assistantIds representative scope projectRoot item w)
    as (w1 & r & -> & Hsafe1); auto.
  apply IH; [done|]. intros other Hother. by apply Hitems, list_elem_of_further.
Qed.

(** The disk as [installItems] leaves it after the first [i] items. *)
Definition install_reached (env : Env) (items : list CatalogItem)
    (assistants : list AssistantConfig) (scope : InstallScope) (method : InstallMethod)
    (projectRoot : option string) (i : nat) (w : World) : World :=
  (installItems env (take i items) assistants scope method projectRoot w).1.

Lemma installItems_world env items assistants scope method projectRoot w :
  (installItems env items assistants scope method projectRoot w).1
  = (installLoop env (map a_id assistants) (head assistants) scope
       (default (cwd env) projectRoot) items [] w).1.
Proof.
  unfold installItems, bind.
  by destruct (installLoop env _ _ _ _ items [] w) as [w' [new| |]].
Qed.

(** What [installItems] does for an item after its copy has gone
    through: it hashes the content file, reads the clock and updates the
    lock file. None of it is inside a [try]. *)
Definition record_install (env : Env) (assistants : list AssistantConfig)
    (scope : InstallScope) (projectRoot : string) (item : CatalogItem) : M unit :=
  let! hash := getContentHash env (getItemFilePath env (c_type item) (c_id item)) in
  let! installedAt := now env in
  updateLockFile env (installedItem item hash installedAt (map a_id assistants) scope)
    scope (Some projectRoot).

(** The result pushed for an item whose copy went through, and for one
    whose copy threw. *)
Definition copied (env : Env) (representative : option AssistantConfig)
    (scope : InstallScope) (projectRoot : string) (item : CatalogItem) : InstallResult :=
  {| r_success := true; r_item := item; r_assistant := representative;
     r_path := getCanonicalPath env (c_type item) (c_id item) scope (Some projectRoot);
     r_error := None |}.

Definition not_copied (representative : option AssistantConfig) (item : CatalogItem)
    (message : string) : InstallResult :=
  {| r_success := false; r_item := item; r_assistant := representative;
     r_path := ""; r_error := Some message |}.

(** [installToAi] turns the outcome of the copy into its result. *)
Lemma installToAi_run env item scope projectRoot w :
  installToAi env item scope projectRoot w
  = match copyDir env (source_node env item) (install_node env item scope projectRoot) w with
    | (w1, Returned _) =>
        (w1, Returned
               (true,
                getCanonicalPath env (c_type item) (c_id item) scope (Some projectRoot),
                None))
    | (w1, Threw message) => (w1, Returned (false, "", Some message))
    | (w1, IllTyped) => (w1, IllTyped)
    end.
Proof.
  unfold installToAi, installToCanonical, try_catch, bind.
  fold (source_node env item). fold (install_node env item scope projectRoot).
  by destruct (copyDir env _ _ w) as [w1 [[]|message|]].
Qed.

(** The body of the loop, by the outcome of the copy and of the update
    of the lock file. *)
Lemma installOne_run env assistants scope projectRoot item w :
  installOne env (map a_id assistants) (head assistants) scope projectRoot item w
  = match copyDir env (source_node env item) (install_node env item scope projectRoot) w with
    | (w1, Returned _) =>
        match record_install env assistants scope projectRoot item w1 with
        | (w2, Returned _) =>
            (w2, Returned (copied env (head assistants) scope projectRoot item))
        | (w2, Threw message) => (w2, Threw message)
        | (w2, IllTyped) => (w2, IllTyped)
        end
    | (w1, Threw message) => (w1, Returned (not_copied (head assistants) item message))
    | (w1, IllTyped) => (w1, IllTyped)
    end.
Proof.
  unfold installOne. unfold bind at 1. rewrite installToAi_run.
  destruct (copyDir env _ _ w) as [w1 [[]|message|]]; [|done|done].
  cbn [fst snd]. unfold bind at 1. fold (record_install env assistants scope projectRoot item).
  by destruct (record_install env assistants scope projectRoot item w1) as [w2 [[]|e|]].
Qed.

Lemma installItems_run env items assistants scope method projectRoot w :
  installItems env items assistants scope method projectRoot w
  = match installLoop env (map a_id assistants) (head assistants) scope
            (default (cwd env) projectRoot) items [] w with
    | (w', Returned results) =>
        (w', Returned
               {| total := List.length results;
                  successful := List.length (filter (λ r, r_success r = true) results);
                  failed :=
                    List.length results
                    - List.length (filter (λ r, r_success r = true) results);
                  results := results |})
    | (w', Threw message) => (w', Threw message)
    | (w', IllTyped) => (w', IllTyped)
    end.
Proof.
  unfold installItems, bind.
  by destruct (installLoop env _ _ _ _ items [] w) as [w' [new| |]].
Qed.

(** A loop that throws has come to an item whose copy went through and
    whose entry in the lock file could not be made. *)
Lemma installLoop_threw env assistants scope projectRoot items results w w' message :
  installLoop env (map a_id assistants) (head assistants) scope projectRoot items results w
    = (w', Threw message)
  ↔ ∃ i item wi before w1,
      items !! i = Some item
      ∧ installLoop env (map a_id assistants) (head assistants) scope projectRoot
          (take i items) results w = (wi, Returned before)
      ∧ copyDir env (source_node env item) (install_node env item scope projectRoot) wi
        = (w1, Returned tt)
      ∧ record_install env assistants scope projectRoot item w1 = (w', Threw message).
Proof.
  split.
  - revert results w. induction items as [|item rest IH]; intros results w; [done|].
    rewrite installLoop_cons. unfold bind. rewrite installOne_run.
    destruct (copyDir env _ _ w) as [w1 [[]|e|]] eqn:Hcopy; [| |done].
    + destruct (record_install env assistants scope projectRoot item w1)
        as [w2 [[]|e|]] eqn:Hrecord; [| |done].
      * intros (i & next & wi & before & w3 & Hi & Hbefore & Hnext & Hthrew)%IH.
        exists (S i), next, wi, before, w3. split; [done|]. split; [|done].
        cbn [take]. rewrite installLoop_cons. unfold bind. rewrite installOne_run.
        by rewrite Hcopy, Hrecord.
      * intros [= <- <-]. by exists 0, item, w, results, w1.
    + intros (i & next & wi & before & w3 & Hi & Hbefore & Hnext & Hthrew)%IH.
      exists (S i), next, wi, before, w3. split; [done|]. split; [|done].
      cbn [take]. rewrite installLoop_cons. unfold bind. rewrite installOne_run.
      by rewrite Hcopy.
  - intros (i & item & wi & before & w1 & Hi & Hbefore & Hcopy & Hthrew).
    rewrite <- (take_drop_middle items i item Hi). rewrite installLoop_app, Hbefore.
    rewrite installLoop_cons. unfold bind. rewrite installOne_run.
    by rewrite Hcopy, Hthrew.
Qed.

(** C7, as the code has it. [installToAi] never throws: a copy that
    throws becomes a result with [success = false], no path and the
    message of the error, a copy that goes through a result with
    [success = true] and the canonical path. When [installItems] returns,
    its results are one per item, in the order of the items, each being
    what the copy of its item gave on the disk as the items before it
    had left it, so that an item without a template directory has a
    failed result whatever the disk, and [total], [successful] and
    [failed] count them as stated. A failure after the copy is not
    recorded: [installItems] throws exactly when it has come to an item
    whose copy went through and whose content hash or lock file update
    threw, and then with that error, the items before it having been
    dealt with. [installItems] does return when the lock file can be read
    as one and written, every canonical directory lies apart from the
    lock file, and every template that has a directory has its content
    file. *)
Theorem installItems_records_failures env (items : list CatalogItem)
    (assistants : list AssistantConfig) (scope : InstallScope) (method : InstallMethod)
    (projectRoot : option string) (w : World) :
  (∀ item w0 w1,
     (copyDir env (source_node env item)
        (install_node env item scope (default (cwd env) projectRoot)) w0
        = (w1, Returned tt) →
      installToAi env item scope (default (cwd env) projectRoot) w0
      = (w1, Returned
               (true,
                getCanonicalPath env (c_type item) (c_id item) scope
                  (Some (default (cwd env) projectRoot)),
                None)))
     ∧ (∀ message,
          copyDir env (source_node env item)
            (install_node env item scope (default (cwd env) projectRoot)) w0
            = (w1, Threw message) →
          installToAi env item scope (default (cwd env) projectRoot) w0
          = (w1, Returned (false, "", Some message))))
  ∧ (∀ w' summary,
       installItems env items assistants scope method projectRoot w = (w', Returned summary) →
       total summary = List.length items
       ∧ successful summary
         = List.length (filter (λ r, r_success r = true) (results summary))
       ∧ failed summary = total summary - successful summary
       ∧ map r_item (results summary) = items
       ∧ Forall (λ r, r_assistant r = head assistants) (results summary)
       ∧ (∀ i item, items !! i = Some item →
           ∃ r w1,
             results summary !! i = Some r
             ∧ ((copyDir env (source_node env item)
                   (install_node env item scope (default (cwd env) projectRoot))
                   (install_reached env items assistants scope method projectRoot i w)
                   = (w1, Returned tt)
                 ∧ r_success r = true
                 ∧ r_path r
                   = getCanonicalPath env (c_type item) (c_id item) scope
                       (Some (default (cwd env) projectRoot))
                 ∧ r_error r = None)
                ∨ ∃ message,
                    copyDir env (source_node env item)
                      (install_node env item scope (default (cwd env) projectRoot))
                      (install_reached env items assistants scope method projectRoot i w)
                      = (w1, Threw message)
                    ∧ r_success r = false ∧ r_path r = "" ∧ r_error r = Some message))
       ∧ ∀ i item, items !! i = Some item →
           (∀ entries, template_at env (source_node env item) ≠ Some (TDir entries)) →
           ∃ r message,
             results summary !! i = Some r
             ∧ r_success r = false ∧ r_path r = "" ∧ r_error r = Some message)
  ∧ (∀ w' message,
       installItems env items assistants scope method projectRoot w = (w', Threw message)
       ↔ ∃ i item wi summary w1,
           items !! i = Some item
           ∧ installItems env (take i items) assistants scope method projectRoot w
             = (wi, Returned summary)
           ∧ copyDir env (source_node env item)
               (install_node env item scope (default (cwd env) projectRoot)) wi
             = (w1, Returned tt)
           ∧ record_install env assistants scope (default (cwd env) projectRoot) item w1
             = (w', Threw message))
  ∧ (lock_safe env scope (Some (default (cwd env) projectRoot)) w →
     (∀ item, item ∈ items →
        apart (install_node env item scope (default (cwd env) projectRoot))
          (lock_node env scope (Some (default (cwd env) projectRoot)))
        ∧ template_complete env item) →
     ∃ w' summary,
       installItems env items assistants scope method projectRoot w = (w', Returned summary)).
Proof.
  split; [|split; [|split]].
  - intros item w0 w1. rewrite installToAi_run. split.
    + by intros ->.
    + by intros message ->.
  - intros w' summary. unfold install_reached. rewrite installItems_run.
    destruct (installLoop env _ _ _ _ items [] w) as [w1 [new| |]] eqn:Hloop; try done.
    intros [= <- <-]. cbn [total successful failed results].
    destruct (installLoop_returned _ _ _ _ _ _ _ _ _ Hloop) as [Hitems Hshapes].
    split; [by rewrite <- Hitems, length_map|]. split; [done|]. split; [done|].
    split; [done|]. split.
    { eapply Forall_impl; [exact Hshapes|]. by intros r [? _]. }
    split.
    + intros i item Hi. rewrite installItems_world.
      destruct (installLoop_at _ _ _ _ _ _ _ _ _ _ _ Hloop Hi) as (r & Hr & Hresult).
      rewrite installToAi_run in Hresult.
      destruct (copyDir env _ _ _) as [w2 [[]|message|]]; [| |done].
      * injection Hresult as Hsuccess Hpath Herror. exists r, w2. split; [done|]. by left.
      * injection Hresult as Hsuccess Hpath Herror. exists r, w2. split; [done|].
        right. by exists message.
    + intros i item Hi Hmissing.
      destruct (installLoop_at _ _ _ _ _ _ _ _ _ _ _ Hloop Hi) as (r & Hr & Hresult).
      rewrite installToAi_run in Hresult.
      destruct (copyDir env _ _ _) as [w2 [[]|message|]] eqn:Hcopy; [| |done].
      * apply copyDir_returned in Hcopy as [entries Hdir]. by destruct (Hmissing entries).
      * injection Hresult as Hsuccess Hpath Herror. by exists r, message.
  - intros w' message. rewrite installItems_run.
    destruct (installLoop env _ _ _ _ items [] w) as [w1 [new|e|]] eqn:Hloop.
    + split; [done|].
      intros (i & item & wi & summary & w2 & Hi & Hbefore & Hcopy & Hthrew).
      rewrite installItems_run in Hbefore.
      destruct (installLoop env _ _ _ _ (take i items) [] w) as [w3 [before| |]] eqn:Htake;
        try done.
      injection Hbefore as -> _.
      assert (installLoop env (map a_id assistants) (head assistants) scope
                (default (cwd env) projectRoot) items [] w = (w', Threw message)) as Hall.
      { apply installLoop_threw. by exists i, item, wi, before, w2. }
      congruence.
    + split.
      * intros [= -> ->].
        apply installLoop_threw in Hloop
          as (i & item & wi & before & w2 & Hi & Hbefore & Hcopy & Hthrew).
        exists i, item, wi. eexists. exists w2. split; [done|]. split; [|done].
        rewrite installItems_run. by rewrite Hbefore.
      * intros (i & item & wi & summary & w2 & Hi & Hbefore & Hcopy & Hthrew).
        rewrite installItems_run in Hbefore.
        destruct (installLoop env _ _ _ _ (take i items) [] w) as [w3 [before| |]] eqn:Htake;
          try done.
        injection Hbefore as -> _.
        assert (installLoop env (map a_id assistants) (head assistants) scope
                  (default (cwd env) projectRoot) items [] w = (w', Threw message)) as Hall.
        { apply installLoop_threw. by exists i, item, wi, before, w2. }
        congruence.
    + split; [done|].
      intros (i & item & wi & summary & w2 & Hi & Hbefore & Hcopy & Hthrew).
      rewrite installItems_run in Hbefore.
      destruct (installLoop env _ _ _ _ (take i items) [] w) as [w3 [before| |]] eqn:Htake;
        try done.
      injection Hbefore as -> _.
      assert (installLoop env (map a_id assistants) (head assistants) scope
                (default (cwd env) projectRoot) items [] w = (w', Threw message)) as Hall.
      { apply installLoop_threw. by exists i, item, wi, before, w2. }
      congruence.
  - intros Hsafe Hitems. rewrite installItems_run.
    destruct (installLoop_returns env (map a_id assistants) (head assistants) scope
                (default (cwd env) projectRoot) items [] w Hsafe Hitems)
      as (w' & new & ->).
    by eexists _, _.
Qed.

(** An item with no template, followed by one that has a template. *)
Definition missing_item : CatalogItem :=
  {| c_id := "bar"; c_name := "bar"; c_description := "";
     c_type := skills; c_category := None; c_tags := None;
     c_path := "skills/bar"; c_content := None |}.

Lemma installItems_records_failures_witness :
  ∃ w' summary,
    installItems demo_env [missing_item; demo_item] [claude demo_env; cursor demo_env]
      project symlink (Some "/repo") empty_world = (w', Returned summary)
    ∧ total summary = 2 ∧ successful summary = 1 ∧ failed summary = 1
    ∧ map r_item (results summary) = [missing_item; demo_item]
    ∧ map r_success (results summary) = [false; true]
    ∧ map r_error (results summary) = [Some "ENOENT"; None]
    ∧ map r_path (results summary) = [EmptyString; "/repo/.ai/skills/foo"].
Proof.
  destruct (installItems_records_failures demo_env [missing_item; demo_item]
              [claude demo_env; cursor demo_env] project symlink (Some "/repo") empty_world)
    as (_ & Hsummary & _ & Hreturns).
  destruct Hreturns as (w' & summary & Hrun).
  { split.
    - exists emptyLockFile. vm_compute. reflexivity.
    - eexists. vm_compute. reflexivity. }
  { intros item Hitem. split.
    - apply elem_of_cons in Hitem as [->|Hitem];
        [|apply list_elem_of_singleton in Hitem as ->];
        (split; intros Hpre; vm_compute in Hpre; destruct Hpre as [l Hl]; discriminate).
    - apply elem_of_cons in Hitem as [->|Hitem];
        [|apply list_elem_of_singleton in Hitem as ->];
        intros entries Hdir; vm_compute in Hdir; [discriminate|].
      eexists. vm_compute. reflexivity. }
  exists w', summary. split; [exact Hrun|].
  destruct (Hsummary w' summary Hrun) as (Htotal & Hsucc & Hfailed & Hitems & _).
  vm_compute in Hrun. injection Hrun as <- <-.
  repeat split; reflexivity.
Defined.

(** A project whose lock file is protected. *)
Definition locked_world : World :=
  {| nodes := ∅; denied := {[ ["repo"; ".ai"; ".skill-lock.json"] ]}; ticks := 0;
     unreached := ∅ |}.

(** C7 as stated fails where the failure comes after the copy. When the
    lock file cannot be written, the error of [updateLockFile] is not
    caught: the first item has been copied, and [installItems] throws
    with no result for it and without going on to the second item. *)
Lemma installItems_lock_error_propagates :
  (installItems demo_env [demo_item; missing_item] [claude demo_env] project symlink
     (Some "/repo") locked_world).2 = Threw "EACCES"
  ∧ (copyDir demo_env (source_node demo_env demo_item)
       (install_node demo_env demo_item project "/repo") locked_world).2 = Returned tt
  ∧ nodes (installItems demo_env [demo_item; missing_item] [claude demo_env] project symlink
             (Some "/repo") locked_world).1
      !! ["repo"; ".ai"; "skills"; "foo"; "SKILL.md"]
    = Some (File (Text demo_skill)).
Proof. repeat split; vm_compute; reflexivity. Qed.

(** * Further properties *)

(** ** Facts about paths *)

Fixpoint slashless (s : string) : bool :=
  match s with
  | EmptyString => true
  | String c rest => negb (Ascii.eqb c "/") && slashless rest
  end.

(** A segment that normalization keeps as it is. *)
Definition plain (seg : string) : Prop :=
  seg ≠ "" ∧ seg ≠ "." ∧ seg ≠ "..".

Lemma split_nonempty s : Path.split s ≠ [].
Proof.
  destruct s as [|c s]; [done|]. simpl.
  destruct (Ascii.eqb c "/"); [done|]. by destruct (Path.split s).
Qed.

Lemma split_slashless s : slashless s = true → Path.split s = [s].
Proof.
  induction s as [|c s IH]; [done|]. simpl.
  destruct (Ascii.eqb c "/"); [done|]. simpl. intros Hs. by rewrite IH.
Qed.

Lemma split_segments_slashless s : Forall (λ seg, slashless seg = true) (Path.split s).
Proof.
  induction s as [|c s IH]; simpl; [by repeat constructor|].
  destruct (Ascii.eqb c "/") eqn:Hc; [by constructor|].
  destruct (Path.split s) as [|seg rest]; [by repeat constructor; simpl; rewrite Hc|].
  inversion IH as [|? ? Hseg Hrest]; subst. constructor; [|done].
  simpl. by rewrite Hc.
Qed.

Lemma split_append a b :
  Path.split (a +:+ "/" +:+ b) = Path.split a ++ Path.split b.
Proof.
  induction a as [|c a IH]; [done|]. simpl.
  destruct (Ascii.eqb c "/"); [by rewrite IH|].
  rewrite IH. pose proof (split_nonempty a) as Hne.
  by destruct (Path.split a).
Qed.

Lemma split_unsplit segs :
  segs ≠ [] → Forall (λ seg, slashless seg = true) segs →
  Path.split (Path.unsplit segs) = segs.
Proof.
  induction segs as [|seg rest IH]; [done|]. intros _ Hall.
  inversion Hall as [|? ? Hseg Hrest]; subst.
  destruct rest as [|seg' rest]; [by apply split_slashless|].
  change (Path.unsplit (seg :: seg' :: rest))
    with (seg +:+ "/" +:+ Path.unsplit (seg' :: rest)).
  rewrite split_append, split_slashless by done.
  by rewrite IH.
Qed.

Lemma push_segment_plain allow res seg :
  plain seg → Path.push_segment allow res seg = seg :: res.
Proof.
  intros (H1 & H2 & H3). unfold Path.push_segment.
  destruct (String.eqb_spec seg ""); [done|].
  destruct (String.eqb_spec seg "."); [done|].
  destruct (String.eqb_spec seg ".."); [done|]. done.
Qed.

Lemma fold_push_plain allow segs res :
  Forall plain segs →
  fold_left (Path.push_segment allow) segs res = rev segs ++ res.
Proof.
  intros Hall. revert res. induction Hall as [|seg segs Hseg _ IH]; intros res; [done|].
  simpl. rewrite push_segment_plain by done. rewrite IH.
  by rewrite <- app_assoc.
Qed.

Lemma normalizeSegments_plain allow segs :
  Forall plain segs → Path.normalizeSegments allow segs = segs.
Proof.
  intros Hall. unfold Path.normalizeSegments. rewrite fold_push_plain by done.
  by rewrite app_nil_r, rev_involutive.
Qed.

(** What normalization keeps, it found in its input; below the root it
    keeps plain segments only. *)
Lemma fold_push_from (P : string → Prop) allow segs res :
  Forall P segs → Forall P res → Forall P (fold_left (Path.push_segment allow) segs res).
Proof.
  intros Hsegs. revert res. induction Hsegs as [|seg segs Hseg _ IH]; intros res Hres; [done|].
  simpl. apply IH. unfold Path.push_segment.
  destruct (_ || _); [done|]. destruct (String.eqb_spec seg "..") as [->|_].
  - destruct res as [|last res']; [destruct allow; by repeat constructor|].
    inversion Hres; subst. destruct (String.eqb last "..");
      [destruct allow; by repeat constructor | done].
  - by constructor.
Qed.

Lemma fold_push_rooted_plain segs res :
  Forall plain res → Forall plain (fold_left (Path.push_segment false) segs res).
Proof.
  revert res. induction segs as [|seg segs IH]; intros res Hres; [done|].
  simpl. apply IH. unfold Path.push_segment.
  destruct (String.eqb_spec seg ""); [done|].
  destruct (String.eqb_spec seg "."); [done|]. simpl.
  destruct (String.eqb_spec seg "..").
  - destruct res as [|last res']; [done|]. inversion Hres; subst.
    by destruct (String.eqb last "..").
  - by constructor.
Qed.

Lemma normalizeSegments_rooted_plain segs :
  Forall plain (Path.normalizeSegments false segs).
Proof.
  unfold Path.normalizeSegments. apply Forall_rev. by apply fold_push_rooted_plain.
Qed.

Lemma normalizeSegments_from (P : string → Prop) allow segs :
  Forall P segs → Forall P (Path.normalizeSegments allow segs).
Proof.
  intros Hsegs. unfold Path.normalizeSegments. apply Forall_rev.
  by apply fold_push_from.
Qed.

Lemma normalizeSegments_app allow l1 l2 :
  Path.normalizeSegments allow (l1 ++ l2)
  = rev (fold_left (Path.push_segment allow) l2 (rev (Path.normalizeSegments allow l1))).
Proof.
  unfold Path.normalizeSegments. by rewrite fold_left_app, rev_involutive.
Qed.

(** Normalizing a part first changes nothing. *)
Lemma normalizeSegments_inner l1 l2 :
  Path.normalizeSegments false (Path.normalizeSegments false l1 ++ l2)
  = Path.normalizeSegments false (l1 ++ l2).
Proof.
  rewrite !normalizeSegments_app.
  by rewrite (normalizeSegments_plain false _ (normalizeSegments_rooted_plain l1)).
Qed.

Lemma normalizeSegments_empty_first allow segs :
  Path.normalizeSegments allow ("" :: segs) = Path.normalizeSegments allow segs.
Proof. reflexivity. Qed.

Lemma normalizeSegments_empty_last allow segs :
  Path.normalizeSegments allow (segs ++ [""]) = Path.normalizeSegments allow segs.
Proof.
  rewrite normalizeSegments_app. simpl. unfold Path.push_segment at 1. simpl.
  by rewrite rev_involutive.
Qed.

(** *** Rooted paths *)

Definition segment (seg : string) : Prop := plain seg ∧ slashless seg = true.

Definition rooted (segs : list string) : string := "/" +:+ Path.unsplit segs.

Lemma push_segment_empty allow res : Path.push_segment allow res "" = res.
Proof. reflexivity. Qed.

Lemma fold_push_drop_empty allow segs res :
  fold_left (Path.push_segment allow) (filter (λ seg, seg ≠ "") segs) res
  = fold_left (Path.push_segment allow) segs res.
Proof.
  revert res. induction segs as [|seg segs IH]; intros res; [done|].
  rewrite filter_cons. destruct (decide (seg ≠ "")) as [Hne|Heq].
  - simpl. apply IH.
  - apply dec_stable in Heq. subst seg. simpl. apply IH.
Qed.

Lemma normalizeSegments_drop_empty allow segs :
  Path.normalizeSegments allow (filter (λ seg, seg ≠ "") segs)
  = Path.normalizeSegments allow segs.
Proof. unfold Path.normalizeSegments. by rewrite fold_push_drop_empty. Qed.

Lemma segment_plain segs : Forall segment segs → Forall plain segs.
Proof. intros Hsegs. eapply Forall_impl; [done|]. by intros seg [? ?]. Qed.

Lemma segment_slashless segs :
  Forall segment segs → Forall (λ seg, slashless seg = true) segs.
Proof. intros Hsegs. eapply Forall_impl; [done|]. by intros seg [? ?]. Qed.

Lemma filter_segments segs :
  Forall segment segs → filter (λ seg, seg ≠ "") segs = segs.
Proof.
  induction 1 as [|seg segs [(Hne & _) _] _ IH]; [done|].
  rewrite filter_cons. destruct (decide (seg ≠ "")); [by rewrite IH | done].
Qed.

(** The segments of a rooted path, empty ones apart, are the ones it was
    built from. *)
Lemma split_rooted segs :
  Forall segment segs →
  filter (λ seg, seg ≠ "") (Path.split (rooted segs)) = segs.
Proof.
  intros Hsegs. unfold rooted. change (Path.split ("/" +:+ ?s)) with ("" :: Path.split s).
  rewrite filter_cons. destruct (decide ("" ≠ "")) as [|_]; [done|].
  destruct segs as [|seg segs]; [done|].
  rewrite split_unsplit; [by apply filter_segments | done | by apply segment_slashless].
Qed.

Lemma split_relative segs :
  Forall segment segs →
  filter (λ seg, seg ≠ "") (Path.split (Path.unsplit segs)) = segs.
Proof.
  intros Hsegs. destruct segs as [|seg segs]; [done|].
  rewrite split_unsplit; [by apply filter_segments | done | by apply segment_slashless].
Qed.

Lemma unsplit_nonempty segs : Forall plain segs → segs ≠ [] → Path.unsplit segs ≠ "".
Proof.
  intros Hsegs Hne. destruct segs as [|seg segs]; [done|].
  inversion Hsegs as [|? ? (Hseg & _) _]; subst.
  destruct segs; [done|]. simpl. by destruct seg.
Qed.

Lemma endsWithSlash_append x y :
  y ≠ "" → Path.endsWithSlash (x +:+ y) = Path.endsWithSlash y.
Proof.
  intros Hy. induction x as [|c x IH]; [done|].
  simpl. rewrite IH. destruct (x +:+ y) eqn:Hxy; [|done].
  by destruct x, y.
Qed.

Lemma endsWithSlash_slashless seg : slashless seg = true → Path.endsWithSlash seg = false.
Proof.
  induction seg as [|c seg IH]; [done|]. simpl.
  intros [Hc Hseg]%andb_prop. destruct seg; [by destruct (Ascii.eqb c "/") | by apply IH].
Qed.

Lemma endsWithSlash_unsplit segs :
  Forall segment segs → Path.endsWithSlash (Path.unsplit segs) = false.
Proof.
  induction 1 as [|seg segs [Hplain Hslash] Hsegs IH]; [done|].
  destruct segs as [|seg' segs]; [by apply endsWithSlash_slashless|].
  change (Path.unsplit (seg :: seg' :: segs))
    with (seg +:+ "/" +:+ Path.unsplit (seg' :: segs)).
  assert (Path.unsplit (seg' :: segs) ≠ "") as Hne
    by (apply unsplit_nonempty; [by apply segment_plain | done]).
  rewrite endsWithSlash_append; [rewrite (endsWithSlash_append "/"); done|].
  simpl. done.
Qed.

Lemma endsWithSlash_rooted segs :
  Forall segment segs → segs ≠ [] → Path.endsWithSlash (rooted segs) = false.
Proof.
  intros Hsegs Hne. unfold rooted. rewrite endsWithSlash_append.
  - by apply endsWithSlash_unsplit.
  - apply unsplit_nonempty; [by apply segment_plain | done].
Qed.

(** [path.normalize] of an absolute path without a trailing slash. *)
Lemma normalize_absolute s :
  Path.isAbsolute s = true → Path.endsWithSlash s = false →
  Path.normalizeSegments false (Path.split s) ≠ [] →
  Path.normalize s = rooted (Path.normalizeSegments false (Path.split s)).
Proof.
  intros Habs Hend Hne. unfold Path.normalize, Path.normalizeString.
  rewrite Habs, Hend. simpl negb.
  destruct (String.eqb_spec s ""); [by subst|].
  destruct (String.eqb_spec (Path.unsplit (Path.normalizeSegments false (Path.split s))) "")
    as [Hempty|_]; [|done].
  by apply unsplit_nonempty in Hempty; [|apply normalizeSegments_rooted_plain|].
Qed.

(** [path.join] of a rooted path and further pieces whose segments are
    [segs]. *)
Lemma normalize_rooted s segs :
  Path.isAbsolute s = true → Path.endsWithSlash s = false →
  filter (λ seg, seg ≠ "") (Path.split s) = segs →
  Forall segment segs → segs ≠ [] →
  Path.normalize s = rooted segs.
Proof.
  intros Habs Hend Hsplit Hsegs Hne.
  assert (Path.normalizeSegments false (Path.split s) = segs) as Hnorm.
  { rewrite <- normalizeSegments_drop_empty, Hsplit.
    apply normalizeSegments_plain. by apply segment_plain. }
  rewrite normalize_absolute; [by rewrite Hnorm | done | done | by rewrite Hnorm].
Qed.

Lemma join_two x y :
  x ≠ "" → y ≠ "" → Path.join [x; y] = Path.normalize (x +:+ "/" +:+ y).
Proof.
  intros Hx Hy. unfold Path.join. rewrite !filter_cons, filter_nil.
  destruct (decide (x ≠ "")); [|done]. destruct (decide (y ≠ "")); [|done]. done.
Qed.

Lemma join_three x y z :
  x ≠ "" → y ≠ "" → z ≠ "" →
  Path.join [x; y; z] = Path.normalize (x +:+ "/" +:+ y +:+ "/" +:+ z).
Proof.
  intros Hx Hy Hz. unfold Path.join. rewrite !filter_cons, filter_nil.
  destruct (decide (x ≠ "")); [|done]. destruct (decide (y ≠ "")); [|done].
  destruct (decide (z ≠ "")); [|done]. done.
Qed.

Lemma rooted_nonempty segs : rooted segs ≠ "".
Proof. done. Qed.

Lemma filter_split_append a b :
  filter (λ seg, seg ≠ "") (Path.split (a +:+ "/" +:+ b))
  = filter (λ seg, seg ≠ "") (Path.split a) ++ filter (λ seg, seg ≠ "") (Path.split b).
Proof. by rewrite split_append, filter_app. Qed.

(** Joining a rooted path with a rooted or a relative one. *)
Lemma join_rooted_rooted a b :
  Forall segment a → Forall segment b → b ≠ [] →
  Path.join [rooted a; rooted b] = rooted (a ++ b).
Proof.
  intros Ha Hb Hne. rewrite join_two by done.
  apply normalize_rooted.
  - done.
  - rewrite endsWithSlash_append by done.
    rewrite (endsWithSlash_append "/") by done. by apply endsWithSlash_rooted.
  - by rewrite filter_split_append, !split_rooted.
  - by apply Forall_app.
  - by destruct a, b.
Qed.

Lemma join_rooted_relative a b :
  Forall segment a → Forall segment b → b ≠ [] →
  Path.join [rooted a; Path.unsplit b] = rooted (a ++ b).
Proof.
  intros Ha Hb Hne.
  assert (Path.unsplit b ≠ "") as Hb' by (apply unsplit_nonempty; [by apply segment_plain|done]).
  rewrite join_two by done.
  apply normalize_rooted.
  - done.
  - rewrite endsWithSlash_append by (by destruct (Path.unsplit b)).
    rewrite (endsWithSlash_append "/") by done. by apply endsWithSlash_unsplit.
  - by rewrite filter_split_append, split_rooted, split_relative.
  - by apply Forall_app.
  - by destruct a, b.
Qed.

Lemma join_rooted_segments a y z :
  Forall segment a → segment y → segment z →
  Path.join [rooted a; y; z] = rooted (a ++ [y; z]).
Proof.
  intros Ha Hy Hz.
  assert (Forall segment [y; z]) as Hyz
    by (apply Forall_cons_2; [done|]; apply Forall_cons_2; [done|]; apply Forall_nil_2).
  assert (y ≠ "" ∧ z ≠ "") as [Hy' Hz'] by (split; [apply Hy | apply Hz]).
  rewrite join_three by done.
  apply normalize_rooted.
  - done.
  - rewrite endsWithSlash_append by (by destruct y).
    rewrite (endsWithSlash_append "/") by (by destruct y).
    by apply (endsWithSlash_unsplit [y; z]).
  - rewrite filter_split_append, split_rooted by done.
    change (y +:+ "/" +:+ z) with (Path.unsplit [y; z]).
    by rewrite split_relative.
  - by apply Forall_app.
  - by destruct a.
Qed.

(** [path.normalize] of a relative path without a trailing slash whose
    segments need no normalizing. *)
Lemma normalize_relative segs :
  Forall segment segs → segs ≠ [] →
  Path.normalize (Path.unsplit segs) = Path.unsplit segs.
Proof.
  intros Hsegs Hne.
  assert (Path.unsplit segs ≠ "") as Hne'
    by (apply unsplit_nonempty; [by apply segment_plain | done]).
  assert (Path.isAbsolute (Path.unsplit segs) = false) as Habs.
  { destruct segs as [|seg segs]; [done|].
    inversion Hsegs as [|? ? [(Hseg & _) Hslash] _]; subst.
    destruct seg as [|c seg]; [done|]. simpl in Hslash.
    apply andb_prop in Hslash as [Hc _]. apply negb_true_iff in Hc.
    destruct segs; simpl; done. }
  unfold Path.normalize, Path.normalizeString.
  rewrite Habs, endsWithSlash_unsplit by done. simpl negb.
  rewrite split_unsplit by (done || by apply segment_slashless).
  rewrite normalizeSegments_plain by (by apply segment_plain).
  destruct (String.eqb_spec (Path.unsplit segs) ""); done.
Qed.

Lemma join_segments x y z :
  segment x → segment y → segment z →
  Path.join [x; y; z] = Path.unsplit [x; y; z].
Proof.
  intros Hx Hy Hz.
  rewrite join_three by (apply Hx || apply Hy || apply Hz).
  apply (normalize_relative [x; y; z]); [|done].
  do 3 (apply Forall_cons_2; [done|]). apply Forall_nil_2.
Qed.

Lemma ContentType_str_segment t : segment (ContentType_str t).
Proof. by destruct t. Qed.

Lemma rooted_inj a b : Forall segment a → Forall segment b → rooted a = rooted b → a = b.
Proof.
  intros Ha Hb Heq. rewrite <- (split_rooted a), <- (split_rooted b) by done.
  by rewrite Heq.
Qed.

(** Resolving a normalized absolute path gives what resolving the path
    itself gives. *)
Lemma resolve_normalize cwd s :
  Path.isAbsolute s = true → Path.resolve cwd (Path.normalize s) = Path.resolve cwd s.
Proof.
  intros Habs. unfold Path.resolve at 2. rewrite Habs.
  unfold Path.normalize, Path.normalizeString. rewrite Habs. simpl negb.
  destruct (String.eqb_spec s ""); [by subst|].
  set (N := Path.normalizeSegments false (Path.split s)).
  assert (Forall plain N) as Hplain by apply normalizeSegments_rooted_plain.
  assert (Forall (λ seg, slashless seg = true) N) as Hslash
    by apply normalizeSegments_from, split_segments_slashless.
  clearbody N.
  destruct (String.eqb_spec (Path.unsplit N) "") as [Hempty|Hnonempty].
  - destruct N as [|seg N']; [done|].
    by apply unsplit_nonempty in Hempty.
  - assert (N ≠ []) as Hne by (by intros ->).
    unfold Path.resolve.
    destruct (Path.endsWithSlash s).
    + change (Path.split ("/" +:+ ?x)) with ("" :: Path.split x). simpl Path.isAbsolute.
      cbv iota. rewrite normalizeSegments_empty_first.
      change (Path.unsplit N +:+ "/") with (Path.unsplit N +:+ "/" +:+ "").
      rewrite (split_append (Path.unsplit N) ""). simpl (Path.split "").
      rewrite normalizeSegments_empty_last, split_unsplit by done.
      by apply normalizeSegments_plain.
    + change (Path.split ("/" +:+ ?x)) with ("" :: Path.split x). simpl Path.isAbsolute.
      cbv iota. rewrite normalizeSegments_empty_first, split_unsplit by done.
      by apply normalizeSegments_plain.
Qed.

(** A relative path, handed to a file operation, names the same place as
    the path joined under the working directory. *)
Lemma resolve_join_cwd cwd rel :
  Path.isAbsolute cwd = true → Path.isAbsolute rel = false →
  Path.resolve cwd (Path.join [cwd; rel]) = Path.resolve cwd rel.
Proof.
  intros Hcwd Hrel.
  assert (cwd ≠ "") as Hne by (by destruct cwd).
  unfold Path.join. rewrite !filter_cons, filter_nil.
  destruct (decide (cwd ≠ "")); [|done].
  destruct (decide (rel ≠ "")) as [Hrel'|Hrel'].
  - change (Path.unsplit [cwd; rel]) with (cwd +:+ "/" +:+ rel).
    rewrite resolve_normalize by (by destruct cwd).
    unfold Path.resolve. rewrite Hrel.
    replace (Path.isAbsolute (cwd +:+ "/" +:+ rel)) with true by (by destruct cwd).
    by rewrite split_append.
  - apply dec_stable in Hrel'. subst rel.
    change (Path.unsplit [cwd]) with cwd.
    rewrite resolve_normalize by done. unfold Path.resolve. rewrite Hcwd. simpl.
    by rewrite normalizeSegments_empty_last.
Qed.

Lemma join_rooted_segment a y :
  Forall segment a → segment y → Path.join [rooted a; y] = rooted (a ++ [y]).
Proof.
  intros Ha Hy. apply (join_rooted_relative a [y]); [done| |done].
  apply Forall_cons_2; [done|apply Forall_nil_2].
Qed.


Lemma resolve_rooted cwd segs :
  Forall segment segs → Path.resolve cwd (rooted segs) = segs.
Proof.
  intros Hsegs. unfold Path.resolve.
  change (Path.isAbsolute (rooted segs)) with true. cbv iota.
  rewrite <- normalizeSegments_drop_empty, split_rooted by done.
  apply normalizeSegments_plain. by apply segment_plain.
Qed.

Lemma Forall_segment_app a b :
  Forall segment a → Forall segment b → Forall segment (a ++ b).
Proof. intros Ha Hb. by apply Forall_app_2. Qed.

Lemma Forall_segment_3 x y z :
  segment x → segment y → segment z → Forall segment [x; y; z].
Proof. intros Hx Hy Hz. do 3 (apply Forall_cons_2; [done|]). apply Forall_nil_2. Qed.

(** ** Where the canonical directory is (agents.ts) *)

Lemma getCanonicalPath_project env (t : ContentType) (name : string)
    (rootSegs : list string) :
  Forall segment rootSegs → segment name →
  getCanonicalPath env t name project (Some (rooted rootSegs))
  = rooted (rootSegs ++ [".ai"; ContentType_str t; name]).
Proof.
  intros Hroot Hname.
  assert (segment ".ai") as Hai by done.
  assert (segment (ContentType_str t)) as Ht by apply ContentType_str_segment.
  unfold getCanonicalPath, CANONICAL_DIR.
  change (truthy (Some (rooted rootSegs))) with (Some (rooted rootSegs)).
  cbv beta iota zeta.
  rewrite (join_rooted_segment rootSegs) by done.
  rewrite join_rooted_segments; [|by apply Forall_app_2;
                                    [|apply Forall_cons_2; [|apply Forall_nil_2]]
                                 |done|done].
  by rewrite <- !app_assoc.
Qed.

(** X1. For a project root and a home directory that are absolute paths
    of plain segments, and a name that is one plain segment,
    [getCanonicalPath] returns: in the project scope
    [<root>/.ai/<type>/<name>], or the relative path
    [.ai/<type>/<name>] when no root is given; in the global scope
    [<home>/.ai/<type>/<name>] when no root is given, and
    [<root><home>/.ai/<type>/<name>], a path below the project root, when
    one is given. *)
Theorem getCanonicalPath_rooted env (t : ContentType) (name : string)
    (rootSegs homeSegs : list string) :
  Forall segment rootSegs → Forall segment homeSegs → segment name →
  homedir env = rooted homeSegs →
  getCanonicalPath env t name project (Some (rooted rootSegs))
    = rooted (rootSegs ++ [".ai"; ContentType_str t; name])
  ∧ getCanonicalPath env t name project None
    = Path.unsplit [".ai"; ContentType_str t; name]
  ∧ getCanonicalPath env t name global None
    = rooted (homeSegs ++ [".ai"; ContentType_str t; name])
  ∧ getCanonicalPath env t name global (Some (rooted rootSegs))
    = rooted (rootSegs ++ homeSegs ++ [".ai"; ContentType_str t; name])
  ∧ (rootSegs ≠ [] →
     getCanonicalPath env t name global (Some (rooted rootSegs))
       ≠ getCanonicalPath env t name global None).
Proof.
  intros Hroot Hhome Hname Hhomedir.
  assert (segment ".ai") as Hai by done.
  assert (segment (ContentType_str t)) as Ht by apply ContentType_str_segment.
  pose proof (Forall_segment_3 _ _ _ Hai Ht Hname) as Htail.
  assert (Forall segment (homeSegs ++ [".ai"])) as Hbase.
  { apply Forall_app_2; [done|]. apply Forall_cons_2; [done|apply Forall_nil_2]. }
  assert (getCanonicalPath env t name global (Some (rooted rootSegs))
          = rooted (rootSegs ++ homeSegs ++ [".ai"; ContentType_str t; name])) as Hglobal.
  { unfold getCanonicalPath, home, CANONICAL_DIR. rewrite Hhomedir.
    change (truthy (Some (rooted rootSegs))) with (Some (rooted rootSegs)).
    cbv beta iota zeta.
    rewrite (join_rooted_segment homeSegs) by done.
    rewrite join_rooted_rooted; [|done|done|by destruct homeSegs].
    rewrite join_rooted_segments; [|by apply Forall_app_2|done|done].
    by rewrite <- !app_assoc. }
  assert (getCanonicalPath env t name global None
          = rooted (homeSegs ++ [".ai"; ContentType_str t; name])) as Hhome'.
  { unfold getCanonicalPath, home, CANONICAL_DIR. rewrite Hhomedir.
    change (truthy None) with (@None string).
    cbv beta iota zeta.
    rewrite (join_rooted_segment homeSegs) by done.
    rewrite join_rooted_segments; [|done|done|done].
    by rewrite <- !app_assoc. }
  split; [|split; [|split; [done|split; [done|]]]].
  - by apply getCanonicalPath_project.
  - unfold getCanonicalPath, CANONICAL_DIR.
    change (truthy None) with (@None string).
    cbv beta iota zeta.
    by apply join_segments.
  - intros Hne. rewrite Hglobal, Hhome'. intros Heq.
    apply rooted_inj in Heq;
      [|by apply Forall_app_2; [|apply Forall_app_2]|by apply Forall_app_2].
    apply (f_equal List.length) in Heq. rewrite !length_app in Heq.
    destruct rootSegs; [done|]. simpl in Heq. lia.
Qed.

Lemma getCanonicalPath_rooted_witness :
  getCanonicalPath demo_env rules "no-console" project (Some "/srv/app")
    = "/srv/app/.ai/rules/no-console"
  ∧ getCanonicalPath demo_env rules "no-console" project None = ".ai/rules/no-console"
  ∧ getCanonicalPath demo_env rules "no-console" global None
    = "/home/u/.ai/rules/no-console"
  ∧ getCanonicalPath demo_env rules "no-console" global (Some "/srv/app")
    = "/srv/app/home/u/.ai/rules/no-console".
Proof.
  destruct (getCanonicalPath_rooted demo_env rules "no-console" ["srv"; "app"] ["home"; "u"])
    as (Hproject & Hrelative & Hhome & Hglobal & _).
  - by repeat (apply Forall_cons_2; [done|]).
  - by repeat (apply Forall_cons_2; [done|]).
  - done.
  - reflexivity.
  - split; [exact Hproject|]. split; [exact Hrelative|]. split; [exact Hhome|exact Hglobal].
Defined.

(** X2. When [getContentPath] is called for the project scope without a
    project root and returns a relative path, the path it returns for
    the working directory as project root names the same place on the
    disk of a process whose working directory is absolute. *)
Theorem getContentPath_omitted_root_same_place env (assistant : AssistantConfig)
    (type : ContentType) (relativePath : string) :
  Path.isAbsolute (cwd env) = true →
  getContentPath assistant type project None = Some relativePath →
  Path.isAbsolute relativePath = false →
  ∃ joined,
    getContentPath assistant type project (Some (cwd env)) = Some joined
    ∧ joined = Path.join [cwd env; relativePath]
    ∧ on_disk env joined = on_disk env relativePath.
Proof.
  intros Hcwd Hpath Hrel. unfold getContentPath in *.
  destruct (truthy (a_paths assistant type)) as [rel|]; [|done].
  change (truthy None) with (@None string) in Hpath. injection Hpath as ->.
  assert (truthy (Some (cwd env)) = Some (cwd env)) as -> by (by destruct (cwd env)).
  eexists. split; [done|]. split; [done|].
  unfold on_disk. by apply resolve_join_cwd.
Qed.

Lemma getContentPath_omitted_root_same_place_witness :
  getContentPath (claude demo_env) skills project None = Some ".claude/skills"
  ∧ ∃ joined,
      getContentPath (claude demo_env) skills project (Some "/work") = Some joined
      ∧ joined = "/work/.claude/skills"
      ∧ on_disk demo_env joined = on_disk demo_env ".claude/skills".
Proof.
  split; [reflexivity|].
  apply (getContentPath_omitted_root_same_place demo_env (claude demo_env) skills
           ".claude/skills"); reflexivity.
Defined.

(** ** Where the lock file is (lock.ts) *)

Lemma on_disk_rooted env segs : Forall segment segs → on_disk env (rooted segs) = segs.
Proof. apply resolve_rooted. Qed.

Lemma getLockFilePath_rooted segs :
  Forall segment segs →
  Path.join [rooted segs; ".ai"; LOCK_FILE_NAME]
  = rooted (segs ++ [".ai"; LOCK_FILE_NAME]).
Proof. intros Hsegs. by apply join_rooted_segments. Qed.

(** X3. For a project root that is an absolute path of plain segments
    and an identifier that is one plain segment, the lock file of the
    project scope is [<root>/.ai/.skill-lock.json], the canonical
    directory of an item is [<root>/.ai/<type>/<id>], and neither lies
    below the other: removing or copying the one leaves the other. The
    lock file of the global scope is [<home>/.ai/.skill-lock.json]
    whatever the project root. *)
Theorem lock_file_beside_canonical_directory env (t : ContentType) (id : string)
    (rootSegs homeSegs : list string) (anyRoot : option string) :
  Forall segment rootSegs → Forall segment homeSegs → segment id →
  homedir env = rooted homeSegs →
  lock_node env project (Some (rooted rootSegs))
    = rootSegs ++ [".ai"; ".skill-lock.json"]
  ∧ on_disk env (getCanonicalPath env t id project (Some (rooted rootSegs)))
    = rootSegs ++ [".ai"; ContentType_str t; id]
  ∧ apart (on_disk env (getCanonicalPath env t id project (Some (rooted rootSegs))))
      (lock_node env project (Some (rooted rootSegs)))
  ∧ lock_node env global anyRoot = homeSegs ++ [".ai"; ".skill-lock.json"].
Proof.
  intros Hroot Hhome Hid Hhomedir.
  assert (segment ".ai") as Hai by done.
  assert (segment ".skill-lock.json") as Hlock by done.
  assert (segment (ContentType_str t)) as Ht by apply ContentType_str_segment.
  assert (lock_node env project (Some (rooted rootSegs))
          = rootSegs ++ [".ai"; ".skill-lock.json"]) as Hnode.
  { change (lock_node env project (Some (rooted rootSegs)))
      with (on_disk env (Path.join [rooted rootSegs; ".ai"; LOCK_FILE_NAME])).
    rewrite getLockFilePath_rooted by done.
    apply on_disk_rooted, Forall_segment_app; [done|].
    apply Forall_cons_2; [done|]. apply Forall_cons_2; [done|apply Forall_nil_2]. }
  assert (on_disk env (getCanonicalPath env t id project (Some (rooted rootSegs)))
          = rootSegs ++ [".ai"; ContentType_str t; id]) as Hcanonical.
  { rewrite getCanonicalPath_project by done.
    apply on_disk_rooted, Forall_segment_app; [done|]. by apply Forall_segment_3. }
  split; [done|]. split; [done|]. split.
  - rewrite Hnode, Hcanonical. split.
    + intros Hpre%prefix_app_inv. destruct Hpre as [rest Hrest].
      injection Hrest as Heq _. by destruct t.
    + intros Hpre%prefix_app_inv. destruct Hpre as [rest Hrest].
      injection Hrest as Heq _. by destruct t.
  - change (lock_node env global anyRoot)
      with (on_disk env (Path.join [homedir env; ".ai"; LOCK_FILE_NAME])).
    rewrite Hhomedir, getLockFilePath_rooted by done.
    apply on_disk_rooted, Forall_segment_app; [done|].
    apply Forall_cons_2; [done|]. apply Forall_cons_2; [done|apply Forall_nil_2].
Qed.

Lemma lock_file_beside_canonical_directory_witness :
  lock_node demo_env project (Some "/repo") = ["repo"; ".ai"; ".skill-lock.json"]
  ∧ on_disk demo_env (getCanonicalPath demo_env skills "foo" project (Some "/repo"))
    = ["repo"; ".ai"; "skills"; "foo"]
  ∧ apart (on_disk demo_env (getCanonicalPath demo_env skills "foo" project (Some "/repo")))
      (lock_node demo_env project (Some "/repo"))
  ∧ lock_node demo_env global (Some "/repo") = ["home"; "u"; ".ai"; ".skill-lock.json"].
Proof.
  apply (lock_file_beside_canonical_directory demo_env skills "foo" ["repo"] ["home"; "u"]
           (Some "/repo")).
  - by repeat (apply Forall_cons_2; [done|]).
  - by repeat (apply Forall_cons_2; [done|]).
  - done.
  - reflexivity.
Defined.

(** ** The lock store, read back (lock.ts) *)

(** The lock file a disk holds for a scope, when what it holds has the
    shape of one; the empty lock file stands for a missing or unreadable
    one, as in [readLockFile]. *)
Definition the_lock (env : Env) (scope : InstallScope) (projectRoot : option string)
    (w : World) : option LockFile :=
  LockFile_of_json (stored_doc w (lock_node env scope projectRoot)).

Lemma the_lock_written env lockFile scope projectRoot w w' :
  writeLockFile env lockFile scope projectRoot w = (w', Returned tt) →
  the_lock env scope projectRoot w' = Some lockFile.
Proof.
  intros Hrun. apply writeLockFile_returned in Hrun as (w1 & _ & -> & Hp & _).
  unfold the_lock. rewrite stored_doc_written by done. apply LockFile_of_json_of.
Qed.

Lemma the_lock_missing env scope projectRoot w :
  node_at w (lock_node env scope projectRoot) = None →
  the_lock env scope projectRoot w = Some emptyLockFile.
Proof. intros Hnone. unfold the_lock, stored_doc. by rewrite Hnone. Qed.

Lemma getInstalledItems_run env scope projectRoot w lockFile :
  the_lock env scope projectRoot w = Some lockFile →
  getInstalledItems env scope projectRoot w = (w, Returned (obj_values (installed lockFile))).
Proof.
  intros Hlock. unfold getInstalledItems, bind at 1. rewrite readLockFile_run.
  unfold bind, cast. unfold the_lock in Hlock. by rewrite Hlock.
Qed.

Lemma getInstalledItemsByType_run env type scope projectRoot w lockFile :
  the_lock env scope projectRoot w = Some lockFile →
  getInstalledItemsByType env type scope projectRoot w
  = (w, Returned (filter (λ item, i_type item = type) (obj_values (installed lockFile)))).
Proof.
  intros Hlock. unfold getInstalledItemsByType, bind.
  by rewrite (getInstalledItems_run _ _ _ _ _ Hlock).
Qed.

Lemma isInstalled_run env type id scope projectRoot w lockFile :
  the_lock env scope projectRoot w = Some lockFile →
  isInstalled env type id scope projectRoot w
  = (w, Returned (bool_decide (is_Some (obj_get (getItemKey type id) (installed lockFile))))).
Proof.
  intros Hlock. unfold isInstalled, bind at 1. rewrite readLockFile_run.
  unfold bind, cast. unfold the_lock in Hlock. by rewrite Hlock.
Qed.

Lemma getInstallInfo_run env type id scope projectRoot w lockFile :
  the_lock env scope projectRoot w = Some lockFile →
  getInstallInfo env type id scope projectRoot w
  = (w, Returned (obj_get (getItemKey type id) (installed lockFile))).
Proof.
  intros Hlock. unfold getInstallInfo, bind at 1. rewrite readLockFile_run.
  unfold bind, cast. unfold the_lock in Hlock. by rewrite Hlock.
Qed.

Lemma getPreferences_run env scope projectRoot w lockFile :
  the_lock env scope projectRoot w = Some lockFile →
  getPreferences env scope projectRoot w = (w, Returned (preferences lockFile)).
Proof.
  intros Hlock. unfold getPreferences, bind at 1. rewrite readLockFile_run.
  unfold bind, cast. unfold the_lock in Hlock. by rewrite Hlock.
Qed.

(** A call that went through the cast has read a lock file. *)
Lemma updateLockFile_read env item scope projectRoot w w' :
  updateLockFile env item scope projectRoot w = (w', Returned tt) →
  ∃ lockFile,
    the_lock env scope projectRoot w = Some lockFile
    ∧ writeLockFile env (updated_lock lockFile item) scope projectRoot w = (w', Returned tt).
Proof.
  intros Hrun. unfold the_lock.
  destruct (LockFile_of_json (stored_doc w (lock_node env scope projectRoot)))
    as [lockFile|] eqn:Hlock.
  - exists lockFile. split; [done|]. by rewrite <- (updateLockFile_run _ _ _ _ _ _ Hlock).
  - unfold updateLockFile, bind at 1 in Hrun. rewrite readLockFile_run in Hrun.
    unfold bind, cast in Hrun. by rewrite Hlock in Hrun.
Qed.

(** X4. When [writeLockFile] returns, [readLockFile] gives the document
    back: a value that has the shape of a lock file and is the lock file
    written, so that [getInstalledItems] lists its entries in their
    order. Every node that was on the disk is still there, the lock
    file's own apart; what is new besides are directories on the way to
    the lock file. *)
Theorem writeLockFile_read_back env (lockFile : LockFile) (scope : InstallScope)
    (projectRoot : option string) (w w' : World) :
  writeLockFile env lockFile scope projectRoot w = (w', Returned tt) →
  (∃ doc, readLockFile env scope projectRoot w' = (w', Returned doc)
          ∧ LockFile_of_json doc = Some lockFile)
  ∧ getInstalledItems env scope projectRoot w'
    = (w', Returned (map snd (installed lockFile)))
  ∧ (∀ k n, k ≠ lock_node env scope projectRoot →
       nodes w !! k = Some n → nodes w' !! k = Some n)
  ∧ (∀ k n, k ≠ lock_node env scope projectRoot →
       nodes w' !! k = Some n →
       nodes w !! k = Some n
       ∨ (n = Dir ∧ k `prefix_of` Path.parent (lock_node env scope projectRoot))).
Proof.
  intros Hrun. pose proof (the_lock_written _ _ _ _ _ _ Hrun) as Hlock.
  split; [|split].
  - rewrite readLockFile_run. by eexists.
  - by rewrite (getInstalledItems_run _ _ _ _ _ Hlock).
  - apply writeLockFile_returned in Hrun as (w1 & Hmk & -> & Hp & _).
    pose proof (mkdir_from_frame [] (Path.parent (lock_node env scope projectRoot)) w)
      as (_ & _ & Hmono & Hnew).
    unfold Fs.mkdir_p in Hmk. rewrite Hmk in Hmono, Hnew. cbn [fst] in Hmono, Hnew.
    split.
    + intros k n Hk Hnode. cbn [nodes with_nodes].
      rewrite lookup_insert_ne by done. by apply Hmono.
    + intros k n Hk Hnode. cbn [nodes with_nodes] in Hnode.
      rewrite lookup_insert_ne in Hnode by done.
      destruct (Hnew k n Hnode) as [Hold|(-> & _ & Hcreated)]; [by left|].
      right. split; [done|]. by apply created_root in Hcreated as [_ Hpre].
Qed.

Lemma writeLockFile_read_back_witness :
  ∃ w',
    writeLockFile demo_env (with_installed [("skills/foo", lock_item ["claude"])] emptyLockFile)
      project (Some "/repo") empty_world = (w', Returned tt)
    ∧ getInstalledItems demo_env project (Some "/repo") w'
      = (w', Returned [lock_item ["claude"]]).
Proof.
  eexists. split; [vm_compute; reflexivity|].
  apply (writeLockFile_read_back demo_env
           (with_installed [("skills/foo", lock_item ["claude"])] emptyLockFile)
           project (Some "/repo") empty_world).
  vm_compute. reflexivity.
Defined.

(** X5. On a project that has no lock file the readers report that
    nothing is installed, and reading creates nothing: the disk is as it
    was. *)
Theorem readers_without_lock_file env (type : ContentType) (id : string)
    (scope : InstallScope) (projectRoot : option string) (w : World) :
  node_at w (lock_node env scope projectRoot) = None →
  getInstalledItems env scope projectRoot w = (w, Returned [])
  ∧ getInstalledItemsByType env type scope projectRoot w = (w, Returned [])
  ∧ isInstalled env type id scope projectRoot w = (w, Returned false)
  ∧ getInstallInfo env type id scope projectRoot w = (w, Returned None)
  ∧ getPreferences env scope projectRoot w = (w, Returned None).
Proof.
  intros Hnone. pose proof (the_lock_missing _ _ _ _ Hnone) as Hlock.
  rewrite (getInstalledItems_run _ _ _ _ _ Hlock).
  rewrite (getInstalledItemsByType_run _ _ _ _ _ _ Hlock).
  rewrite (isInstalled_run _ _ _ _ _ _ _ Hlock).
  rewrite (getInstallInfo_run _ _ _ _ _ _ _ Hlock).
  rewrite (getPreferences_run _ _ _ _ _ Hlock).
  done.
Qed.

Lemma readers_without_lock_file_witness :
  getInstalledItems demo_env project (Some "/repo") empty_world = (empty_world, Returned [])
  ∧ getInstalledItemsByType demo_env skills project (Some "/repo") empty_world
    = (empty_world, Returned [])
  ∧ isInstalled demo_env skills "foo" project (Some "/repo") empty_world
    = (empty_world, Returned false)
  ∧ getInstallInfo demo_env skills "foo" project (Some "/repo") empty_world
    = (empty_world, Returned None)
  ∧ getPreferences demo_env project (Some "/repo") empty_world = (empty_world, Returned None).
Proof.
  apply (readers_without_lock_file demo_env skills "foo" project (Some "/repo") empty_world).
  reflexivity.
Defined.

(** *** Keys *)

Lemma getItemKey_inj type id type' id' :
  getItemKey type id = getItemKey type' id' → type = type' ∧ id = id'.
Proof.
  unfold getItemKey. destruct type, type'; cbn; intros Heq;
    try discriminate; injection Heq as Heq; cbn in Heq; by subst.
Qed.

(** X6. After [updateLockFile] has returned for an item, [isInstalled]
    answers [true] for its type and identifier and [getInstallInfo]
    returns the entry stored for it; for every other type or identifier
    both answer as they did before the update. *)
Theorem updateLockFile_then_installed env (item : InstalledItem) (scope : InstallScope)
    (projectRoot : option string) (w w' : World) :
  updateLockFile env item scope projectRoot w = (w', Returned tt) →
  isInstalled env (i_type item) (i_id item) scope projectRoot w' = (w', Returned true)
  ∧ (∃ entry,
       getInstallInfo env (i_type item) (i_id item) scope projectRoot w'
         = (w', Returned (Some entry))
       ∧ i_type entry = i_type item ∧ i_id entry = i_id item
       ∧ i_hash entry = i_hash item ∧ i_installedAt entry = i_installedAt item
       ∧ ∀ a, a ∈ i_assistants item → a ∈ i_assistants entry)
  ∧ ∀ type id, (type, id) ≠ (i_type item, i_id item) →
      (isInstalled env type id scope projectRoot w').2
        = (isInstalled env type id scope projectRoot w).2
      ∧ (getInstallInfo env type id scope projectRoot w').2
        = (getInstallInfo env type id scope projectRoot w).2.
Proof.
  intros Hrun. apply updateLockFile_read in Hrun as (lockFile & Hlock & Hwrite).
  pose proof (the_lock_written _ _ _ _ _ _ Hwrite) as Hlock'.
  split; [|split].
  - rewrite (isInstalled_run _ _ _ _ _ _ _ Hlock'). cbn [updated_lock installed with_installed].
    by rewrite obj_get_set_eq.
  - exists (merged_entry lockFile item).
    rewrite (getInstallInfo_run _ _ _ _ _ _ _ Hlock'). cbn [updated_lock installed with_installed].
    rewrite obj_get_set_eq. split; [done|]. unfold merged_entry.
    destruct (obj_get _ (installed lockFile)) as [existing|]; cbn; [|done].
    repeat split. intros a Ha. apply Set_from_elem, elem_of_app. by right.
  - intros type id Hne.
    assert (getItemKey type id ≠ getItemKey (i_type item) (i_id item)) as Hkey.
    { intros [-> ->]%getItemKey_inj. by apply Hne. }
    rewrite (isInstalled_run _ _ _ _ _ _ _ Hlock'), (isInstalled_run _ _ _ _ _ _ _ Hlock).
    rewrite (getInstallInfo_run _ _ _ _ _ _ _ Hlock'), (getInstallInfo_run _ _ _ _ _ _ _ Hlock).
    cbn [updated_lock installed with_installed snd].
    by rewrite obj_get_set_ne.
Qed.

Lemma updateLockFile_then_installed_witness :
  isInstalled demo_env skills "foo" project (Some "/repo") after_claude
    = (after_claude, Returned true)
  ∧ (isInstalled demo_env skills "bar" project (Some "/repo") after_claude).2
    = Returned false.
Proof.
  destruct (updateLockFile_then_installed demo_env (lock_item ["claude"]) project
              (Some "/repo") empty_world after_claude) as (Hinstalled & _ & Hothers).
  - vm_compute. reflexivity.
  - split; [exact Hinstalled|].
    destruct (Hothers skills "bar") as [-> _]; [done|]. reflexivity.
Defined.

(** *** Entries under their own key *)

(** Each key once, and every entry under the key of its own type and
    identifier. *)
Definition lock_consistent (lockFile : LockFile) : Prop :=
  NoDup (obj_keys (installed lockFile))
  ∧ Forall (λ kv, kv.1 = getItemKey (i_type kv.2) (i_id kv.2)) (installed lockFile).

Lemma obj_get_In {V} (k : string) (v : V) o :
  NoDup (obj_keys o) → (k, v) ∈ o → obj_get k o = Some v.
Proof.
  induction o as [|[k0 v0] o IH]; simpl; [by intros _ ?%elem_of_nil|].
  intros [Hk0 Hnd]%NoDup_cons [[= -> ->]|Hin]%elem_of_cons.
  - by rewrite String.eqb_refl.
  - destruct (String.eqb_spec k0 k) as [->|Hne]; [|by apply IH].
    destruct Hk0. apply list_elem_of_fmap. by exists (k, v).
Qed.

Lemma obj_set_keyed (P : string → InstalledItem → Prop) k v
    (o : list (string * InstalledItem)) :
  P k v → Forall (λ kv, P kv.1 kv.2) o → Forall (λ kv, P kv.1 kv.2) (obj_set k v o).
Proof.
  intros Hv. induction 1 as [|[k0 v0] o Hx Ho IH]; simpl.
  - by apply Forall_cons_2; [|apply Forall_nil_2].
  - destruct (String.eqb_spec k0 k) as [->|Hne]; by apply Forall_cons_2.
Qed.

Lemma obj_delete_keyed (P : string → InstalledItem → Prop) k
    (o : list (string * InstalledItem)) :
  Forall (λ kv, P kv.1 kv.2) o → Forall (λ kv, P kv.1 kv.2) (obj_delete k o).
Proof.
  induction 1 as [|[k0 v0] o Hx Ho IH]; simpl; [done|].
  destruct (String.eqb k0 k); [done|]. by apply Forall_cons_2.
Qed.

Lemma updated_lock_consistent lockFile item :
  lock_consistent lockFile → lock_consistent (updated_lock lockFile item).
Proof.
  intros [Hnd Hkeys]. split; cbn [updated_lock installed with_installed].
  - by apply obj_keys_set_NoDup.
  - apply (obj_set_keyed (λ k v, k = getItemKey (i_type v) (i_id v))); [|done].
    unfold merged_entry. by destruct (obj_get _ (installed lockFile)).
Qed.

(** The lock file [removeFromLockFile] writes when the entry is there. *)
Definition removed_lock (lockFile : LockFile) (type : ContentType) (id assistantId : string)
    (item : InstalledItem) : LockFile :=
  let assistants := filter (λ a, a ≠ assistantId) (i_assistants item) in
  with_installed
    (if decide (List.length assistants = 0)
     then obj_delete (getItemKey type id) (installed lockFile)
     else obj_set (getItemKey type id) (with_assistants assistants item) (installed lockFile))
    lockFile.

Lemma removeFromLockFile_run env type id assistantId scope projectRoot w lockFile :
  the_lock env scope projectRoot w = Some lockFile →
  removeFromLockFile env type id assistantId scope projectRoot w
  = match obj_get (getItemKey type id) (installed lockFile) with
    | None => (w, Returned tt)
    | Some item =>
        writeLockFile env (removed_lock lockFile type id assistantId item) scope projectRoot w
    end.
Proof.
  intros Hlock. unfold removeFromLockFile, bind at 1. rewrite readLockFile_run.
  unfold bind at 1, cast. unfold the_lock in Hlock. rewrite Hlock.
  by destruct (obj_get _ (installed lockFile)).
Qed.

Lemma removeFromLockFile_read env type id assistantId scope projectRoot w w' :
  removeFromLockFile env type id assistantId scope projectRoot w = (w', Returned tt) →
  ∃ lockFile, the_lock env scope projectRoot w = Some lockFile.
Proof.
  intros Hrun. unfold the_lock.
  destruct (LockFile_of_json (stored_doc w (lock_node env scope projectRoot)))
    as [lockFile|] eqn:Hlock; [by eexists|].
  unfold removeFromLockFile, bind at 1 in Hrun. rewrite readLockFile_run in Hrun.
  unfold bind, cast in Hrun. by rewrite Hlock in Hrun.
Qed.

Lemma removed_lock_consistent lockFile type id assistantId item :
  obj_get (getItemKey type id) (installed lockFile) = Some item →
  lock_consistent lockFile → lock_consistent (removed_lock lockFile type id assistantId item).
Proof.
  intros Hget [Hnd Hkeys]. unfold removed_lock. cbn zeta.
  destruct (decide _); split; cbn [installed with_installed].
  - by apply obj_keys_delete_NoDup.
  - by apply (obj_delete_keyed (λ k v, k = getItemKey (i_type v) (i_id v))).
  - by apply obj_keys_set_NoDup.
  - apply (obj_set_keyed (λ k v, k = getItemKey (i_type v) (i_id v))); [|done].
    cbn. apply obj_get_elem in Hget.
    by apply (proj1 (Forall_forall _ _) Hkeys) in Hget.
Qed.

(** X7. The lock file stays consistent: when every key occurs once and
    every entry is stored under the key of its own type and identifier,
    the same holds after [updateLockFile] and after
    [removeFromLockFile]. In a consistent lock file the three readers
    agree: [getInstalledItemsByType(t)] lists an item exactly when
    [getInstallInfo(t, id)] returns it for its identifier, and then
    [isInstalled(t, id)] is [true]. *)
Theorem lock_file_stays_consistent env (scope : InstallScope) (projectRoot : option string)
    (w : World) (lockFile : LockFile) :
  the_lock env scope projectRoot w = Some lockFile →
  lock_consistent lockFile →
  (∀ item w', updateLockFile env item scope projectRoot w = (w', Returned tt) →
     ∃ lockFile', the_lock env scope projectRoot w' = Some lockFile'
                  ∧ lock_consistent lockFile')
  ∧ (∀ type id assistantId w',
       removeFromLockFile env type id assistantId scope projectRoot w = (w', Returned tt) →
       ∃ lockFile', the_lock env scope projectRoot w' = Some lockFile'
                    ∧ lock_consistent lockFile')
  ∧ (∀ type item listed,
       getInstalledItemsByType env type scope projectRoot w = (w, Returned listed) →
       (item ∈ listed
        ↔ getInstallInfo env type (i_id item) scope projectRoot w = (w, Returned (Some item)))
       ∧ (item ∈ listed →
          isInstalled env type (i_id item) scope projectRoot w = (w, Returned true))).
Proof.
  intros Hlock Hok. split; [|split].
  - intros item w' Hrun. apply updateLockFile_read in Hrun as (lockFile0 & Hlock0 & Hwrite).
    rewrite Hlock in Hlock0. injection Hlock0 as <-.
    eexists. split; [by eapply the_lock_written|]. by apply updated_lock_consistent.
  - intros type id assistantId w' Hrun.
    rewrite (removeFromLockFile_run _ _ _ _ _ _ _ _ Hlock) in Hrun.
    destruct (obj_get (getItemKey type id) (installed lockFile)) as [item|] eqn:Hget.
    + eexists. split; [by eapply the_lock_written|]. by apply removed_lock_consistent.
    + injection Hrun as <-. by exists lockFile.
  - intros type item listed.
    rewrite (getInstalledItemsByType_run _ _ _ _ _ _ Hlock).
    rewrite (getInstallInfo_run _ _ _ _ _ _ _ Hlock).
    rewrite (isInstalled_run _ _ _ _ _ _ _ Hlock).
    intros [= <-]. destruct Hok as [Hnd Hkeys].
    assert (item ∈ filter (λ item0, i_type item0 = type) (obj_values (installed lockFile))
            ↔ obj_get (getItemKey type (i_id item)) (installed lockFile) = Some item) as Hiff.
    { rewrite list_elem_of_filter. unfold obj_values. rewrite list_elem_of_fmap. split.
      - intros [<- ([k v] & -> & Hin)]. cbn.
        pose proof (proj1 (Forall_forall _ _) Hkeys _ Hin) as Hk. cbn in Hk. subst k.
        by apply obj_get_In.
      - intros Hget. apply obj_get_elem in Hget as Hin.
        pose proof (proj1 (Forall_forall _ _) Hkeys _ Hin) as Hk. cbn in Hk.
        apply getItemKey_inj in Hk as [Ht _]. split; [done|].
        by exists (getItemKey type (i_id item), item). }
    split.
    + rewrite Hiff. split; [by intros ->|]. by intros [= ->].
    + intros Hin%Hiff. by rewrite Hin.
Qed.

Lemma lock_file_stays_consistent_witness :
  ∃ listed,
    getInstalledItemsByType demo_env skills project (Some "/repo") after_claude
      = (after_claude, Returned listed)
    ∧ (lock_item ["claude"] ∈ listed
       ↔ getInstallInfo demo_env skills "foo" project (Some "/repo") after_claude
         = (after_claude, Returned (Some (lock_item ["claude"])))).
Proof.
  destruct (lock_file_stays_consistent demo_env project (Some "/repo") after_claude
              (with_installed [("skills/foo", lock_item ["claude"])] emptyLockFile))
    as (_ & _ & Hreaders).
  - vm_compute. reflexivity.
  - split; cbn.
    + apply NoDup_singleton.
    + apply Forall_cons_2; [reflexivity|apply Forall_nil_2].
  - eexists. split; [vm_compute; reflexivity|].
    apply (Hreaders skills (lock_item ["claude"])). vm_compute. reflexivity.
Defined.

(** X8. What [removeFromLockFile] does, the lock file on disk having the
    shape of one. When the item is not in the lock file the call returns
    without writing: the disk is as it was, and no lock file is created.
    When it is there and the call returns, the entry is read back with
    the assistant taken off its list and every other field as it was,
    or not at all when no other assistant was listed; every other entry
    is read back as before. *)
Theorem removeFromLockFile_cases env (type : ContentType) (id assistantId : string)
    (scope : InstallScope) (projectRoot : option string) (w : World) (lockFile : LockFile) :
  the_lock env scope projectRoot w = Some lockFile →
  (obj_get (getItemKey type id) (installed lockFile) = None →
   removeFromLockFile env type id assistantId scope projectRoot w = (w, Returned tt))
  ∧ (∀ item w',
       obj_get (getItemKey type id) (installed lockFile) = Some item →
       removeFromLockFile env type id assistantId scope projectRoot w = (w', Returned tt) →
       getInstallInfo env type id scope projectRoot w'
       = (w', Returned
                (if decide (filter (λ a, a ≠ assistantId) (i_assistants item) = [])
                 then None
                 else Some (with_assistants
                              (filter (λ a, a ≠ assistantId) (i_assistants item)) item)))
       ∧ ∀ type' id', (type', id') ≠ (type, id) →
           getInstallInfo env type' id' scope projectRoot w'
           = (w', Returned (obj_get (getItemKey type' id') (installed lockFile)))).
Proof.
  intros Hlock. rewrite (removeFromLockFile_run _ _ _ _ _ _ _ _ Hlock). split.
  - by intros ->.
  - intros item w' -> Hwrite.
    pose proof (the_lock_written _ _ _ _ _ _ Hwrite) as Hlock'.
    split.
    + rewrite (getInstallInfo_run _ _ _ _ _ _ _ Hlock').
      unfold removed_lock. cbn zeta. cbn [installed with_installed].
      destruct (decide (List.length (filter (λ a, a ≠ assistantId) (i_assistants item)) = 0))
        as [Hzero|Hpos].
      * apply nil_length_inv in Hzero. rewrite Hzero.
        rewrite decide_True by done. by rewrite obj_get_delete_eq.
      * rewrite decide_False by (intros Heq; by rewrite Heq in Hpos).
        by rewrite obj_get_set_eq.
    + intros type' id' Hne.
      assert (getItemKey type' id' ≠ getItemKey type id) as Hkey.
      { intros [-> ->]%getItemKey_inj. by apply Hne. }
      rewrite (getInstallInfo_run _ _ _ _ _ _ _ Hlock').
      unfold removed_lock. cbn zeta. cbn [installed with_installed].
      destruct (decide _); by rewrite ?obj_get_delete_ne, ?obj_get_set_ne.
Qed.

(** A project where [skills/foo] is installed for Claude Code and for
    Cursor. *)
Definition after_both : World :=
  (updateLockFile demo_env (lock_item ["cursor"]) project (Some "/repo") after_claude).1.

Definition cursor_only : World :=
  (removeFromLockFile demo_env skills "foo" "claude" project (Some "/repo") after_both).1.

Lemma removeFromLockFile_cases_witness :
  removeFromLockFile demo_env rules "no-console" "claude" project (Some "/repo") after_both
    = (after_both, Returned tt)
  ∧ removeFromLockFile demo_env skills "foo" "claude" project (Some "/repo") after_both
    = (cursor_only, Returned tt)
  ∧ getInstallInfo demo_env skills "foo" project (Some "/repo") cursor_only
    = (cursor_only, Returned (Some (lock_item ["cursor"]))).
Proof.
  destruct (removeFromLockFile_cases demo_env rules "no-console" "claude" project
              (Some "/repo") after_both
              (with_installed [("skills/foo", lock_item ["claude"; "cursor"])] emptyLockFile))
    as [Habsent _]; [vm_compute; reflexivity|].
  split; [apply Habsent; reflexivity|].
  destruct (removeFromLockFile_cases demo_env skills "foo" "claude" project
              (Some "/repo") after_both
              (with_installed [("skills/foo", lock_item ["claude"; "cursor"])] emptyLockFile))
    as [_ Hpresent]; [vm_compute; reflexivity|].
  split; [vm_compute; reflexivity|].
  destruct (Hpresent (lock_item ["claude"; "cursor"]) cursor_only eq_refl) as [Hinfo _];
    [vm_compute; reflexivity|].
  exact Hinfo.
Defined.

(** *** Updating twice *)

Lemma Set_add_fold_fresh l acc :
  NoDup (acc ++ l) → fold_left Set_add l acc = acc ++ l.
Proof.
  revert acc. induction l as [|x l IH]; intros acc Hnd; simpl.
  - by rewrite app_nil_r.
  - assert (x ∉ acc) as Hx.
    { apply NoDup_app in Hnd as (_ & Hdisj & _). intros Hin.
      apply (Hdisj x Hin). apply list_elem_of_here. }
    unfold Set_add at 2. rewrite decide_False by done.
    rewrite IH; rewrite <- app_assoc; done.
Qed.

Lemma Set_add_fold_known l acc :
  (∀ x, x ∈ l → x ∈ acc) → fold_left Set_add l acc = acc.
Proof.
  induction l as [|x l IH]; intros Hin; simpl; [done|].
  unfold Set_add at 2. rewrite decide_True by (apply Hin, list_elem_of_here).
  apply IH. intros y Hy. by apply Hin, list_elem_of_further.
Qed.

Lemma Set_from_absorb l l' :
  NoDup l → (∀ x, x ∈ l' → x ∈ l) → Set_from (l ++ l') = l.
Proof.
  intros Hnd Hin. unfold Set_from. rewrite fold_left_app.
  rewrite (Set_add_fold_fresh l []) by done. by apply Set_add_fold_known.
Qed.

Lemma with_assistants_same item : with_assistants (i_assistants item) item = item.
Proof. by destruct item. Qed.

Lemma obj_set_set {V} (k : string) (v v' : V) o :
  obj_set k v' (obj_set k v o) = obj_set k v' o.
Proof.
  induction o as [|[k0 v0] o IH]; simpl.
  - by rewrite String.eqb_refl.
  - destruct (String.eqb_spec k0 k) as [->|Hne]; simpl.
    + by rewrite String.eqb_refl.
    + destruct (String.eqb_spec k0 k); [done|]. by rewrite IH.
Qed.

Lemma updated_lock_twice lockFile item :
  NoDup (i_assistants item) →
  updated_lock (updated_lock lockFile item) item = updated_lock lockFile item.
Proof.
  intros Hnd.
  assert (merged_entry (updated_lock lockFile item) item = merged_entry lockFile item)
    as Hsame.
  { unfold merged_entry at 1. cbn [updated_lock installed with_installed].
    rewrite obj_get_set_eq. unfold merged_entry.
    destruct (obj_get _ (installed lockFile)) as [existing|]; cbn.
    - f_equal. apply Set_from_absorb; [apply Set_from_NoDup|].
      intros a Ha. apply Set_from_elem, elem_of_app. by right.
    - rewrite Set_from_absorb by done. apply with_assistants_same. }
  unfold updated_lock at 1. rewrite Hsame.
  unfold updated_lock, with_installed. cbn. by rewrite obj_set_set.
Qed.

Lemma writeLockFile_writable env lockFile scope projectRoot w w' :
  writeLockFile env lockFile scope projectRoot w = (w', Returned tt) →
  lock_writable env scope projectRoot w.
Proof.
  intros Hrun. apply lock_writable_iff.
  apply writeLockFile_returned in Hrun as (w1 & Hmk & _ & Hp & Hden & Hdir).
  pose proof (mkdir_from_frame [] (Path.parent (lock_node env scope projectRoot)) w)
    as (Hd & _).
  unfold Fs.mkdir_p in Hmk. rewrite Hmk in Hd. cbn [fst] in Hd.
  split; [by eapply mkdir_from_returned|]. split; [done|].
  split; [by rewrite <- Hd|].
  by rewrite <- (mkdir_parent_keeps _ _ _ _ Hmk Hp).
Qed.

(** Writing the lock file again over itself changes no node. *)
Lemma writeLockFile_again env lockFile scope projectRoot w w1 :
  writeLockFile env lockFile scope projectRoot w = (w1, Returned tt) →
  ∃ w2, writeLockFile env lockFile scope projectRoot w1 = (w2, Returned tt)
        ∧ nodes w2 = nodes w1.
Proof.
  intros Hrun. pose proof Hrun as Hwritable%writeLockFile_writable.
  pose proof Hrun as (w0 & Hmk & -> & Hp & Hden & Hdir)%writeLockFile_returned.
  apply lock_writable_iff in Hwritable as (Hcan & _ & Hden0 & _).
  destruct (mkdir_from_returns _ _ _ Hcan) as (w0' & Hmk' & Hdirs).
  unfold Fs.mkdir_p in Hmk. rewrite Hmk in Hmk'. injection Hmk' as <-.
  set (p := lock_node env scope projectRoot) in *.
  set (v := File (JsonText (json_of_LockFile lockFile))).
  set (w1 := with_nodes (insert p v) w0).
  assert (∀ k, created [] (Path.parent p) k → nodes w1 !! k = Some Dir) as Hdirs1.
  { intros k Hk. cbn. rewrite lookup_insert_ne; [by apply Hdirs|].
    intros <-. apply created_root in Hk as [_ Hpre]. by apply parent_shorter in Hpre. }
  assert (lock_writable env scope projectRoot w1) as Hwritable1.
  { apply lock_writable_iff. fold p. split; [|split; [done|split]].
    - intros k Hk. left. by apply Hdirs1.
    - done.
    - cbn. by rewrite lookup_insert_eq. }
  destruct (writeLockFile_returns env lockFile _ _ _ Hwritable1) as (w1' & Hmk1 & Hwrite1 & _).
  fold p in Hmk1, Hwrite1. fold v in Hwrite1.
  eexists. split; [exact Hwrite1|].
  pose proof (mkdir_from_frame [] (Path.parent p) w1) as (_ & _ & Hmono & Hnew).
  unfold Fs.mkdir_p in Hmk1. rewrite Hmk1 in Hmono, Hnew. cbn [fst] in Hmono, Hnew.
  assert (nodes w1' = nodes w1) as Hsame.
  { apply map_eq. intros k. destruct (nodes w1' !! k) as [n|] eqn:Hk.
    - destruct (Hnew k n Hk) as [Hold|(-> & Hnone & Hcreated)]; [done|].
      by rewrite (Hdirs1 k Hcreated) in Hnone.
    - destruct (nodes w1 !! k) as [n|] eqn:Hk1; [|done].
      by rewrite (Hmono k n Hk1) in Hk. }
  cbn [nodes with_nodes]. rewrite Hsame. apply insert_id. cbn.
  by rewrite lookup_insert_eq.
Qed.

(** X9. Updating twice is updating once, for an item that lists each of
    its assistants once: when [updateLockFile] has returned, the same
    call made again returns too and leaves every node of the disk as the
    first call left it. *)
Theorem updateLockFile_idempotent env (item : InstalledItem) (scope : InstallScope)
    (projectRoot : option string) (w w1 : World) :
  NoDup (i_assistants item) →
  updateLockFile env item scope projectRoot w = (w1, Returned tt) →
  ∃ w2,
    updateLockFile env item scope projectRoot w1 = (w2, Returned tt)
    ∧ nodes w2 = nodes w1
    ∧ getInstalledItems env scope projectRoot w2
      = (w2, (getInstalledItems env scope projectRoot w1).2).
Proof.
  intros Hnd Hrun. apply updateLockFile_read in Hrun as (lockFile & Hlock & Hwrite).
  pose proof (the_lock_written _ _ _ _ _ _ Hwrite) as Hlock1.
  destruct (writeLockFile_again _ _ _ _ _ _ Hwrite) as (w2 & Hwrite2 & Hnodes).
  exists w2. unfold the_lock in Hlock1.
  rewrite (updateLockFile_run _ _ _ _ _ _ Hlock1), updated_lock_twice by done.
  split; [done|]. split; [done|].
  rewrite (getInstalledItems_run _ _ _ _ _ (the_lock_written _ _ _ _ _ _ Hwrite2)).
  by rewrite (getInstalledItems_run _ _ _ w1 (updated_lock lockFile item)).
Qed.

Lemma updateLockFile_idempotent_witness :
  ∃ w2,
    updateLockFile demo_env (lock_item ["claude"]) project (Some "/repo") after_claude
      = (w2, Returned tt)
    ∧ nodes w2 = nodes after_claude
    ∧ getInstalledItems demo_env project (Some "/repo") w2
      = (w2, (getInstalledItems demo_env project (Some "/repo") after_claude).2).
Proof.
  apply (updateLockFile_idempotent demo_env (lock_item ["claude"]) project (Some "/repo")
           empty_world after_claude).
  - apply NoDup_singleton.
  - vm_compute. reflexivity.
Defined.

(** *** Preferences, the time stamp, clearing *)

Lemma savePreferences_read env arg scope projectRoot w w' :
  savePreferences env arg scope projectRoot w = (w', Returned tt) →
  ∃ lockFile,
    the_lock env scope projectRoot w = Some lockFile
    ∧ writeLockFile env
        (with_preferences (Some (merged_preferences (preferences lockFile) arg)) lockFile)
        scope projectRoot w = (w', Returned tt).
Proof.
  intros Hrun. unfold the_lock. unfold savePreferences, bind at 1 in Hrun.
  rewrite readLockFile_run in Hrun. unfold bind at 1, cast in Hrun.
  destruct (LockFile_of_json (stored_doc w (lock_node env scope projectRoot)))
    as [lockFile|]; [|done].
  by exists lockFile.
Qed.

(** X10. When [savePreferences] has returned, [getPreferences] returns
    an object, also when the argument was [undefined] and the lock file
    had no preferences: never [undefined]. In it a property the argument
    gave a value has that value, a property the argument held as
    [undefined] is gone, and a property the argument left out is as it
    was in the lock file. The installed items are as they were. *)
Theorem savePreferences_merges env (arg : option PreferencesArg) (scope : InstallScope)
    (projectRoot : option string) (w w' : World) :
  savePreferences env arg scope projectRoot w = (w', Returned tt) →
  ∃ old saved,
    getPreferences env scope projectRoot w = (w, Returned old)
    ∧ getPreferences env scope projectRoot w' = (w', Returned (Some saved))
    ∧ (∀ patch, arg = Some patch →
       defaultAssistants saved
         = spread (old ≫= defaultAssistants) (arg_defaultAssistants patch)
       ∧ defaultScope saved = spread (old ≫= defaultScope) (arg_defaultScope patch)
       ∧ defaultMethod saved = spread (old ≫= defaultMethod) (arg_defaultMethod patch))
    ∧ (arg = None →
       defaultAssistants saved = old ≫= defaultAssistants
       ∧ defaultScope saved = old ≫= defaultScope
       ∧ defaultMethod saved = old ≫= defaultMethod)
    ∧ (getInstalledItems env scope projectRoot w').2
      = (getInstalledItems env scope projectRoot w).2.
Proof.
  intros Hrun. apply savePreferences_read in Hrun as (lockFile & Hlock & Hwrite).
  pose proof (the_lock_written _ _ _ _ _ _ Hwrite) as Hlock'.
  exists (preferences lockFile), (merged_preferences (preferences lockFile) arg).
  rewrite (getPreferences_run _ _ _ _ _ Hlock), (getPreferences_run _ _ _ _ _ Hlock').
  rewrite (getInstalledItems_run _ _ _ _ _ Hlock), (getInstalledItems_run _ _ _ _ _ Hlock').
  split; [done|]. split; [done|]. split; [by intros patch ->|]. split; [by intros ->|done].
Qed.

(** A lock file that holds a default scope and a default method. *)
Definition with_defaults : World :=
  (savePreferences demo_env
     (Some {| arg_defaultAssistants := Omitted; arg_defaultScope := Given global;
              arg_defaultMethod := Given copy |})
     project (Some "/repo") after_claude).1.

Definition defaults_changed : World :=
  (savePreferences demo_env
     (Some {| arg_defaultAssistants := Given ["claude"]; arg_defaultScope := Undefined;
              arg_defaultMethod := Omitted |})
     project (Some "/repo") with_defaults).1.

Lemma savePreferences_merges_witness :
  getPreferences demo_env project (Some "/repo") defaults_changed
    = (defaults_changed,
       Returned (Some {| defaultAssistants := Some ["claude"]; defaultScope := None;
                         defaultMethod := Some copy |}))
  ∧ (getInstalledItems demo_env project (Some "/repo") defaults_changed).2
    = Returned [lock_item ["claude"]].
Proof.
  destruct (savePreferences_merges demo_env
              (Some {| arg_defaultAssistants := Given ["claude"];
                       arg_defaultScope := Undefined; arg_defaultMethod := Omitted |})
              project (Some "/repo") with_defaults defaults_changed)
    as (old & saved & Hold & Hsaved & Hfields & _ & Hitems).
  - vm_compute. reflexivity.
  - split; [|by rewrite Hitems].
    destruct (Hfields _ eq_refl) as (Ha & Hs & Hm).
    vm_compute in Hold. injection Hold as <-.
    rewrite Hsaved. destruct saved. cbn in Ha, Hs, Hm. by subst.
Defined.

(** X11. [clearLockFile] always returns, whatever the disk. When the
    lock file is a file that may be removed, it is gone afterwards, the
    readers report nothing installed, and no other node has changed.
    Otherwise the disk is as it was: a lock file that is protected stays
    where it is, and the call returns all the same. *)
Theorem clearLockFile_never_throws env (scope : InstallScope) (projectRoot : option string)
    (w : World) :
  ∃ w',
    clearLockFile env scope projectRoot w = (w', Returned tt)
    ∧ (∀ content,
         node_at w (lock_node env scope projectRoot) = Some (File content) →
         lock_node env scope projectRoot ∉ denied w →
         node_at w' (lock_node env scope projectRoot) = None
         ∧ getInstalledItems env scope projectRoot w' = (w', Returned [])
         ∧ ∀ k, k ≠ lock_node env scope projectRoot → nodes w' !! k = nodes w !! k)
    ∧ ((∀ content, node_at w (lock_node env scope projectRoot) ≠ Some (File content))
       ∨ lock_node env scope projectRoot ∈ denied w →
       w' = w).
Proof.
  unfold clearLockFile, try_catch, Fs.unlink. fold (lock_node env scope projectRoot).
  set (p := lock_node env scope projectRoot).
  destruct (node_at w p) as [[|content]|] eqn:Hnode.
  - exists w. split; [done|]. split; [done|]. done.
  - destruct (decide (p ∈ denied w)) as [Hden|Hfree].
    + exists w. split; [done|]. split; [by intros content' _ Hnot|done].
    + eexists. split; [done|]. split.
      * intros content' _ _.
        assert (node_at (with_nodes (delete p) w) p = None) as Hgone.
        { destruct p; [done|]. cbn. apply lookup_delete_eq. }
        split; [done|]. split.
        -- by rewrite (getInstalledItems_run _ _ _ _ _ (the_lock_missing _ _ _ _ Hgone)).
        -- intros k Hk. cbn. by apply lookup_delete_ne.
      * intros [Hnot|Hden]; [by destruct (Hnot content)|done].
  - exists w. split; [done|]. split; [done|]. done.
Qed.

(** X12. When [updateLastCheck] has returned, the lock file read back
    has the time the clock gave as [lastUpdateCheck], and its version,
    its installed items and its preferences are as they were; the clock
    has been read once. *)
Theorem updateLastCheck_keeps_entries env (scope : InstallScope)
    (projectRoot : option string) (w w' : World) :
  updateLastCheck env scope projectRoot w = (w', Returned tt) →
  ∃ before after,
    the_lock env scope projectRoot w = Some before
    ∧ the_lock env scope projectRoot w' = Some after
    ∧ lastUpdateCheck after = Some (clock env (ticks w))
    ∧ version after = version before
    ∧ installed after = installed before
    ∧ preferences after = preferences before
    ∧ ticks w' = S (ticks w).
Proof.
  intros Hrun. unfold updateLastCheck, bind at 1 in Hrun.
  rewrite readLockFile_run in Hrun. unfold bind at 1, cast in Hrun.
  destruct (LockFile_of_json (stored_doc w (lock_node env scope projectRoot)))
    as [lockFile|] eqn:Hlock; [|done].
  unfold bind, now in Hrun.
  set (w1 := {| nodes := nodes w; denied := denied w; ticks := S (ticks w);
                unreached := unreached w |}) in Hrun.
  exists lockFile, (with_lastUpdateCheck (Some (clock env (ticks w))) lockFile).
  split; [done|]. split; [by eapply the_lock_written|].
  repeat (split; [done|]).
  apply writeLockFile_returned in Hrun as (w2 & Hmk & -> & _).
  pose proof (mkdir_from_frame [] (Path.parent (lock_node env scope projectRoot)) w1)
    as (_ & Hticks & _).
  unfold Fs.mkdir_p in Hmk. rewrite Hmk in Hticks. cbn [fst] in Hticks. cbn. by rewrite Hticks.
Qed.

Lemma updateLastCheck_keeps_entries_witness :
  ∃ w' after,
    updateLastCheck demo_env project (Some "/repo") after_claude = (w', Returned tt)
    ∧ the_lock demo_env project (Some "/repo") w' = Some after
    ∧ lastUpdateCheck after = Some "2026-01-01T00:00:00.000Z"
    ∧ installed after = [("skills/foo", lock_item ["claude"])].
Proof.
  destruct (updateLastCheck_keeps_entries demo_env project (Some "/repo") after_claude
              (updateLastCheck demo_env project (Some "/repo") after_claude).1)
    as (before & after & Hbefore & Hafter & Hstamp & _ & Hinstalled & _).
  - vm_compute. reflexivity.
  - exists (updateLastCheck demo_env project (Some "/repo") after_claude).1, after.
    split; [vm_compute; reflexivity|]. split; [exact Hafter|].
    split; [exact Hstamp|]. rewrite Hinstalled.
    vm_compute in Hbefore. by injection Hbefore as <-.
Defined.

(** ** Installing and what stays on the disk (installer.ts) *)

(** From [w] to [w'] no node has gone: a directory is still a
    directory, and a file is still there, with whatever content. *)
Definition keeps (w w' : World) : Prop :=
  ∀ k, (nodes w !! k = Some Dir → nodes w' !! k = Some Dir)
       ∧ (is_Some (nodes w !! k) → is_Some (nodes w' !! k)).

Definition keeping {A} (m : M A) : Prop := ∀ w, keeps w (m w).1.

Lemma keeps_refl w : keeps w w.
Proof. by intros k. Qed.

Lemma keeps_trans w1 w2 w3 : keeps w1 w2 → keeps w2 w3 → keeps w1 w3.
Proof.
  intros H12 H23 k. destruct (H12 k) as [Hd1 Hs1], (H23 k) as [Hd2 Hs2]. auto.
Qed.

Lemma keeps_node_at w w' p : keeps w w' → is_Some (node_at w p) → is_Some (node_at w' p).
Proof. intros Hkeeps. destruct p; [done|]. apply Hkeeps. Qed.

Lemma keeps_dir_at w w' p : keeps w w' → node_at w p = Some Dir → node_at w' p = Some Dir.
Proof. intros Hkeeps. destruct p; [done|]. apply Hkeeps. Qed.

Lemma keeping_ret {A} (a : A) : keeping (ret a).
Proof. intros w. apply keeps_refl. Qed.

Lemma keeping_throw {A} e : keeping (@throw A e).
Proof. intros w. apply keeps_refl. Qed.

Lemma keeping_cast {A} (x : option A) : keeping (cast x).
Proof. intros w. unfold cast. destruct x; apply keeps_refl. Qed.

Lemma keeping_bind {A B} (m : M A) (k : A → M B) :
  keeping m → (∀ a, keeping (k a)) → keeping (bind m k).
Proof.
  intros Hm Hk w. unfold bind. specialize (Hm w).
  destruct (m w) as [w1 [a| |]]; cbn [fst] in *; [|done|done].
  eapply keeps_trans; [exact Hm|]. apply Hk.
Qed.

Lemma keeping_try_catch {A} (m : M A) (handler : string → M A) :
  keeping m → (∀ e, keeping (handler e)) → keeping (try_catch m handler).
Proof.
  intros Hm Hh w. unfold try_catch. specialize (Hm w).
  destruct (m w) as [w1 [a|e|]]; cbn [fst] in *; [done| |done].
  eapply keeps_trans; [exact Hm|]. apply Hh.
Qed.

Lemma keeping_mkdir_from base todo : keeping (Fs.mkdir_from base todo).
Proof.
  intros w k. pose proof (mkdir_from_frame base todo w) as (_ & _ & Hmono & _).
  split; [apply Hmono|]. intros [n Hn]. exists n. by apply Hmono.
Qed.

Lemma keeping_writeFile p c : keeping (Fs.writeFile p c).
Proof.
  intros w. unfold Fs.writeFile.
  destruct (node_at w (Path.parent p)) as [[|c0]|]; [|apply keeps_refl..].
  destruct (node_at w p) as [[|c1]|] eqn:Hp; [apply keeps_refl| |];
    (destruct (decide (p ∈ denied w)); [apply keeps_refl|]);
    intros k; cbn; (destruct (decide (k = p)) as [->|Hne];
      [|by rewrite lookup_insert_ne]); rewrite lookup_insert_eq.
  - split; [|done]. intros Hdir. destruct p; [done|]. cbn in Hp. congruence.
  - split; [|done]. intros Hdir. destruct p; [done|]. cbn in Hp. congruence.
Qed.

Lemma keeping_copyTree t : ∀ dest, keeping (copyTree t dest).
Proof.
  induction t as [content|entries Hentries] using Tree_induction; intros dest.
  - apply keeping_writeFile.
  - rewrite copyTree_dir. apply keeping_bind; [apply keeping_mkdir_from|].
    intros _.
    induction Hentries as [|[name t] entries Ht Hentries IHentries];
      [apply keeping_ret|].
    rewrite copyEntries_cons. apply keeping_bind; [apply Ht | done].
Qed.

Lemma keeping_copyEntries entries dest : keeping (copyEntries entries dest).
Proof.
  induction entries as [|[name t] entries IH]; [apply keeping_ret|].
  rewrite copyEntries_cons. apply keeping_bind; [apply keeping_copyTree | done].
Qed.

Lemma keeping_copyDir env src dest : keeping (copyDir env src dest).
Proof.
  unfold copyDir, readdirTemplate.
  destruct (template_at env src) as [[content|entries]|].
  - apply keeping_bind; [apply keeping_mkdir_from|]. intros _.
    apply keeping_bind; [apply keeping_throw|]. intros _. apply keeping_ret.
  - apply keeping_copyTree.
  - apply keeping_bind; [apply keeping_mkdir_from|]. intros _.
    apply keeping_bind; [apply keeping_throw|]. intros _. apply keeping_ret.
Qed.

Lemma keeping_installToAi env item scope projectRoot :
  keeping (installToAi env item scope projectRoot).
Proof.
  unfold installToAi, installToCanonical.
  apply keeping_try_catch; [|intros e; apply keeping_ret].
  apply keeping_bind; [|intros a; apply keeping_ret].
  apply keeping_bind; [apply keeping_copyDir|]. intros _. apply keeping_ret.
Qed.

Lemma keeping_readLockFile env scope projectRoot :
  keeping (readLockFile env scope projectRoot).
Proof. intros w. rewrite readLockFile_run. apply keeps_refl. Qed.

Lemma keeping_writeLockFile env lockFile scope projectRoot :
  keeping (writeLockFile env lockFile scope projectRoot).
Proof.
  unfold writeLockFile. apply keeping_bind; [apply keeping_mkdir_from|].
  intros _. apply keeping_writeFile.
Qed.

Lemma keeping_updateLockFile env item scope projectRoot :
  keeping (updateLockFile env item scope projectRoot).
Proof.
  unfold updateLockFile. apply keeping_bind; [apply keeping_readLockFile|]. intros doc.
  apply keeping_bind; [apply keeping_cast|]. intros lockFile.
  apply keeping_writeLockFile.
Qed.

Lemma keeping_getContentHash env filePath : keeping (getContentHash env filePath).
Proof.
  unfold getContentHash, readTemplate.
  apply keeping_bind; [|intros c; apply keeping_ret].
  destruct (template_at env _) as [[c|entries]|];
    [apply keeping_ret|apply keeping_throw|apply keeping_throw].
Qed.

Lemma keeping_now env : keeping (now env).
Proof. by intros w k. Qed.

Lemma keeping_installOne env assistantIds representative scope projectRoot item :
  keeping (installOne env assistantIds representative scope projectRoot item).
Proof.
  unfold installOne. apply keeping_bind; [apply keeping_installToAi|]. intros result.
  apply keeping_bind; [|intros _; apply keeping_ret].
  destruct (result.1.1); [|apply keeping_ret].
  apply keeping_bind; [apply keeping_getContentHash|]. intros hash.
  apply keeping_bind; [apply keeping_now|]. intros installedAt.
  apply keeping_updateLockFile.
Qed.

(** A copy that went through has made the target directory. *)
Lemma copyDir_makes_dir env src dest w w' :
  copyDir env src dest w = (w', Returned tt) → node_at w' dest = Some Dir.
Proof.
  intros Hrun. pose proof Hrun as [entries Hdir]%copyDir_returned.
  unfold copyDir in Hrun. rewrite Hdir, copyTree_dir in Hrun. unfold bind in Hrun.
  destruct (ensureDir dest w) as [w1 [[]| |]] eqn:Hmk; try done.
  apply mkdir_p_dir in Hmk.
  pose proof (keeping_copyEntries entries dest w1) as Hkeeps. rewrite Hrun in Hkeeps.
  by apply (keeps_dir_at w1).
Qed.

Lemma installOne_installed env assistantIds representative scope projectRoot item w w' r :
  installOne env assistantIds representative scope projectRoot item w = (w', Returned r) →
  r_success r = true →
  node_at w' (install_node env item scope projectRoot) = Some Dir.
Proof.
  intros Hrun Hsuccess. pose proof Hrun as (Hres & _ & _)%installOne_returned.
  destruct (installToAi_returns env item scope projectRoot w)
    as (w1 & _ & [[Hai Hcopy]|(message & Hai & _)]).
  - apply copyDir_makes_dir in Hcopy.
    unfold installOne, bind at 1 in Hrun. rewrite Hai in Hrun. cbn [fst snd] in Hrun.
    unfold bind at 1 in Hrun.
    match type of Hrun with
    | (let (_, _) := ?X in _) = _ =>
        pose proof (eq_refl X) as Hrest; destruct X as [w2 [[]| |]] eqn:Hupd in Hrun
    end; try done.
    injection Hrun as <- _.
    assert (keeps w1 w2) as Hkeeps; [|by apply (keeps_dir_at w1)].
    match type of Hupd with
    | ?m w1 = _ => assert (keeping m) as Hk; [|specialize (Hk w1); by rewrite Hupd in Hk]
    end.
    apply keeping_bind; [apply keeping_getContentHash|]. intros hash.
    apply keeping_bind; [apply keeping_now|]. intros installedAt.
    apply keeping_updateLockFile.
  - rewrite Hai in Hres. injection Hres as Hs _ _. congruence.
Qed.

Lemma installLoop_installed env assistantIds representative scope projectRoot items :
  ∀ results w w' results',
    installLoop env assistantIds representative scope projectRoot items results w
      = (w', Returned results') →
    (∀ r, r ∈ results → r_success r = true →
       node_at w (install_node env (r_item r) scope projectRoot) = Some Dir) →
    ∀ r, r ∈ results' → r_success r = true →
      node_at w' (install_node env (r_item r) scope projectRoot) = Some Dir.
Proof.
  induction items as [|item rest IH]; intros results w w' results' Hrun Hbefore.
  { injection Hrun as <- <-. done. }
  rewrite installLoop_cons in Hrun. unfold bind in Hrun.
  destruct (installOne env assistantIds representative scope projectRoot item w)
    as [w1 [r1| |]] eqn:Hone; try done.
  apply (IH _ _ _ _ Hrun). intros r [Hr|Hr%list_elem_of_singleton]%elem_of_app Hsuccess.
  - pose proof (keeping_installOne env assistantIds representative scope projectRoot item w)
      as Hkeeps. rewrite Hone in Hkeeps. apply (keeps_dir_at w); [done|]. by apply Hbefore.
  - subst r. pose proof Hone as (_ & -> & _)%installOne_returned.
    by eapply installOne_installed.
Qed.

(** X13. When [installItems] has returned, every item it reports as
    installed is installed as [isItemInstalled] sees it, also when other
    items were installed after it: its canonical directory is there. *)
Theorem installItems_then_isItemInstalled env (items : list CatalogItem)
    (assistants : list AssistantConfig) (scope : InstallScope) (method : InstallMethod)
    (projectRoot : option string) (w w' : World) (summary : InstallSummary) :
  installItems env items assistants scope method projectRoot w = (w', Returned summary) →
  ∀ r assistant, r ∈ results summary → r_success r = true →
    isItemInstalled env (r_item r) assistant scope projectRoot w' = (w', Returned true)
    ∧ node_at w' (canonical_node env (r_item r) scope projectRoot) = Some Dir.
Proof.
  intros Hrun r assistant Hr Hsuccess. unfold installItems, bind in Hrun.
  destruct (installLoop env _ _ _ _ items [] w) as [w1 [new| |]] eqn:Hloop; try done.
  injection Hrun as <- <-. cbn [results] in Hr.
  assert (node_at w1 (canonical_node env (r_item r) scope projectRoot) = Some Dir) as Hdir.
  { apply (installLoop_installed _ _ _ _ _ _ _ _ _ _ Hloop); [|done|done].
    by intros r0 Hr0%elem_of_nil. }
  split; [|done].
  unfold isItemInstalled, try_catch, bind, Fs.access.
  fold (canonical_node env (r_item r) scope projectRoot). by rewrite Hdir.
Qed.

Lemma installItems_then_isItemInstalled_witness :
  ∃ w' summary,
    installItems demo_env [missing_item; demo_item] [claude demo_env] project symlink
      (Some "/repo") empty_world = (w', Returned summary)
    ∧ isItemInstalled demo_env demo_item (claude demo_env) project (Some "/repo") w'
      = (w', Returned true).
Proof.
  set (run := installItems demo_env [missing_item; demo_item] [claude demo_env] project
                symlink (Some "/repo") empty_world).
  assert (∃ summary, run = (run.1, Returned summary)
                     ∧ ∃ r, r ∈ results summary ∧ r_success r = true ∧ r_item r = demo_item)
    as (summary & Hrun & r & Hr & Hsuccess & Hitem).
  { eexists. split; [vm_compute; reflexivity|]. eexists. split; [|split].
    - cbn [results]. apply list_elem_of_further, list_elem_of_here.
    - reflexivity.
    - reflexivity. }
  exists run.1, summary. split; [exact Hrun|].
  destruct (installItems_then_isItemInstalled demo_env [missing_item; demo_item]
              [claude demo_env] project symlink (Some "/repo") empty_world run.1 summary Hrun
              r (claude demo_env) Hr Hsuccess) as [Hinstalled _].
  by rewrite Hitem in Hinstalled.
Defined.

Lemma isInstalled_outcome env type id scope projectRoot w :
  (isInstalled env type id scope projectRoot w).2
  = match the_lock env scope projectRoot w with
    | Some lockFile =>
        Returned (bool_decide (is_Some (obj_get (getItemKey type id) (installed lockFile))))
    | None => IllTyped
    end.
Proof.
  unfold isInstalled, bind at 1. rewrite readLockFile_run. unfold bind, cast, the_lock.
  by destruct (LockFile_of_json _).
Qed.

Lemma getInstallInfo_outcome env type id scope projectRoot w :
  (getInstallInfo env type id scope projectRoot w).2
  = match the_lock env scope projectRoot w with
    | Some lockFile => Returned (obj_get (getItemKey type id) (installed lockFile))
    | None => IllTyped
    end.
Proof.
  unfold getInstallInfo, bind at 1. rewrite readLockFile_run. unfold bind, cast, the_lock.
  by destruct (LockFile_of_json _).
Qed.

(** X14. When [uninstallItem] has returned [true], [isItemInstalled]
    answers [false]. The lock file is not updated: when the canonical
    directory does not hold the lock file, [isInstalled] and
    [getInstallInfo] answer what they answered before, so that an item
    that was recorded in the lock file is still recorded there. *)
Theorem uninstallItem_leaves_lock_file env (item : CatalogItem)
    (assistant : AssistantConfig) (scope : InstallScope) (projectRoot : option string)
    (w w' : World) :
  uninstallItem env item assistant scope projectRoot w = (w', Returned true) →
  isItemInstalled env item assistant scope projectRoot w' = (w', Returned false)
  ∧ ∀ lockRoot,
      ¬ canonical_node env item scope projectRoot `prefix_of` lock_node env scope lockRoot →
      ∀ type id,
        (isInstalled env type id scope lockRoot w').2
          = (isInstalled env type id scope lockRoot w).2
        ∧ (getInstallInfo env type id scope lockRoot w').2
          = (getInstallInfo env type id scope lockRoot w).2.
Proof.
  intros Hrun.
  destruct (uninstallItem_returned_true _ _ _ _ _ _ _ Hrun) as [Hgone Hout].
  split.
  { unfold isItemInstalled, try_catch, bind, Fs.access.
    fold (canonical_node env item scope projectRoot). by rewrite Hgone. }
  intros lockRoot Hapart type id.
  assert (stored_doc w' (lock_node env scope lockRoot)
          = stored_doc w (lock_node env scope lockRoot)) as Hdoc.
  { unfold stored_doc. destruct (lock_node env scope lockRoot) as [|seg rest] eqn:Hp; [done|].
    cbn [node_at]. by rewrite (Hout _ Hapart). }
  rewrite !isInstalled_outcome, !getInstallInfo_outcome. unfold the_lock.
  by rewrite Hdoc.
Qed.

(** A project where [skills/foo] has been installed for Claude Code. *)
Definition foo_installed : World :=
  (installItems demo_env [demo_item] [claude demo_env] project symlink (Some "/repo")
     empty_world).1.

Definition foo_removed : World :=
  (uninstallItem demo_env demo_item (claude demo_env) project (Some "/repo") foo_installed).1.

Lemma uninstallItem_leaves_lock_file_witness :
  uninstallItem demo_env demo_item (claude demo_env) project (Some "/repo") foo_installed
    = (foo_removed, Returned true)
  ∧ isItemInstalled demo_env demo_item (claude demo_env) project (Some "/repo") foo_removed
    = (foo_removed, Returned false)
  ∧ (isInstalled demo_env skills "foo" project (Some "/repo") foo_removed).2 = Returned true.
Proof.
  destruct (uninstallItem_leaves_lock_file demo_env demo_item (claude demo_env) project
              (Some "/repo") foo_installed foo_removed) as [Hgone Hlock].
  - vm_compute. reflexivity.
  - split; [vm_compute; reflexivity|]. split; [exact Hgone|].
    destruct (Hlock (Some "/repo")) with (type := skills) (id := "foo") as [-> _].
    + intros [rest Hrest]. vm_compute in Hrest. discriminate.
    + vm_compute. reflexivity.
Defined.

(** *** What a copy puts on the disk *)





Lemma obj_get_name {V} name (v : V) entries :
  obj_get name entries = Some v → name ∈ map fst entries.
Proof.
  intros Hget%obj_get_elem. apply list_elem_of_fmap. by exists (name, v).
Qed.








(** ** Strings *)

(** Appending to a string that starts with a character. *)
Ltac append_cons :=
  repeat match goal with
  | |- context [String ?c ?s +:+ ?t] => change (String c s +:+ t) with (String c (s +:+ t))
  | |- context [EmptyString +:+ ?t] => change (EmptyString +:+ t) with t
  | H : context [String ?c ?s +:+ ?t] |- _ =>
      change (String c s +:+ t) with (String c (s +:+ t)) in H
  | H : context [EmptyString +:+ ?t] |- _ => change (EmptyString +:+ t) with t in H
  end.

Lemma prefix_nil_r s : String.prefix "" s = true.
Proof. by destruct s. Qed.

Lemma prefix_cons a b s t :
  String.prefix (String a s) (String b t) = bool_decide (a = b) && String.prefix s t.
Proof.
  cbn. destruct (ascii_dec a b) as [->|Hne].
  - by rewrite bool_decide_eq_true_2.
  - by rewrite bool_decide_eq_false_2.
Qed.

Lemma prefix_append_same s t : String.prefix s (s +:+ t) = true.
Proof.
  induction s as [|c s IH]; [apply prefix_nil_r|].
  change (String c s +:+ t) with (String c (s +:+ t)).
  rewrite prefix_cons, IH. by rewrite bool_decide_eq_true_2.
Qed.

(** A prefix test looks at no more characters than the prefix has. *)
Lemma prefix_append_long sub x y :
  (String.length sub ≤ String.length x)%nat →
  String.prefix sub (x +:+ y) = String.prefix sub x.
Proof.
  revert x. induction sub as [|c sub IH]; intros x Hlen; [by rewrite !prefix_nil_r|].
  destruct x as [|d x]; [cbn in Hlen; lia|].
  change (String d x +:+ y) with (String d (x +:+ y)).
  rewrite !prefix_cons, IH; [done|]. cbn in Hlen. lia.
Qed.


Lemma append_assoc (a b c : string) : (a +:+ b) +:+ c = a +:+ (b +:+ c).
Proof. induction a as [|x a IH]; [done|]. append_cons. f_equal. apply IH. Qed.

Lemma append_nil_r (a : string) : a +:+ "" = a.
Proof. induction a as [|x a IH]; [done|]. append_cons. f_equal. apply IH. Qed.

Lemma length_append (a b : string) :
  String.length (a +:+ b) = (String.length a + String.length b)%nat.
Proof.
  induction a as [|x a IH]; [done|]. append_cons.
  change (S (String.length (a +:+ b)) = S (String.length a + String.length b)).
  by rewrite IH.
Qed.




Lemma drop_append s t : Str.drop (String.length s) (s +:+ t) = t.
Proof. induction s as [|c s IH]; [by destruct t|]. apply IH. Qed.

Lemma drop_add n m s : Str.drop (n + m) s = Str.drop m (Str.drop n s).
Proof.
  revert s. induction n as [|n IH]; intros s.
  - cbn. by destruct s.
  - destruct s as [|c s]; [by destruct m|]. apply IH.
Qed.

Lemma take_append s t : Str.take (String.length s) (s +:+ t) = s.
Proof.
  unfold Str.take. induction s as [|c s IH]; [by destruct t|].
  append_cons.
  change (String.substring 0 (String.length (String c s)) (String c (s +:+ t)))
    with (String c (String.substring 0 (String.length s) (s +:+ t))).
  by rewrite IH.
Qed.

(** ** Searching the catalog (catalog.ts) *)



(** ** Names in kebab case (catalog.ts) *)

(** A word of the pattern: one or more lowercase letters and digits. *)
Definition is_word (g : string) : bool :=
  negb (String.eqb g "") && forallb is_lower_alnum (Str.chars g).

(** [-w1-w2...] *)
Fixpoint hyphenated (words : list string) : string :=
  match words with
  | [] => ""
  | word :: rest => "-" +:+ word +:+ hyphenated rest
  end.

Lemma concat_hyphenated word words :
  String.concat "-" (word :: words) = word +:+ hyphenated words.
Proof.
  revert word. induction words as [|next words IH]; intros word.
  - cbn. by rewrite append_nil_r.
  - change (String.concat "-" (word :: next :: words))
      with (word +:+ "-" +:+ String.concat "-" (next :: words)).
    by rewrite IH.
Qed.

Lemma kebab_from_cons b c rest :
  kebab_from b (String c rest)
  = if is_lower_alnum c then kebab_from true rest
    else if Ascii.eqb c "-" then b && kebab_from false rest
    else false.
Proof. reflexivity. Qed.

Lemma kebab_from_words words :
  ∀ g b, forallb is_lower_alnum (Str.chars g) = true → (b = true ∨ g ≠ "") →
    Forall (λ word, is_word word = true) words →
    kebab_from b (g +:+ hyphenated words) = true.
Proof.
  induction words as [|word words IH]; intros g.
  - cbn [hyphenated]. rewrite append_nil_r.
    induction g as [|c g IHg]; intros b Halnum Hb _.
    + by destruct Hb.
    + rewrite kebab_from_cons. cbn in Halnum. apply andb_prop in Halnum as [-> Halnum].
      apply IHg; [done|by left|done].
  - induction g as [|c g IHg]; intros b Halnum Hb Hwords.
    + destruct Hb as [->|]; [|done]. cbn [hyphenated]. append_cons.
      rewrite kebab_from_cons. cbn [is_lower_alnum]. 
      change (is_lower_alnum "-") with false. cbv iota.
      change (Ascii.eqb "-" "-") with true. cbv iota. cbn [andb].
      apply Forall_cons in Hwords as [Hword Hwords].
      apply andb_prop in Hword as [Hne Halnum'].
      apply IH; [done| |done]. right. intros ->. done.
    + append_cons. rewrite kebab_from_cons. cbn in Halnum.
      apply andb_prop in Halnum as [-> Halnum].
      apply IHg; [done|by left|done].
Qed.

Lemma kebab_from_inv s :
  ∀ b, kebab_from b s = true →
    ∃ g words,
      forallb is_lower_alnum (Str.chars g) = true ∧ (b = true ∨ g ≠ "")
      ∧ Forall (λ word, is_word word = true) words
      ∧ s = g +:+ hyphenated words.
Proof.
  induction s as [|c s IH]; intros b Hrun.
  - exists "", []. cbn in Hrun. repeat split; [by left|apply Forall_nil_2].
  - rewrite kebab_from_cons in Hrun. destruct (is_lower_alnum c) eqn:Hc.
    + apply IH in Hrun as (g & words & Halnum & _ & Hwords & ->).
      exists (String c g), words. split; [cbn; by rewrite Hc|]. split; [by right|].
      done.
    + destruct (Ascii.eqb_spec c "-") as [->|Hne]; [|done].
      apply andb_prop in Hrun as [-> Hrun].
      apply IH in Hrun as (g & words & Halnum & [?|Hg] & Hwords & ->); [done|].
      exists "", (g :: words). split; [done|]. split; [by left|]. split; [|done].
      apply Forall_cons_2; [|done]. unfold is_word. rewrite Halnum, andb_true_r.
      by destruct g.
Qed.

(** X17. The test of names accepts exactly the strings made of one or
    more words joined by single hyphens, a word being one or more
    lowercase letters and digits: no capital, no space, no hyphen at
    either end, no two hyphens in a row, and not the empty string. *)
Theorem KEBAB_CASE_RE_words (name : string) :
  KEBAB_CASE_RE name = true
  ↔ ∃ words, words ≠ []
             ∧ Forall (λ word, is_word word = true) words
             ∧ name = String.concat "-" words.
Proof.
  unfold KEBAB_CASE_RE. split.
  - intros (g & words & Halnum & [?|Hg] & Hwords & ->)%kebab_from_inv; [done|].
    exists (g :: words). split; [done|]. split; [|by rewrite concat_hyphenated].
    apply Forall_cons_2; [|done]. unfold is_word. rewrite Halnum, andb_true_r.
    by destruct g.
  - intros (words & Hne & Hwords & ->). destruct words as [|g words]; [done|].
    rewrite concat_hyphenated. apply Forall_cons in Hwords as [Hg Hwords].
    apply andb_prop in Hg as [Hg Halnum].
    apply kebab_from_words; [done| |done]. right. intros ->. done.
Qed.

(** ** When a frontmatter is valid (catalog.ts) *)

Lemma all_warnings_app (a b : list ValidationIssue) :
  (∀ i, i ∈ a ++ b → severity i = warning)
  ↔ (∀ i, i ∈ a → severity i = warning) ∧ (∀ i, i ∈ b → severity i = warning).
Proof.
  split.
  - intros H. split; intros i Hi; apply H, elem_of_app; [by left|by right].
  - intros [Ha Hb] i [Hi|Hi]%elem_of_app; [by apply Ha|by apply Hb].
Qed.

Lemma all_warnings_when b (issue : ValidationIssue) :
  (∀ i, i ∈ when b issue → severity i = warning) ↔ (b = true → severity issue = warning).
Proof.
  destruct b; cbn.
  - split; [intros H _; apply H, list_elem_of_here|].
    intros H i ->%list_elem_of_singleton. by apply H.
  - split; [done|]. by intros _ i ?%elem_of_nil.
Qed.

Lemma name_issues_warnings name folderId :
  (∀ i, i ∈ name_issues name folderId → severity i = warning)
  ↔ ∃ n, truthy name = Some n ∧ KEBAB_CASE_RE n = true
         ∧ existsb (Str.startsWith n) RESERVED_PREFIXES = false.
Proof.
  unfold name_issues. destruct (truthy name) as [n|].
  - rewrite !all_warnings_app, !all_warnings_when. cbn [severity kebab_issue reserved_issue issue].
    split.
    + intros (Hkebab & Hreserved & _). exists n. split; [done|]. split.
      * destruct (KEBAB_CASE_RE n); [done|]. by specialize (Hkebab eq_refl).
      * destruct (existsb _ _); [|done]. by specialize (Hreserved eq_refl).
    + intros (n' & [= <-] & Hkebab & Hreserved). rewrite Hkebab, Hreserved.
      split; [done|]. split; [done|].
      destruct (truthy folderId) as [f|]; [|by intros i ?%elem_of_nil].
      apply all_warnings_when. done.
  - split.
    + intros H. specialize (H _ (list_elem_of_here _ _)). done.
    + by intros (n & ? & _).
Qed.

Lemma description_issues_warnings description :
  (∀ i, i ∈ description_issues description → severity i = warning)
  ↔ ∃ d, truthy description = Some d ∧ (String.length d ≤ 1024)%nat
         ∧ XML_BRACKETS_RE d = false.
Proof.
  unfold description_issues. destruct (truthy description) as [d|].
  - cbv zeta. rewrite !all_warnings_app, !all_warnings_when.
    cbn [severity length_issue description_brackets_issue trigger_issue issue].
    split.
    + intros (Hlength & Hbrackets & _). exists d. split; [done|]. split.
      * destruct (1024 <? String.length d)%nat eqn:Hlt;
          [by specialize (Hlength eq_refl)|]. by apply Nat.ltb_ge in Hlt.
      * destruct (XML_BRACKETS_RE d); [|done]. by specialize (Hbrackets eq_refl).
    + intros (d' & [= <-] & Hlength & Hbrackets). rewrite Hbrackets.
      apply Nat.ltb_ge in Hlength. rewrite Hlength. done.
  - split.
    + intros H. specialize (H _ (list_elem_of_here _ _)). done.
    + by intros (d & ? & _).
Qed.

Lemma entry_issues_warnings (frontmatter : Frontmatter) :
  (∀ i, i ∈ entry_issues frontmatter → severity i = warning)
  ↔ ∀ key value, (key, FString value) ∈ frontmatter → key ≠ "description" →
      XML_BRACKETS_RE value = false.
Proof.
  unfold entry_issues. induction frontmatter as [|[key [value|items]] frontmatter IH].
  - split; [by intros _ key value ?%elem_of_nil|by intros _ i ?%elem_of_nil].
  - cbn [flat_map]. rewrite all_warnings_app, IH. split.
    + intros [Hhead Htail] key' value' [[= -> ->]|Hin]%elem_of_cons Hkey;
        [|by apply (Htail key')].
      destruct (String.eqb_spec key "description"); [done|].
      destruct (XML_BRACKETS_RE value); [|done].
      by specialize (Hhead _ (list_elem_of_here _ _)).
    + intros H. split.
      * destruct (String.eqb_spec key "description") as [->|Hkey];
          [by intros i ?%elem_of_nil|].
        rewrite (H key value); [by intros i ?%elem_of_nil|apply list_elem_of_here|done].
      * intros key' value' Hin. apply (H key'). by apply list_elem_of_further.
  - cbn [flat_map]. rewrite all_warnings_app, IH. split.
    + intros [_ Htail] key' value' [[=]|Hin]%elem_of_cons; by apply (Htail key').
    + intros H. split; [by intros i ?%elem_of_nil|].
      intros key' value' Hin. apply (H key'). by apply list_elem_of_further.
Qed.

(** X18. Where [name] and [description] are strings or missing,
    [validateFrontmatter] returns a valid result exactly when the name
    is a non-empty kebab-case string that starts with neither reserved
    prefix, the description is a non-empty string of at most 1024
    characters without angle brackets, and no other string value holds
    an angle bracket. The folder name, the category and the tags play no
    part in it: with and without a folder name the result is equally
    valid. *)
Theorem validateFrontmatter_valid_exactly_when (frontmatter : Frontmatter)
    (folderId name description : option string) :
  as_string (obj_get "name" frontmatter) = Some name →
  as_string (obj_get "description" frontmatter) = Some description →
  ∃ r r',
    validateFrontmatter frontmatter folderId = Returned r
    ∧ validateFrontmatter frontmatter None = Returned r'
    ∧ valid r = valid r'
    ∧ (valid r = true
       ↔ (∃ n, truthy name = Some n ∧ KEBAB_CASE_RE n = true
               ∧ Str.startsWith n "claude" = false
               ∧ Str.startsWith n "anthropic" = false)
         ∧ (∃ d, truthy description = Some d ∧ (String.length d ≤ 1024)%nat
                 ∧ XML_BRACKETS_RE d = false)
         ∧ ∀ key value, (key, FString value) ∈ frontmatter → key ≠ "description" →
             XML_BRACKETS_RE value = false).
Proof.
  intros Hname Hdescription. unfold validateFrontmatter. rewrite Hname, Hdescription.
  eexists _, _. split; [reflexivity|]. split; [reflexivity|]. cbn [valid issues].
  assert (∀ folder,
            negb (existsb is_error
                    (name_issues name folder ++ description_issues description
                     ++ entry_issues frontmatter
                     ++ when (falsy (obj_get "category" frontmatter)) category_issue
                     ++ when (falsy (obj_get "tags" frontmatter)) tags_issue)) = true
            ↔ (∃ n, truthy name = Some n ∧ KEBAB_CASE_RE n = true
                    ∧ Str.startsWith n "claude" = false
                    ∧ Str.startsWith n "anthropic" = false)
              ∧ (∃ d, truthy description = Some d ∧ (String.length d ≤ 1024)%nat
                      ∧ XML_BRACKETS_RE d = false)
              ∧ ∀ key value, (key, FString value) ∈ frontmatter → key ≠ "description" →
                  XML_BRACKETS_RE value = false) as Hiff.
  { intros folder. rewrite no_error_iff, !all_warnings_app, !all_warnings_when.
    rewrite name_issues_warnings, description_issues_warnings, entry_issues_warnings.
    cbn [RESERVED_PREFIXES existsb].
    split.
    - intros ((n & Hn & Hkebab & Hreserved) & Hd & Hentries & _).
      rewrite orb_false_r in Hreserved. apply orb_false_elim in Hreserved as [? ?].
      split; [by exists n|]. done.
    - intros ((n & Hn & Hkebab & Hclaude & Hanthropic) & Hd & Hentries).
      split; [exists n; by rewrite Hclaude, Hanthropic|]. done. }
  split; [|apply Hiff].
  destruct (negb (existsb is_error (name_issues name folderId ++ _))) eqn:Hvalid.
  - symmetry. apply Hiff. by apply (Hiff folderId).
  - symmetry. apply not_true_is_false. intros Hvalid'%Hiff.
    apply (Hiff folderId) in Hvalid'. congruence.
Qed.

Lemma validateFrontmatter_valid_exactly_when_witness :
  ∃ r,
    validateFrontmatter
      [("name", FString "git-workflow"); ("description", FString "Git habits.")]
      (Some "another-folder") = Returned r
    ∧ valid r = true.
Proof.
  destruct (validateFrontmatter_valid_exactly_when
              [("name", FString "git-workflow"); ("description", FString "Git habits.")]
              (Some "another-folder") (Some "git-workflow") (Some "Git habits."))
    as (r & r' & Hr & _ & _ & Hvalid); [reflexivity|reflexivity|].
  exists r. split; [exact Hr|]. apply Hvalid. split; [|split].
  - exists "git-workflow". by vm_compute.
  - exists "Git habits.". split; [reflexivity|]. split; [cbn; lia|reflexivity].
  - intros key value [[= -> ->]|[[= -> ->]|?%elem_of_nil]%elem_of_cons]%elem_of_cons Hkey;
      [reflexivity|done|done].
Defined.

(** ** Reading frontmatter (catalog.ts) *)

Lemma indexOf_cons s sub c :
  Str.indexOf (String c s) sub
  = if String.prefix sub (String c s) then Some 0 else S <$> Str.indexOf s sub.
Proof. reflexivity. Qed.

Lemma indexOf_here s sub : String.prefix sub s = true → Str.indexOf s sub = Some 0.
Proof.
  intros Hpre. destruct s as [|c s].
  - change (Str.indexOf "" sub) with (if String.prefix sub "" then Some 0 else None).
    by rewrite Hpre.
  - by rewrite indexOf_cons, Hpre.
Qed.

(** The first place where [sub] occurs in [a ++ sub] is its first place
    in [a ++ sub ++ rest]. *)
Lemma indexOf_append a sub rest :
  Str.indexOf (a +:+ sub) sub = Some (String.length a) →
  Str.indexOf (a +:+ sub +:+ rest) sub = Some (String.length a).
Proof.
  induction a as [|c a IH]; intros Hfirst.
  - append_cons. apply indexOf_here, prefix_append_same.
  - append_cons. rewrite indexOf_cons in Hfirst |- *.
    rewrite <- append_assoc.
    change (String c ((a +:+ sub) +:+ rest)) with (String c (a +:+ sub) +:+ rest).
    rewrite prefix_append_long.
    + destruct (String.prefix sub (String c (a +:+ sub))); [done|].
      rewrite append_assoc. rewrite IH; [done|].
      destruct (Str.indexOf (a +:+ sub) sub) as [i|]; [|done].
      cbn in Hfirst. injection Hfirst as ->. done.
    + change (String c (a +:+ sub)) with (String c a +:+ sub).
      rewrite length_append. lia.
Qed.

Lemma match_frontmatter_fenced yaml body :
  Str.indexOf (yaml +:+ FENCE_CLOSE) FENCE_CLOSE = Some (String.length yaml) →
  match_frontmatter (FENCE_OPEN +:+ yaml +:+ FENCE_CLOSE +:+ body) = Some (yaml, body).
Proof.
  intros Hfirst. unfold match_frontmatter, Str.startsWith.
  rewrite prefix_append_same, drop_append.
  rewrite (indexOf_append _ _ body Hfirst). cbn [mbind option_bind].
  rewrite take_append, drop_add, drop_append.
  by rewrite drop_append.
Qed.

Lemma parseFrontmatter_fenced yaml body :
  Str.indexOf (yaml +:+ FENCE_CLOSE) FENCE_CLOSE = Some (String.length yaml) →
  parseFrontmatter (FENCE_OPEN +:+ yaml +:+ FENCE_CLOSE +:+ body)
  = (fold_left parse_line (Str.split (ascii_of_nat 10) yaml) [], body).
Proof. intros Hfirst. unfold parseFrontmatter. by rewrite match_frontmatter_fenced. Qed.

(** X19. [parseFrontmatter] splits the content at the first closing
    fence. The content being an opening fence, a text in which no
    closing fence starts, a closing fence and a body, the body is
    returned as it is and the frontmatter is read from the lines of the
    text, whatever the body holds, further fences included. Content that
    does not start with an opening fence, or has no closing fence after
    it, is returned whole as the body, with an empty frontmatter. *)
Theorem parseFrontmatter_first_fence (yaml body content : string) :
  (Str.indexOf (yaml +:+ FENCE_CLOSE) FENCE_CLOSE = Some (String.length yaml) →
   parseFrontmatter (FENCE_OPEN +:+ yaml +:+ FENCE_CLOSE +:+ body)
   = (fold_left parse_line (Str.split (ascii_of_nat 10) yaml) [], body))
  ∧ (Str.startsWith content FENCE_OPEN = false → parseFrontmatter content = ([], content))
  ∧ (Str.indexOf (Str.drop 4 content) FENCE_CLOSE = None →
     parseFrontmatter content = ([], content)).
Proof.
  split; [|split].
  - apply parseFrontmatter_fenced.
  - intros Hstart. unfold parseFrontmatter, match_frontmatter. by rewrite Hstart.
  - intros Hnone. unfold parseFrontmatter, match_frontmatter.
    destruct (Str.startsWith content FENCE_OPEN); [|done].
    change (String.length FENCE_OPEN) with 4. by rewrite Hnone.
Qed.

Lemma parseFrontmatter_first_fence_witness :
  parseFrontmatter
    ("---" +:+ nl +:+ "name: foo" +:+ nl +:+ "---" +:+ nl +:+ "a" +:+ nl +:+ "---" +:+ nl
     +:+ "b")
  = ([("name", FString "foo")], "a" +:+ nl +:+ "---" +:+ nl +:+ "b")
  ∧ parseFrontmatter "# Title" = ([], "# Title")
  ∧ parseFrontmatter ("---" +:+ nl +:+ "name: foo") = ([], "---" +:+ nl +:+ "name: foo").
Proof.
  split; [|split].
  - apply (proj1 (parseFrontmatter_first_fence "name: foo"
                    ("a" +:+ nl +:+ "---" +:+ nl +:+ "b") "")).
    vm_compute. reflexivity.
  - apply (proj1 (proj2 (parseFrontmatter_first_fence "" "" "# Title"))).
    vm_compute. reflexivity.
  - apply (proj2 (proj2 (parseFrontmatter_first_fence "" "" ("---" +:+ nl +:+ "name: foo")))).
    vm_compute. reflexivity.
Defined.

(** *** Frontmatter written as [key: value] lines *)

(** The character [c] does not occur in [s]. *)
Definition lacks (c : ascii) (s : string) : bool :=
  forallb (λ x, negb (Ascii.eqb x c)) (Str.chars s).

(** A key that reads back as it is written, in the place where it is
    written: not a decimal numeral, which may be an array index, and an
    object lists those before its other keys. *)
Definition plain_key (key : string) : Prop :=
  key ≠ "" ∧ key ≠ "__proto__" ∧ trim key = key
  ∧ lacks ":" key = true ∧ lacks (ascii_of_nat 10) key = true
  ∧ digits_value 0 key = None.

Lemma array_index_numeral key : digits_value 0 key = None → array_index key = None.
Proof.
  intros Hkey. unfold array_index. rewrite Hkey.
  destruct key as [|c key]; [done|].
  destruct (Ascii.eqb_spec c "0") as [->|Hc].
  - by destruct key.
  - destruct c as [[] [] [] [] [] [] [] []]; try done.
Qed.

(** A value that reads back as the string it is: on one line, with no
    space around it, and starting neither with a double quote nor with
    an opening bracket. *)
Definition plain_text (value : string) : Prop :=
  trim value = value ∧ lacks (ascii_of_nat 10) value = true
  ∧ Str.startsWith value dq = false ∧ Str.startsWith value "[" = false.

Definition render_line (kv : string * string) : string := kv.1 +:+ ": " +:+ kv.2.

(** A document with a frontmatter block of [key: value] lines. *)
Definition render (pairs : list (string * string)) (body : string) : string :=
  FENCE_OPEN +:+ join_lines nl (map render_line pairs) +:+ FENCE_CLOSE +:+ body.

Lemma split_cons sep c s :
  Str.split sep (String c s)
  = if Ascii.eqb c sep then "" :: Str.split sep s
    else match Str.split sep s with
         | [] => [String c ""]
         | piece :: pieces => String c piece :: pieces
         end.
Proof. reflexivity. Qed.

Lemma split_lacks sep s : lacks sep s = true → Str.split sep s = [s].
Proof.
  induction s as [|c s IH]; [done|]. unfold lacks. cbn [Str.chars forallb].
  intros [Hc Hs]%andb_prop. rewrite split_cons.
  apply negb_true_iff in Hc. rewrite Hc. by rewrite IH.
Qed.

Lemma split_append_sep sep a b :
  lacks sep a = true →
  Str.split sep (a +:+ String sep b) = a :: Str.split sep b.
Proof.
  induction a as [|c a IH]; intros Ha.
  - append_cons. rewrite split_cons. by rewrite Ascii.eqb_refl.
  - unfold lacks in Ha. cbn [Str.chars forallb] in Ha. apply andb_prop in Ha as [Hc Ha].
    append_cons. rewrite split_cons. apply negb_true_iff in Hc. rewrite Hc.
    by rewrite IH.
Qed.

Lemma split_join_lines sep lines :
  lines ≠ [] → Forall (λ line, lacks sep line = true) lines →
  Str.split sep (join_lines (String sep "") lines) = lines.
Proof.
  intros Hne Hlines. unfold join_lines.
  induction Hlines as [|line lines Hline Hlines IH]; [done|].
  destruct lines as [|next lines].
  - by apply split_lacks.
  - change (String.concat (String sep "") (line :: next :: lines))
      with (line +:+ String sep "" +:+ String.concat (String sep "") (next :: lines)).
    append_cons. rewrite split_append_sep by done. by rewrite IH.
Qed.

Lemma indexOf_lacks c key rest :
  lacks c key = true →
  Str.indexOf (key +:+ String c rest) (String c "") = Some (String.length key).
Proof.
  induction key as [|x key IH]; intros Hkey.
  - append_cons. apply indexOf_here. rewrite prefix_cons, prefix_nil_r.
    by rewrite bool_decide_eq_true_2.
  - unfold lacks in Hkey. cbn [Str.chars forallb] in Hkey.
    apply andb_prop in Hkey as [Hx Hkey].
    append_cons. rewrite indexOf_cons, prefix_cons.
    rewrite bool_decide_eq_false_2.
    + cbn [andb]. by rewrite IH.
    + intros <-. by rewrite Ascii.eqb_refl in Hx.
Qed.

Lemma parse_line_rendered frontmatter key value :
  plain_key key → plain_text value →
  parse_line frontmatter (render_line (key, value))
  = obj_set key (FString value) frontmatter.
Proof.
  intros (Hne & Hproto & Htrim & Hcolon & _ & Hindex) (Hvalue & _ & Hquote & Hbracket).
  unfold parse_line, render_line. cbn [fst snd].
  change (": " +:+ value) with (String ":" (" " +:+ value)).
  rewrite indexOf_lacks by done.
  destruct (String.length key) as [|before] eqn:Hlen; [by destruct key|].
  cbv zeta. rewrite <- Hlen. rewrite take_append, Htrim.
  rewrite drop_add, drop_append.
  change (Str.drop 1 (String ":" (" " +:+ value))) with (" " +:+ value).
  assert (trim (" " +:+ value) = value) as ->.
  { unfold trim. change (trimStart (" " +:+ value)) with (trimStart value). apply Hvalue. }
  unfold parse_value. rewrite Hquote. cbn [andb]. rewrite Hbracket. cbn [andb].
  unfold record_set. destruct (String.eqb_spec key "__proto__"); [done|].
  rewrite (array_index_numeral key Hindex). by destruct (obj_get key frontmatter).
Qed.

Lemma split_nonempty_sep sep s : Str.split sep s ≠ [].
Proof.
  destruct s as [|c s]; [done|]. rewrite split_cons.
  destruct (Ascii.eqb c sep); [done|]. by destruct (Str.split sep s).
Qed.

Lemma tail_split_cons sep c s :
  Ascii.eqb c sep = false → tail (Str.split sep (String c s)) = tail (Str.split sep s).
Proof.
  intros Hc. rewrite split_cons, Hc.
  pose proof (split_nonempty_sep sep s). by destruct (Str.split sep s).
Qed.

(** Where a closing fence starts right after a line feed, the line that
    follows the line feed is [---]. *)
Lemma fence_line s :
  String.prefix ("---" +:+ nl) (s +:+ FENCE_CLOSE) = true →
  ∃ lines, Str.split (ascii_of_nat 10) s = "---" :: lines.
Proof.
  unfold FENCE_CLOSE, nl.
  destruct s as [|a [|b [|c [|d s]]]]; append_cons;
    rewrite ?prefix_cons, ?andb_true_iff, ?bool_decide_eq_true; intros H.
  - by destruct H as [[=] _].
  - by destruct H as (_ & [=] & _).
  - by destruct H as (_ & _ & [=] & _).
  - destruct H as (<- & <- & <- & _). by exists [].
  - destruct H as (<- & <- & <- & <- & _).
    exists (Str.split (ascii_of_nat 10) s). reflexivity.
Qed.

Lemma fence_after_lines s :
  Forall (λ line, line ≠ "---") (tail (Str.split (ascii_of_nat 10) s)) →
  Str.indexOf (s +:+ FENCE_CLOSE) FENCE_CLOSE = Some (String.length s).
Proof.
  induction s as [|c s IH]; intros Hlines; [reflexivity|].
  append_cons. rewrite indexOf_cons.
  destruct (Ascii.eqb_spec c (ascii_of_nat 10)) as [->|Hc].
  - rewrite split_cons, Ascii.eqb_refl in Hlines. cbn [tail] in Hlines.
    assert (String.prefix FENCE_CLOSE (String (ascii_of_nat 10) (s +:+ FENCE_CLOSE)) = false)
      as ->.
    { apply not_true_is_false. unfold FENCE_CLOSE at 1, nl at 1. append_cons.
      rewrite prefix_cons, andb_true_iff. intros [_ [lines Hsplit]%fence_line].
      rewrite Hsplit in Hlines. by apply Forall_cons in Hlines as [? _]. }
    rewrite IH; [done|]. by apply Forall_tail.
  - assert (String.prefix FENCE_CLOSE (String c (s +:+ FENCE_CLOSE)) = false) as ->.
    { unfold FENCE_CLOSE at 1, nl at 1. append_cons. rewrite prefix_cons.
      by rewrite bool_decide_eq_false_2. }
    rewrite IH; [done|]. rewrite tail_split_cons in Hlines; [done|].
    by apply Ascii.eqb_neq.
Qed.

Lemma obj_set_fresh {V} (k : string) (v : V) o :
  k ∉ obj_keys o → obj_set k v o = o ++ [(k, v)].
Proof.
  induction o as [|[k0 v0] o IH]; [done|]. cbn. intros Hk.
  apply not_elem_of_cons in Hk as [Hne Hk].
  destruct (String.eqb_spec k0 k); [done|]. by rewrite IH.
Qed.

Lemma fold_parse_rendered pairs :
  ∀ frontmatter : Frontmatter,
    NoDup (obj_keys frontmatter ++ map fst pairs) →
    Forall (λ kv, plain_key kv.1 ∧ plain_text kv.2) pairs →
    fold_left parse_line (map render_line pairs) frontmatter
    = frontmatter ++ map (λ kv, (kv.1, FString kv.2)) pairs.
Proof.
  induction pairs as [|[key value] pairs IH]; intros frontmatter Hnd Hpairs.
  - by rewrite app_nil_r.
  - apply Forall_cons in Hpairs as [[Hkey Hvalue] Hpairs]. cbn [map fold_left].
    rewrite parse_line_rendered by done.
    assert (key ∉ obj_keys frontmatter) as Hfresh.
    { apply NoDup_app in Hnd as (_ & Hdisjoint & _). intros Hin.
      apply (Hdisjoint key Hin). apply list_elem_of_here. }
    rewrite obj_set_fresh by done. rewrite IH; [by rewrite <- app_assoc|  |done].
    unfold obj_keys. rewrite map_app. cbn [map fst]. rewrite <- app_assoc. exact Hnd.
Qed.

Lemma render_line_not_fence key value : lacks ":" key = true → render_line (key, value) ≠ "---".
Proof.
  intros Hkey Heq. unfold render_line in Heq. cbn [fst snd] in Heq.
  pose proof (indexOf_lacks ":" key (" " +:+ value) Hkey) as Hcolon.
  change (String ":" (" " +:+ value)) with (": " +:+ value) in Hcolon.
  by rewrite Heq in Hcolon.
Qed.

Lemma render_line_lacks key value :
  lacks (ascii_of_nat 10) key = true → lacks (ascii_of_nat 10) value = true →
  lacks (ascii_of_nat 10) (render_line (key, value)) = true.
Proof.
  intros Hkey Hvalue. unfold render_line. cbn [fst snd].
  induction key as [|c key IH]; [done|].
  unfold lacks in Hkey |- *. append_cons. cbn [Str.chars forallb] in Hkey |- *.
  apply andb_prop in Hkey as [-> Hkey]. by apply IH.
Qed.

(** An array index among the keys is listed before the keys written
    above it. *)
Lemma parseFrontmatter_index_keys_first :
  (parseFrontmatter
     ("---" +:+ nl +:+ "b: x" +:+ nl +:+ "10: y" +:+ nl +:+ "9: z" +:+ nl +:+ "01: u"
      +:+ nl +:+ "---" +:+ nl)).1
  = [("9", FString "z"); ("10", FString "y"); ("b", FString "x"); ("01", FString "u")].
Proof. vm_compute. reflexivity. Qed.

(** X20. Writing and reading back. A document whose frontmatter block
    is a list of [key: value] lines, with keys that are distinct, not
    empty, free of colons, line feeds and surrounding space, other than
    [__proto__] and not decimal numerals (an object lists array indices
    first), and
    values on one line without surrounding space that start with neither
    a double quote nor a bracket, is parsed into exactly these keys and
    values, in their order, and the body that follows the block. *)
Theorem parseFrontmatter_of_rendered (pairs : list (string * string)) (body : string) :
  NoDup (map fst pairs) →
  Forall (λ kv, plain_key kv.1 ∧ plain_text kv.2) pairs →
  parseFrontmatter (render pairs body)
  = (map (λ kv, (kv.1, FString kv.2)) pairs, body).
Proof.
  intros Hnd Hpairs. unfold render.
  destruct (decide (pairs = [])) as [->|Hne].
  { change (join_lines nl (map render_line [])) with "".
    by rewrite (parseFrontmatter_fenced "" body). }
  assert (Forall (λ line, lacks (ascii_of_nat 10) line = true) (map render_line pairs))
    as Hlines.
  { apply Forall_fmap. eapply Forall_impl; [exact Hpairs|].
    intros [key value] [(_ & _ & _ & _ & Hkey & _) (_ & Hvalue & _)].
    by apply render_line_lacks. }
  assert (Str.split (ascii_of_nat 10) (join_lines nl (map render_line pairs))
          = map render_line pairs) as Hsplit.
  { apply split_join_lines; [by destruct pairs|done]. }
  rewrite parseFrontmatter_fenced.
  - rewrite Hsplit. by rewrite (fold_parse_rendered pairs []).
  - apply fence_after_lines. rewrite Hsplit. apply Forall_tail, Forall_fmap.
    eapply Forall_impl; [exact Hpairs|].
    intros [key value] [(_ & _ & _ & Hkey & _) _]. by apply render_line_not_fence.
Qed.

Lemma parseFrontmatter_of_rendered_witness :
  parseFrontmatter
    ("---" +:+ nl +:+ "name: git-workflow" +:+ nl +:+ "category: process" +:+ nl
     +:+ "---" +:+ nl +:+ "# Skill")
  = ([("name", FString "git-workflow"); ("category", FString "process")], "# Skill").
Proof.
  apply (parseFrontmatter_of_rendered
           [("name", "git-workflow"); ("category", "process")] "# Skill").
  - apply NoDup_cons. split; [|apply NoDup_singleton]. by intros ?%list_elem_of_singleton.
  - apply Forall_cons_2; [|apply Forall_cons_2; [|apply Forall_nil_2]];
      (split; [by repeat split|by repeat split]).
Defined.

(** ** Loading a catalog item (catalog.ts) *)

(** The node of the content file [loadCatalogItem] reads. *)
Definition content_node (env : Env) (type : ContentType) (id : string) : Path.resolved :=
  on_disk env
    (Path.join [Path.join [templatesRoot env; ContentType_str type; id];
                getContentFileName type]).

(** The object [loadCatalogItem] makes of the content it has read. *)
Definition item_of (env : Env) (type : ContentType) (id content : string) : LoadedItem :=
  let frontmatter := (parseFrontmatter content).1 in
  {| l_id := id;
     l_name := or_else (obj_get "name" frontmatter) id;
     l_description := or_else (obj_get "description" frontmatter) "";
     l_type := type;
     l_category := obj_get "category" frontmatter;
     l_tags := obj_get "tags" frontmatter;
     l_path :=
       Path.relative (cwd env) (templatesRoot env)
         (Path.join [templatesRoot env; ContentType_str type; id]);
     l_content := content |}.

Lemma loadCatalogItem_run env type id w :
  loadCatalogItem env type id w
  = (w, Returned match template_at env (content_node env type id) with
                 | Some (TFile content) => Some (item_of env type id content)
                 | _ => None
                 end).
Proof.
  unfold loadCatalogItem, try_catch, bind at 1, readTemplate.
  fold (content_node env type id).
  by destruct (template_at env (content_node env type id)) as [[content|entries]|].
Qed.

Lemma common_app (l x : list string) : Path.common l (l ++ x) = l.
Proof.
  induction l as [|a l IH]; [by destruct x|].
  cbn. by rewrite String.eqb_refl, IH.
Qed.

Lemma join_rooted_three a x y z :
  Forall segment a → segment x → segment y → segment z →
  Path.join [rooted a; x; y; z] = rooted (a ++ [x; y; z]).
Proof.
  intros Ha Hx Hy Hz.
  assert (x ≠ "" ∧ y ≠ "" ∧ z ≠ "") as (Hx' & Hy' & Hz')
    by (split; [apply Hx|split; [apply Hy|apply Hz]]).
  pose proof (rooted_nonempty a) as Ha'.
  unfold Path.join. rewrite !filter_cons, filter_nil.
  destruct (decide (rooted a ≠ "")); [|done].
  destruct (decide (x ≠ "")); [|done]. destruct (decide (y ≠ "")); [|done].
  destruct (decide (z ≠ "")); [|done].
  change (Path.unsplit [rooted a; x; y; z])
    with (rooted a +:+ "/" +:+ Path.unsplit [x; y; z]).
  apply normalize_rooted.
  - done.
  - rewrite endsWithSlash_append by (by destruct x).
    rewrite (endsWithSlash_append "/") by (by destruct x).
    apply (endsWithSlash_unsplit [x; y; z]). by apply Forall_segment_3.
  - rewrite filter_split_append, split_rooted by done.
    rewrite split_relative; [done|by apply Forall_segment_3].
  - apply Forall_segment_app; [done|by apply Forall_segment_3].
  - by destruct a.
Qed.

Lemma getContentFileName_segment type : segment (getContentFileName type).
Proof. by destruct type. Qed.

(** With a templates directory that is an absolute path of plain
    segments and an identifier of one plain segment, [loadCatalogItem]
    and [getItemFilePath] name the same file. *)
Lemma content_node_rooted env type id segs :
  templatesRoot env = rooted segs → Forall segment segs → segment id →
  content_node env type id = segs ++ [ContentType_str type; id; getContentFileName type]
  ∧ on_disk env (getItemFilePath env type id) = content_node env type id.
Proof.
  intros Hroot Hsegs Hid.
  pose proof (ContentType_str_segment type) as Htype.
  pose proof (getContentFileName_segment type) as Hfile.
  assert (content_node env type id
          = segs ++ [ContentType_str type; id; getContentFileName type]) as Hnode.
  { unfold content_node. rewrite Hroot.
    rewrite join_rooted_segments by done.
    rewrite join_rooted_segment;
      [|apply Forall_segment_app; [done|];
        apply Forall_cons_2; [done|]; apply Forall_cons_2; [done|apply Forall_nil_2]
       |done].
    rewrite <- app_assoc. cbn [app].
    apply on_disk_rooted, Forall_segment_app; [done|by apply Forall_segment_3]. }
  split; [done|]. rewrite Hnode. unfold getItemFilePath. rewrite Hroot.
  rewrite join_rooted_three by done.
  apply on_disk_rooted, Forall_segment_app; [done|by apply Forall_segment_3].
Qed.

(** The loaded object has the types of a [CatalogItem] exactly when the
    four values taken from the frontmatter have them. *)
Lemma item_of_typed env type id content :
  is_Some (CatalogItem_of_loaded (item_of env type id content))
  ↔ is_Some (as_string (obj_get "name" (parseFrontmatter content).1))
    ∧ is_Some (as_string (obj_get "description" (parseFrontmatter content).1))
    ∧ is_Some (as_string (obj_get "category" (parseFrontmatter content).1))
    ∧ is_Some (as_strings (obj_get "tags" (parseFrontmatter content).1)).
Proof.
  unfold CatalogItem_of_loaded, item_of.
  cbn [l_id l_type l_content l_name l_description l_category l_tags l_path].
  generalize (parseFrontmatter content).1. intros frontmatter.
  destruct (obj_get "name" frontmatter) as [[[|c name]|names]|];
    destruct (obj_get "description" frontmatter) as [[[|c' description]|descriptions]|];
    destruct (obj_get "category" frontmatter) as [[category|categories]|];
    destruct (obj_get "tags" frontmatter) as [[tag|tags]|];
    cbn;
    (split;
     [intros [typed Htyped]; first [discriminate Htyped | by repeat split; eexists]
     |intros (Hname & Hdescription & Hcategory & Htags);
      first [by destruct Hname as [? [=]] | by destruct Hdescription as [? [=]]
            |by destruct Hcategory as [? [=]] | by destruct Htags as [? [=]]
            |by eexists]]).
Qed.

(** X21. [loadCatalogItem] never throws and changes nothing. It returns
    [null] exactly when the content file of the item cannot be read as a
    file. The object it returns otherwise has the identifier and the type
    asked for and the content of the file. Its name is the [name] of the
    frontmatter, be it a string that is not empty or a list, and the
    identifier when there is none or it is the empty string; its
    description is the [description] of the frontmatter, string or list,
    and the empty string when there is none; its category and its tags
    are what the frontmatter holds for them, whatever that is. So the
    object is a [CatalogItem], as the signature says, exactly when name,
    description and category are strings or missing and the tags a list
    or missing. When the templates directory is an absolute path of
    plain segments and the identifier one plain segment, the path of the
    item is [<type>/<id>]. *)
Theorem loadCatalogItem_reads env (type : ContentType) (id : string) (w : World) :
  ∃ loaded,
    loadCatalogItem env type id w = (w, Returned loaded)
    ∧ (loaded = None
       ↔ ∀ content, template_at env (content_node env type id) ≠ Some (TFile content))
    ∧ (∀ item,
         loaded = Some item →
         l_id item = id ∧ l_type item = type
         ∧ (∃ content,
              template_at env (content_node env type id) = Some (TFile content)
              ∧ l_content item = content
              ∧ l_name item
                = match obj_get "name" (parseFrontmatter content).1 with
                  | Some (FString name) => FString (if String.eqb name "" then id else name)
                  | Some (FList items) => FList items
                  | None => FString id
                  end
              ∧ l_description item
                = match obj_get "description" (parseFrontmatter content).1 with
                  | Some value => value
                  | None => FString ""
                  end
              ∧ l_category item = obj_get "category" (parseFrontmatter content).1
              ∧ l_tags item = obj_get "tags" (parseFrontmatter content).1
              ∧ (is_Some (CatalogItem_of_loaded item)
                 ↔ is_Some (as_string (obj_get "name" (parseFrontmatter content).1))
                   ∧ is_Some (as_string (obj_get "description" (parseFrontmatter content).1))
                   ∧ is_Some (as_string (obj_get "category" (parseFrontmatter content).1))
                   ∧ is_Some (as_strings (obj_get "tags" (parseFrontmatter content).1))))
         ∧ (∀ segs, templatesRoot env = rooted segs → Forall segment segs → segment id →
              l_path item = ContentType_str type +:+ "/" +:+ id)).
Proof.
  rewrite loadCatalogItem_run. eexists. split; [reflexivity|].
  destruct (template_at env (content_node env type id)) as [[content|entries]|] eqn:Hfile.
  - split.
    { split; [done|]. intros Hnone. by destruct (Hnone content). }
    intros item [= <-].
    split; [done|]. split; [done|]. split.
    + exists content. split; [done|]. split; [done|].
      split; [|split; [|split; [done|split; [done|apply item_of_typed]]]].
      * cbn [item_of l_name].
        destruct (obj_get "name" (parseFrontmatter content).1) as [[name|items]|];
          [|done|done].
        cbn. by destruct name.
      * cbn [item_of l_description].
        destruct (obj_get "description" (parseFrontmatter content).1)
          as [[description|items]|]; [|done|done].
        cbn. by destruct description.
    + cbn [item_of l_path]. intros segs Hroot Hsegs Hid. rewrite Hroot.
      rewrite join_rooted_segments by (done || apply ContentType_str_segment).
      unfold Path.relative. rewrite !resolve_rooted;
        [|apply Forall_segment_app; [done|];
          apply Forall_cons_2; [apply ContentType_str_segment|];
          apply Forall_cons_2; [done|apply Forall_nil_2]
         |done].
      rewrite common_app, Nat.sub_diag, drop_app_length. reflexivity.
  - split; [|done]. split; [|done]. by intros _ content.
  - split; [|done]. split; [|done]. by intros _ content.
Qed.

(** A skill whose frontmatter gives a list as its name. *)
Definition env_with_list_name : Env :=
  {| homedir := "/home/u";
     cwd := "/work";
     CLAUDE_CONFIG_DIR := None;
     templatesRoot := "/pkg/templates";
     templates :=
       [("skills",
         TDir [("foo",
                TDir [("SKILL.md",
                       TFile ("---" +:+ nl +:+ "name: [a, b]" +:+ nl +:+ "tags: x"
                              +:+ nl +:+ "---" +:+ nl +:+ "# Foo"))])])];
     clock := λ n, "" |}.

Lemma loadCatalogItem_reads_witness :
  ∃ item,
    loadCatalogItem env_with_list_name skills "foo" empty_world
      = (empty_world, Returned (Some item))
    ∧ l_name item = FList ["a"; "b"]
    ∧ l_tags item = Some (FString "x")
    ∧ l_description item = FString ""
    ∧ l_path item = "skills/foo"
    ∧ CatalogItem_of_loaded item = None.
Proof.
  destruct (loadCatalogItem_reads env_with_list_name skills "foo" empty_world)
    as (loaded & Hrun & _ & _).
  vm_compute in Hrun. injection Hrun as <-.
  eexists. split; [vm_compute; reflexivity|].
  repeat split; vm_compute; reflexivity.
Defined.

Lemma itemExists_run env type id w :
  itemExists env type id w
  = (w, Returned (bool_decide
                    (is_Some (template_at env (on_disk env (getItemFilePath env type id)))))).
Proof.
  unfold itemExists, try_catch, bind, accessTemplate.
  by destruct (template_at env _).
Qed.

(** X22. [getItemContent] returns the content of the item's file when
    that content is not empty, and [null] when the file cannot be read
    or is empty: an empty file is reported like a missing one, although
    [loadCatalogItem] returns an item for it. With a templates directory
    that is an absolute path of plain segments and an identifier of one
    plain segment, [itemExists] answers [true] whenever [getItemContent]
    returns a content. *)
Theorem getItemContent_empty_is_null env (type : ContentType) (id : string) (w : World) :
  (∀ content,
     (getItemContent env type id w).2 = Returned (Some content) →
     content ≠ ""
     ∧ template_at env (content_node env type id) = Some (TFile content)
     ∧ ∀ segs, templatesRoot env = rooted segs → Forall segment segs → segment id →
         itemExists env type id w = (w, Returned true))
  ∧ ((∀ content, template_at env (content_node env type id) ≠ Some (TFile content)) →
     getItemContent env type id w = (w, Returned None))
  ∧ (template_at env (content_node env type id) = Some (TFile "") →
     getItemContent env type id w = (w, Returned None)
     ∧ ∃ item, loadCatalogItem env type id w = (w, Returned (Some item))
               ∧ l_content item = "").
Proof.
  unfold getItemContent, bind. rewrite loadCatalogItem_run.
  destruct (template_at env (content_node env type id)) as [[content|entries]|] eqn:Hfile.
  - split; [|split; [intros Hnone; by destruct (Hnone content)|]].
    + intros c.
      cbn. destruct content as [|x content]; [done|]. intros [= <-].
      split; [done|]. split; [done|]. intros segs Hroot Hsegs Hid.
      rewrite itemExists_run.
      destruct (content_node_rooted env type id segs Hroot Hsegs Hid) as [_ ->].
      by rewrite Hfile.
    + intros [= ->]. split; [reflexivity|]. eexists. split; reflexivity.
  - split; [done|]. split; [done|]. done.
  - split; [done|]. split; [done|]. done.
Qed.

(** ** Writing bridge files twice (bridge.ts) *)

Lemma keeping_writeBridgeFile env root overwrite file :
  keeping (writeBridgeFile env root overwrite file).
Proof.
  unfold writeBridgeFile. apply keeping_bind.
  - destruct overwrite; [apply keeping_ret|].
    apply keeping_try_catch; [|intros e; apply keeping_ret].
    apply keeping_bind; [|intros _; apply keeping_ret].
    intros w. unfold Fs.access. destruct (node_at w _); apply keeps_refl.
  - intros [|]; [apply keeping_ret|].
    apply keeping_bind; [apply keeping_mkdir_from|]. intros _.
    apply keeping_bind; [apply keeping_writeFile|]. intros _. apply keeping_ret.
Qed.

(** Once the body of the loop has returned for a file, the file is
    there. *)
Lemma writeBridgeFile_there env root overwrite file w w1 wrote :
  writeBridgeFile env root overwrite file w = (w1, Returned wrote) →
  is_Some (node_at w1 (bridge_target env root file)).
Proof.
  unfold writeBridgeFile, bind at 1.
  assert (∀ w2,
            bind (Fs.mkdir_p (Path.parent (bridge_target env root file)))
              (λ _, bind (Fs.writeFile (bridge_target env root file) (Text (b_content file)))
                      (λ _, ret true)) w = (w2, Returned wrote) →
            is_Some (node_at w2 (bridge_target env root file))) as Hwrite.
  { intros w2. unfold bind. destruct (Fs.mkdir_p _ w) as [w0 [[]| |]]; try done.
    destruct (Fs.writeFile _ _ w0) as [w3 [[]| |]] eqn:Hwritten; try done.
    intros [= <- _]. apply writeFile_returned in Hwritten as (-> & Hp & _).
    destruct (bridge_target env root file); [done|]. cbn. by rewrite lookup_insert_eq. }
  destruct overwrite.
  - cbn [ret]. apply Hwrite.
  - unfold try_catch, bind at 1, Fs.access.
    destruct (node_at w (bridge_target env root file)) as [n|] eqn:Hnode; cbn [ret].
    + intros [= <- _]. by rewrite Hnode.
    + apply Hwrite.
Qed.

Lemma writeBridgeLoop_there env root overwrite files :
  ∀ written skipped w w1 lists,
    writeBridgeLoop env root overwrite files written skipped w = (w1, Returned lists) →
    ∀ file, file ∈ files → is_Some (node_at w1 (bridge_target env root file)).
Proof.
  induction files as [|file files IH]; intros written skipped w w1 lists Hrun other Hin.
  { by apply elem_of_nil in Hin. }
  cbn [writeBridgeLoop] in Hrun. unfold bind in Hrun.
  destruct (writeBridgeFile env root overwrite file w) as [w0 [wrote| |]] eqn:Hfile;
    try done.
  assert (∃ written' skipped',
            writeBridgeLoop env root overwrite files written' skipped' w0
            = (w1, Returned lists)) as (written' & skipped' & Hrest).
  { destruct wrote; eauto. }
  apply elem_of_cons in Hin as [->|Hin]; [|by eapply IH].
  apply writeBridgeFile_there in Hfile.
  assert (keeps w0 w1) as Hkeeps; [|by apply (keeps_node_at w0)].
  clear -Hrest. revert written' skipped' w0 Hrest.
  induction files as [|next files IHfiles]; intros written' skipped' w0 Hrest.
  { injection Hrest as <- _. apply keeps_refl. }
  cbn [writeBridgeLoop] in Hrest. unfold bind in Hrest.
  pose proof (keeping_writeBridgeFile env root overwrite next w0) as Hstep.
  destruct (writeBridgeFile env root overwrite next w0) as [w2 [wrote| |]]; try done.
  cbn [fst] in Hstep. eapply keeps_trans; [exact Hstep|].
  destruct wrote; by eapply IHfiles.
Qed.

Lemma writeBridgeLoop_skips env root files :
  ∀ written skipped w,
    (∀ file, file ∈ files → is_Some (node_at w (bridge_target env root file))) →
    writeBridgeLoop env root false files written skipped w
    = (w, Returned (written, skipped ++ map filePath files)).
Proof.
  induction files as [|file files IH]; intros written skipped w Hthere.
  { cbn. by rewrite app_nil_r. }
  cbn [writeBridgeLoop]. unfold bind.
  destruct (Hthere file (list_elem_of_here _ _)) as [n Hnode].
  rewrite (writeBridgeFile_present _ _ _ _ _ Hnode).
  rewrite IH; [by rewrite <- app_assoc|].
  intros other Hother. by apply Hthere, list_elem_of_further.
Qed.

(** X23. Writing the bridge files a second time writes nothing. When
    [writeBridgeFiles] has returned, with or without [overwrite], every
    file of the list is on the disk, and a second call without
    [overwrite] returns with an empty [written], the path of every file
    in [skipped], in the order of the list, and the disk unchanged. *)
Theorem writeBridgeFiles_twice env (files : list BridgeFile) (projectRoot : option string)
    (overwrite : option bool) (w w1 : World) (written skipped : list string) :
  writeBridgeFiles env files projectRoot overwrite w = (w1, Returned (written, skipped)) →
  (∀ file, file ∈ files → is_Some (node_at w1 (bridge_node env projectRoot file)))
  ∧ writeBridgeFiles env files projectRoot None w1
    = (w1, Returned ([], map filePath files))
  ∧ writeBridgeFiles env files projectRoot (Some false) w1
    = (w1, Returned ([], map filePath files)).
Proof.
  unfold writeBridgeFiles, bridge_node. intros Hrun.
  pose proof (writeBridgeLoop_there _ _ _ _ _ _ _ _ _ Hrun) as Hthere.
  split; [done|]. cbn [default].
  split; by rewrite writeBridgeLoop_skips.
Qed.

Lemma writeBridgeFiles_twice_witness :
  writeBridgeFiles demo_env demo_bridges (Some "/repo") (Some true) bridges_written
    = (bridges_written, Returned (["CLAUDE.md"; "AGENTS.md"], []))
  ∧ writeBridgeFiles demo_env demo_bridges (Some "/repo") None bridges_written
    = (bridges_written, Returned ([], ["CLAUDE.md"; "AGENTS.md"])).
Proof.
  split; [vm_compute; reflexivity|].
  apply (writeBridgeFiles_twice demo_env demo_bridges (Some "/repo") (Some true)
           bridges_written bridges_written ["CLAUDE.md"; "AGENTS.md"] []).
  vm_compute. reflexivity.
Defined.

(** ** Generating bridge files (bridge.ts) *)

(** The names [getExistingDirs] looks for, in its order. *)
Definition AI_DIRS : list string :=
  ["skills"; "rules"; "agents"; "commands"; "prompts"; "context"].

(** [<projectRoot>/.ai/<name>] is a directory. *)
Definition is_ai_dir (env : Env) (projectRoot : string) (w : World) (name : string) : Prop :=
  isDirectory
    <$> node_at w (on_disk env (Path.join [Path.join [projectRoot; CANONICAL_DIR]; name]))
  = Some true.

#[local] Instance is_ai_dir_dec env projectRoot w name :
  Decision (is_ai_dir env projectRoot w name).
Proof. unfold is_ai_dir. apply _. Defined.

Lemma existingDir_run env aiDir name w :
  existingDir env aiDir name w
  = (w, Returned
          (bool_decide
             (isDirectory <$> node_at w (on_disk env (Path.join [aiDir; name])) = Some true))).
Proof.
  unfold existingDir, try_catch, bind, Fs.stat.
  by destruct (node_at w _) as [[|c]|].
Qed.

Lemma existingLoop_run env aiDir names :
  ∀ existing w,
    existingLoop env aiDir names existing w
    = (w, Returned
            (existing
             ++ filter
                  (λ name,
                     isDirectory <$> node_at w (on_disk env (Path.join [aiDir; name]))
                     = Some true)
                  names)).
Proof.
  induction names as [|name names IH]; intros existing w.
  - cbn. by rewrite app_nil_r.
  - cbn [existingLoop]. unfold bind. rewrite existingDir_run, IH, filter_cons.
    destruct (decide _) as [Hdir|Hnot].
    + rewrite bool_decide_eq_true_2 by done. by rewrite <- app_assoc.
    + by rewrite bool_decide_eq_false_2.
Qed.

Lemma getExistingDirs_run env projectRoot w :
  getExistingDirs env projectRoot w
  = (w, Returned (filter (is_ai_dir env projectRoot w) AI_DIRS)).
Proof.
  unfold getExistingDirs, bind. cbv zeta. rewrite existingLoop_run, existingLoop_run.
  cbn [app]. unfold AI_DIRS.
  change ["skills"; "rules"; "agents"; "commands"; "prompts"; "context"]
    with (map ContentType_str [skills; rules; agents; commands; prompts] ++ ["context"]).
  by rewrite filter_app.
Qed.

(** X24. [getExistingDirs] never throws and changes nothing. It returns
    the names among skills, rules, agents, commands, prompts and context
    for which [<projectRoot>/.ai/<name>] is a directory, each once and
    in that order; a file of that name does not count. *)
Theorem getExistingDirs_lists_directories env (projectRoot : string) (w : World) :
  ∃ dirs,
    getExistingDirs env projectRoot w = (w, Returned dirs)
    ∧ (∀ name, name ∈ dirs ↔ name ∈ AI_DIRS ∧ is_ai_dir env projectRoot w name)
    ∧ dirs `sublist_of` AI_DIRS
    ∧ NoDup dirs.
Proof.
  rewrite getExistingDirs_run. eexists. split; [done|]. split; [|split].
  - intros name. rewrite list_elem_of_filter. tauto.
  - apply sublist_filter.
  - apply NoDup_filter. unfold AI_DIRS. by apply NoDup_ListNoDup; repeat constructor;
      cbn; intuition discriminate.
Qed.

(** The path of the bridge file of each editor. *)
Definition BRIDGE_PATHS : list (string * string) :=
  [ ("claude", "CLAUDE.md"); ("cursor", ".cursor/rules/ai-config.mdc");
    ("copilot", ".github/copilot-instructions.md"); ("gemini", "GEMINI.md");
    ("windsurf", ".windsurfrules"); ("universal", "AGENTS.md") ].

(** The directories [generateBridgeFiles] writes about. *)
Definition bridge_dirs (env : Env) (projectRoot : option string) (w : World) : list string :=
  match filter (is_ai_dir env (default (cwd env) projectRoot) w) AI_DIRS with
  | [] => ["skills"; "rules"]
  | existing => existing
  end.

Lemma getDirDescription_known dir : dir ∈ AI_DIRS → is_Some (getDirDescription dir).
Proof.
  unfold AI_DIRS. rewrite !elem_of_cons, elem_of_nil.
  intros [->|[->|[->|[->|[->|[->|[]]]]]]]; by eexists.
Qed.

Lemma buildDirectorySection_known dirs :
  Forall (λ dir, dir ∈ AI_DIRS) dirs → is_Some (buildDirectorySection dirs).
Proof.
  intros Hdirs. unfold buildDirectorySection. destruct (decide _); [by eexists|].
  assert (is_Some (mapM (λ d, description ← getDirDescription d;
                               Some ("- `.ai/" +:+ d +:+ "/` " +:+ DASH +:+ " " +:+ description))
                     dirs)) as [lines ->]; [|by eexists].
  apply mapM_is_Some. eapply Forall_impl; [exact Hdirs|].
  intros dir [description Hdescription]%getDirDescription_known.
  unfold compose. rewrite Hdescription. by eexists.
Qed.

Lemma bridge_dirs_known env projectRoot w :
  Forall (λ dir, dir ∈ AI_DIRS) (bridge_dirs env projectRoot w).
Proof.
  unfold bridge_dirs.
  destruct (filter _ AI_DIRS) as [|dir dirs] eqn:Hfilter.
  - apply Forall_cons_2; [by apply list_elem_of_here|].
    apply Forall_cons_2; [by apply list_elem_of_further, list_elem_of_here|].
    apply Forall_nil_2.
  - rewrite <- Hfilter. apply Forall_forall. intros name Hname.
    by apply list_elem_of_filter in Hname as [_ ?].
Qed.

(** The generator registered under a key makes a file for that editor,
    at the editor's path. *)
Lemma generator_file key generator dirs :
  obj_get key BRIDGE_GENERATORS = Some generator →
  is_Some (buildDirectorySection dirs) →
  ∃ file, generator dirs = Some file ∧ editorId file = key
          ∧ obj_get key BRIDGE_PATHS = Some (filePath file).
Proof.
  intros Hget [directories Hsection]. unfold BRIDGE_GENERATORS in Hget.
  cbn [obj_get] in Hget.
  repeat
    (match type of Hget with
     | (if String.eqb ?k key then _ else _) = _ =>
         destruct (String.eqb_spec k key) as [<-|_];
           [injection Hget as <-; unfold claudeBridge, cursorBridge, copilotBridge,
              geminiBridge, windsurfBridge, agentsBridge, bridge; rewrite Hsection;
            by eexists|]
     end).
  done.
Qed.

Lemma fold_Set_add_omap {A} (f : A → option string) (l : list A) (acc : list string) :
  fold_left (λ keys a, match f a with Some key => Set_add keys key | None => keys end) l acc
  = fold_left Set_add (omap f l) acc.
Proof.
  revert acc. induction l as [|a l IH]; intros acc; [done|].
  cbn. destruct (f a); cbn; apply IH.
Qed.

Lemma bridgeKeys_fold assistants :
  bridgeKeys assistants
  = Set_from (omap (λ a, obj_get (a_id a) ASSISTANT_TO_BRIDGE) assistants ++ ["universal"]).
Proof.
  unfold bridgeKeys, Set_from. rewrite fold_left_app. cbn [fold_left]. f_equal.
  apply (fold_Set_add_omap (λ a, obj_get (a_id a) ASSISTANT_TO_BRIDGE)).
Qed.

Lemma bridge_table_known id key :
  obj_get id ASSISTANT_TO_BRIDGE = Some key → is_Some (obj_get key BRIDGE_GENERATORS).
Proof.
  intros Hin%obj_get_elem. revert Hin. unfold ASSISTANT_TO_BRIDGE.
  rewrite !elem_of_cons, elem_of_nil. intros H.
  repeat (destruct H as [[= _ ->]|H]; [eexists; reflexivity|]). done.
Qed.

Lemma bridgeKeys_spec assistants key :
  key ∈ bridgeKeys assistants
  ↔ key = "universal"
    ∨ ∃ assistant, assistant ∈ assistants
                   ∧ obj_get (a_id assistant) ASSISTANT_TO_BRIDGE = Some key.
Proof.
  rewrite bridgeKeys_fold, Set_from_elem, elem_of_app, list_elem_of_singleton.
  rewrite list_elem_of_omap. tauto.
Qed.

Lemma generated_files keys dirs :
  Forall (λ key, is_Some (obj_get key BRIDGE_GENERATORS)) keys →
  is_Some (buildDirectorySection dirs) →
  ∃ files,
    mapM (λ generator, generator dirs) (omap (λ key, obj_get key BRIDGE_GENERATORS) keys)
    = Some files
    ∧ map editorId files = keys
    ∧ map (λ file, Some (filePath file)) files = map (λ key, obj_get key BRIDGE_PATHS) keys
    ∧ Forall (λ file, ∃ generator,
                obj_get (editorId file) BRIDGE_GENERATORS = Some generator
                ∧ generator dirs = Some file) files.
Proof.
  intros Hkeys Hsection. induction Hkeys as [|key keys [generator Hget] Hkeys IH].
  - exists []. by repeat split.
  - destruct IH as (files & Hfiles & Hids & Hpaths & Hgenerated).
    destruct (generator_file key generator dirs Hget Hsection) as (file & Hfile & Hid & Hpath).
    exists (file :: files).
    change (omap (λ key, obj_get key BRIDGE_GENERATORS) (key :: keys))
      with (match obj_get key BRIDGE_GENERATORS with
            | Some generator => generator :: omap (λ key, obj_get key BRIDGE_GENERATORS) keys
            | None => omap (λ key, obj_get key BRIDGE_GENERATORS) keys
            end).
    rewrite Hget.
    change (mapM (λ generator, generator dirs)
              (generator :: omap (λ key, obj_get key BRIDGE_GENERATORS) keys))
      with (file ← generator dirs;
            files ← mapM (λ generator, generator dirs)
                      (omap (λ key, obj_get key BRIDGE_GENERATORS) keys);
            Some (file :: files)).
    rewrite Hfile. cbn [mbind option_bind]. rewrite Hfiles. cbn [mbind option_bind map].
    split; [done|]. split; [by rewrite Hid, Hids|]. split; [by rewrite Hpath, Hpaths|].
    apply Forall_cons_2; [|done]. exists generator. by rewrite Hid.
Qed.

Lemma bridge_path_inj key key' path :
  obj_get key BRIDGE_PATHS = Some path → obj_get key' BRIDGE_PATHS = Some path → key = key'.
Proof.
  intros H1%obj_get_elem H2%obj_get_elem. revert H1 H2. unfold BRIDGE_PATHS.
  rewrite !elem_of_cons, !elem_of_nil.
  intros [[= -> ->]|[[= -> ->]|[[= -> ->]|[[= -> ->]|[[= -> ->]|[[= -> ->]|[]]]]]]];
    intros [[= ->]|[[= ->]|[[= ->]|[[= ->]|[[= ->]|[[= ->]|[]]]]]]]; done.
Qed.

Lemma NoDup_map_inj {A B} (f : A → B) (l : list A) x y :
  NoDup (map f l) → x ∈ l → y ∈ l → f x = f y → x = y.
Proof.
  induction l as [|a l IH]; [by intros _ ?%elem_of_nil|].
  cbn [map]. intros [Hfresh Hnd]%NoDup_cons.
  intros [->|Hx]%elem_of_cons [->|Hy]%elem_of_cons Heq; [done| | |by apply IH].
  - destruct Hfresh. rewrite Heq. apply (list_elem_of_fmap_2 f), Hy.
  - destruct Hfresh. rewrite <- Heq. apply (list_elem_of_fmap_2 f), Hx.
Qed.

(** X25. [generateBridgeFiles] never throws and changes nothing. The
    files it returns are for distinct editors and at distinct paths; the
    universal [AGENTS.md] is always among them; every assistant of the
    list that the table maps to a bridge has the file of that bridge
    among them, once, however many assistants share it; and there is no
    other file. Each file is what the generator of its editor makes for
    the directories found in [.ai], or for skills and rules when none is
    there. *)
Theorem generateBridgeFiles_covers env (assistants : list AssistantConfig)
    (projectRoot : option string) (w : World) :
  ∃ files,
    generateBridgeFiles env assistants projectRoot w = (w, Returned files)
    ∧ NoDup (map editorId files)
    ∧ NoDup (map filePath files)
    ∧ (∃ file, file ∈ files ∧ editorId file = "universal" ∧ filePath file = "AGENTS.md")
    ∧ (∀ assistant key, assistant ∈ assistants →
         obj_get (a_id assistant) ASSISTANT_TO_BRIDGE = Some key →
         ∃ file, file ∈ files ∧ editorId file = key)
    ∧ (∀ file, file ∈ files →
         (editorId file = "universal"
          ∨ ∃ assistant, assistant ∈ assistants
                         ∧ obj_get (a_id assistant) ASSISTANT_TO_BRIDGE
                           = Some (editorId file))
         ∧ ∃ generator,
             obj_get (editorId file) BRIDGE_GENERATORS = Some generator
             ∧ generator (bridge_dirs env projectRoot w) = Some file).
Proof.
  assert (Forall (λ key, is_Some (obj_get key BRIDGE_GENERATORS)) (bridgeKeys assistants))
    as Hkeys.
  { apply Forall_forall. intros key [->|(assistant & _ & Hkey)]%bridgeKeys_spec;
      [by eexists|]. by eapply bridge_table_known. }
  destruct (generated_files (bridgeKeys assistants) (bridge_dirs env projectRoot w) Hkeys)
    as (files & Hfiles & Hids & Hpaths & Hgenerated).
  { apply buildDirectorySection_known, bridge_dirs_known. }
  assert (NoDup (bridgeKeys assistants)) as Hnd
    by (rewrite bridgeKeys_fold; apply Set_from_NoDup).
  exists files. split.
  { unfold generateBridgeFiles, bind. rewrite getExistingDirs_run.
    assert ((if decide (List.length
                          (filter (is_ai_dir env (default (cwd env) projectRoot) w) AI_DIRS)
                        = 0)
             then filter (is_ai_dir env (default (cwd env) projectRoot) w) AI_DIRS
                  ++ ["skills"; "rules"]
             else filter (is_ai_dir env (default (cwd env) projectRoot) w) AI_DIRS)
            = bridge_dirs env projectRoot w) as ->.
    { unfold bridge_dirs. by destruct (filter _ AI_DIRS). }
    unfold cast. by rewrite Hfiles. }
  split; [by rewrite Hids|].
  assert (∀ file, file ∈ files → obj_get (editorId file) BRIDGE_PATHS = Some (filePath file))
    as Hpath.
  { intros file Hin. apply list_elem_of_lookup in Hin as [i Hi].
    apply (f_equal (λ l, l !! i)) in Hpaths. rewrite !list_lookup_fmap, Hi in Hpaths.
    apply (f_equal (λ l, l !! i)) in Hids. rewrite list_lookup_fmap, Hi in Hids.
    cbn in Hpaths, Hids. rewrite <- Hids in Hpaths. cbn in Hpaths. by injection Hpaths. }
  split.
  { apply NoDup_fmap_2_strong; [|rewrite <- Hids in Hnd; by apply NoDup_fmap_1 in Hnd].
    intros file file' Hin Hin' Heq.
    assert (editorId file = editorId file') as Hid.
    { eapply bridge_path_inj; [by apply Hpath|]. rewrite Heq. by apply Hpath. }
    rewrite <- Hids in Hnd. by apply (NoDup_map_inj editorId files). }
  assert (∀ key, key ∈ bridgeKeys assistants → ∃ file, file ∈ files ∧ editorId file = key)
    as Hfound.
  { intros key Hkey. rewrite <- Hids in Hkey.
    apply list_elem_of_fmap in Hkey as (file & -> & Hin). by exists file. }
  split.
  { destruct (Hfound "universal") as (file & Hin & Hid); [apply bridgeKeys_spec; by left|].
    exists file. split; [done|]. split; [done|].
    pose proof (Hpath file Hin) as Hp. rewrite Hid in Hp. by injection Hp. }
  split.
  { intros assistant key Hin Hkey. apply Hfound, bridgeKeys_spec. right. by exists assistant. }
  intros file Hin. split.
  - apply bridgeKeys_spec. rewrite <- Hids. apply list_elem_of_fmap. by exists file.
  - by apply (proj1 (Forall_forall _ _) Hgenerated).
Qed.

(** ** The registry of assistants (agents.ts) and the bridge table *)

(** X26. Every registered assistant is the one [getAssistant] finds under
    its id, supports skills, has a bridge type in the table of
    bridge.ts, and has a project path for a content type exactly when it
    has a global one. *)
Theorem registered_assistant env (XDG_CONFIG_HOME CODEX_HOME : option string)
    (assistant : AssistantConfig) :
  assistant ∈ getAllAssistants env XDG_CONFIG_HOME CODEX_HOME →
  getAssistant env XDG_CONFIG_HOME CODEX_HOME (a_id assistant) = Some assistant
  ∧ assistant ∈ getAssistantsForContentType env XDG_CONFIG_HOME CODEX_HOME skills
  ∧ is_Some (obj_get (a_id assistant) ASSISTANT_TO_BRIDGE)
  ∧ ∀ contentType root,
      is_Some (getContentPath assistant contentType project root)
      ↔ is_Some (getContentPath assistant contentType global root).
Proof.
  intros Hin. split; [|split; [|split]].
  - revert Hin. unfold getAllAssistants, assistants.
    rewrite !elem_of_cons, elem_of_nil. intros H.
    repeat (destruct H as [->|H]; [reflexivity|]). done.
  - apply list_elem_of_filter. split; [|done].
    revert Hin. unfold getAllAssistants, assistants.
    rewrite !elem_of_cons, elem_of_nil. intros H.
    repeat (destruct H as [->|H]; [by eexists|]). done.
  - revert Hin. unfold getAllAssistants, assistants.
    rewrite !elem_of_cons, elem_of_nil. intros H.
    repeat (destruct H as [->|H]; [eexists; reflexivity|]). done.
  - intros contentType root. revert Hin. unfold getAllAssistants, assistants.
    rewrite !elem_of_cons, elem_of_nil. intros H.
    repeat (destruct H as [->|H];
            [destruct contentType; unfold getContentPath;
             cbn [a_paths a_globalPaths claude cursor copilot windsurf gemini antigravity
                  codex amp cline roo continue goose opencode kiro trae augment droid kilo
                  truthy];
             (split; intros [path Hpath]; try discriminate Hpath;
              destruct (truthy root); eexists; reflexivity)|]).
    done.
Qed.

Lemma registered_assistant_witness :
  getAssistant demo_env None None "claude" = Some (claude demo_env)
  ∧ claude demo_env ∈ getAssistantsForContentType demo_env None None skills.
Proof.
  destruct (registered_assistant demo_env None None (claude demo_env)) as (Hget & Hskills & _).
  - apply list_elem_of_here.
  - split; [exact Hget|exact Hskills].
Defined.
